(** * deep-context: the memory store, the retriever, the fallback embedder
      and the context builder, embedded in Rocq.

    Conventions of the embedding.
    - A JS string is the list of its UTF-16 code units ([list N]); [lit]
      turns an ASCII literal of the source into such a list.
    - JS numbers and SQLite REALs are idealised as real numbers.  The one
      non-real value the modelled code can produce from real inputs, the NaN
      obtained by reading a typed array past its end, is kept explicit
      ([jsnum]).
    - SQL tables are modelled as the list of their rows in insertion order
      ([memory_items], [friction_events]) or as a finite map on the primary
      key ([memory_embeddings]).  [datetime('now')] and [nanoid()] are
      passed in by the caller of each operation.
    - A method that can throw returns a [result]; a method that writes to the
      database is a function [Store -> Store * result _], so that the effects
      performed before a throw stay visible.
    - What crosses the border to SQLite is modelled as the driver passes it:
      a string bound to a TEXT column of free text is stored as UTF-8 and
      read back well formed ([toWellFormed]); a typed array handed to
      [Buffer.from(embedding.buffer)] is stored as its whole buffer
      ([to_blob]).  Ids are the strings that [nanoid] draws from its ASCII
      alphabet and are compared as they are. *)

From Stdlib Require Import Reals Lra Lia ZArith NArith List String Ascii.
From stdpp Require Import base option list sorting gmap.

(* ================================================================= *)
(** * Part I: the program *)
(* ================================================================= *)

Module JS.

Abbreviation jsstring := (list N) (only parsing).

(** An ASCII literal of the source, as code units. *)
Definition lit (s : string) : jsstring :=
  N_of_ascii <$> list_ascii_of_string s.

(** ** Numbers *)

Inductive jsnum : Type :=
| Num (r : R)
| NaN.

#[global] Instance Rle_decision (x y : R) : Decision (x <= y)%R := Rle_dec x y.
#[global] Instance Rlt_decision (x y : R) : Decision (x < y)%R := Rlt_dec x y.
#[global] Instance R_eq_decision : EqDecision R := Req_dec_T.

Definition jadd (x y : jsnum) : jsnum :=
  match x, y with
  | Num a, Num b => Num (a + b)
  | _, _ => NaN
  end.

Definition jsub (x y : jsnum) : jsnum :=
  match x, y with
  | Num a, Num b => Num (a - b)
  | _, _ => NaN
  end.

Definition jmul (x y : jsnum) : jsnum :=
  match x, y with
  | Num a, Num b => Num (a * b)
  | _, _ => NaN
  end.

(** [x / y]; every division of the modelled code is guarded by a test that
    the divisor is not zero, so the infinities of JS never arise. *)
Definition jdiv (x y : jsnum) : jsnum :=
  match x, y with
  | Num a, Num b => Num (a / b)
  | _, _ => NaN
  end.

(** [Math.sqrt]: NaN on a negative argument. *)
Definition jsqrt (x : jsnum) : jsnum :=
  match x with
  | Num a => if decide (a < 0)%R then NaN else Num (sqrt a)
  | NaN => NaN
  end.

(** [x === 0], [x > 0] and [x >= y]: every comparison with NaN is false. *)
Definition jis0 (x : jsnum) : bool :=
  match x with
  | Num a => bool_decide (a = 0%R)
  | NaN => false
  end.

Definition jgt0 (x : jsnum) : bool :=
  match x with
  | Num a => bool_decide (0 < a)%R
  | NaN => false
  end.

Definition jge (x y : jsnum) : bool :=
  match x, y with
  | Num a, Num b => bool_decide (b <= a)%R
  | _, _ => false
  end.

(** ** Typed arrays *)

(** The entries of a [Float32Array], which is all that the code that reads
    an array sees. *)
Abbreviation Float32Array := (list R) (only parsing).

(** [a[i]]: [undefined] past the end, which arithmetic turns into NaN. *)
Definition read (a : Float32Array) (i : nat) : jsnum :=
  match a !! i with
  | Some x => Num x
  | None => NaN
  end.

(** [a[i] += d] on an index that is in range (out of range a typed array
    ignores the write). *)
Definition add_at (a : Float32Array) (i : nat) (d : R) : Float32Array :=
  match a !! i with
  | Some x => <[i := (x + d)%R]> a
  | None => a
  end.

(** The bytes that a buffer holds beyond its last whole float: fewer than
    four, and never read as a float. *)
Inductive SpareBytes : Type := Spare0 | Spare1 | Spare2 | Spare3.

Definition spare_bytes (b : SpareBytes) : nat :=
  match b with Spare0 => 0 | Spare1 => 1 | Spare2 => 2 | Spare3 => 3 end.

(** A [Float32Array] seen with the [ArrayBuffer] it is a window on: the
    floats of the buffer before the window ([byteOffset / 4] of them), the
    entries of the array, the floats of the buffer after the window, and
    the spare bytes at the end of the buffer. *)
Record BufferView : Type := {
  before : list R;
  entries : Float32Array;
  after : list R;
  spare : SpareBytes;
}.

(** [new Float32Array(n)], [new Float32Array(list)]: an array on a buffer of
    its own, which the array covers. *)
Definition owned (a : Float32Array) : BufferView :=
  {| before := []; entries := a; after := []; spare := Spare0 |}.

(** A [Buffer]: its whole floats and the bytes left over at its end. *)
Record Blob : Type := {
  floats : list R;
  spare_end : SpareBytes;
}.

(** [blob.length], in bytes. *)
Definition byteLength (b : Blob) : nat :=
  (4 * length (floats b) + spare_bytes (spare_end b))%nat.

(** [Buffer.from(a.buffer)]: the whole buffer of the array, whatever part
    of it the array shows. *)
Definition to_blob (a : BufferView) : Blob :=
  {| floats := before a ++ entries a ++ after a; spare_end := spare a |}.

(** ** Arrays *)

(** [l.slice(0, e)] for an integer [e]: a negative [e] counts from the end. *)
Definition slice0 {A : Type} (l : list A) (e : Z) : list A :=
  if (e <? 0)%Z
  then take (Z.to_nat (Z.max (Z.of_nat (length l) + e) 0)) l
  else take (Z.to_nat e) l.

(** [Array.prototype.sort] is stable.  [after x y] says that the comparator
    is positive on [(x, y)], that is, [x] has to come after [y]; a zero or
    NaN comparator leaves the two in their order. *)
Fixpoint sort_insert {A : Type} (after : A -> A -> bool) (x : A) (l : list A) : list A :=
  match l with
  | [] => [x]
  | y :: l' => if after x y then y :: sort_insert after x l' else x :: y :: l'
  end.

Definition sort {A : Type} (after : A -> A -> bool) (l : list A) : list A :=
  foldr (sort_insert after) [] l.

(** ** Strings *)

(** WhiteSpace and LineTerminator code points: what [trim] removes and what
    [\s] matches. *)
Definition isWhiteSpace (c : N) : bool :=
  ((9 <=? c) && (c <=? 13) || (c =? 32) || (c =? 160) || (c =? 5760)
   || (8192 <=? c) && (c <=? 8202) || (c =? 8232) || (c =? 8233)
   || (c =? 8239) || (c =? 8287) || (c =? 12288) || (c =? 65279))%N.

(** What [.] does not match. *)
Definition isLineTerminator (c : N) : bool :=
  ((c =? 10) || (c =? 13) || (c =? 8232) || (c =? 8233))%N.

Fixpoint trimStart (s : jsstring) : jsstring :=
  match s with
  | [] => []
  | c :: s' => if isWhiteSpace c then trimStart s' else s
  end.

Definition trimEnd (s : jsstring) : jsstring := rev (trimStart (rev s)).

Definition trim (s : jsstring) : jsstring := trimEnd (trimStart s).

(** [s.split(/\s+/)]. [cur] is the piece being read, [skipping] says that
    the previous code unit was white space. *)
Fixpoint split_loop (cur : jsstring) (skipping : bool) (s : jsstring) : list jsstring :=
  match s with
  | [] => [cur]
  | c :: s' =>
      if isWhiteSpace c
      then (if skipping then split_loop cur true s' else cur :: split_loop [] true s')
      else split_loop (cur ++ [c]) false s'
  end.

Definition split_whitespace (s : jsstring) : list jsstring := split_loop [] false s.

(** [l.join(sep)] *)
Fixpoint join (sep : jsstring) (l : list jsstring) : jsstring :=
  match l with
  | [] => []
  | x :: l' =>
      match l' with
      | [] => x
      | _ :: _ => x ++ sep ++ join sep l'
      end
  end.

(** What a string is read back as after it was bound to a TEXT column: the
    driver writes UTF-8, in which a surrogate code unit that is not part of
    a pair becomes U+FFFD ([String.prototype.toWellFormed]). *)
Definition isLeadSurrogate (c : N) : bool := ((55296 <=? c) && (c <=? 56319))%N.

Definition isTrailSurrogate (c : N) : bool := ((56320 <=? c) && (c <=? 57343))%N.

Fixpoint toWellFormed (s : jsstring) : jsstring :=
  match s with
  | [] => []
  | c :: s' =>
      if isLeadSurrogate c
      then match s' with
           | d :: s'' =>
               if isTrailSurrogate d
               then c :: d :: toWellFormed s''
               else 65533%N :: toWellFormed s'
           | [] => [65533%N]
           end
      else if isTrailSurrogate c then 65533%N :: toWellFormed s'
      else c :: toWellFormed s'
  end.

(** [String.prototype.isWellFormed]: no surrogate code unit outside a pair. *)
Fixpoint isWellFormed (s : jsstring) : bool :=
  match s with
  | [] => true
  | c :: s' =>
      if isLeadSurrogate c
      then match s' with
           | d :: s'' => isTrailSurrogate d && isWellFormed s''
           | [] => false
           end
      else negb (isTrailSurrogate c) && isWellFormed s'
  end.

(** Truthiness of a string that may be [undefined]. *)
Definition truthy (o : option jsstring) : bool :=
  match o with
  | Some (_ :: _) => true
  | _ => false
  end.

(** ** Regular expressions: the fragment the source uses *)

Inductive regex : Type :=
| Lit (s : string)
| Seq (r1 r2 : regex)
| Alt (r1 r2 : regex)
| Opt (r : regex)
| DotStar.

(** Canonicalize of the [i] flag (without the [u] flag): a code unit above
    127 is never identified with an ASCII one, so only a-z fold. *)
Definition canonicalize (c : N) : N :=
  if ((97 <=? c) && (c <=? 122))%N then (c - 32)%N else c.

Definition unit_eq (ignoreCase : bool) (p c : N) : bool :=
  if ignoreCase then (canonicalize p =? canonicalize c)%N else (p =? c)%N.

Fixpoint strip_prefix (ignoreCase : bool) (p s : jsstring) : option jsstring :=
  match p, s with
  | [], _ => Some s
  | _ :: _, [] => None
  | a :: p', c :: s' => if unit_eq ignoreCase a c then strip_prefix ignoreCase p' s' else None
  end.

Fixpoint dot_star (k : jsstring -> bool) (s : jsstring) : bool :=
  k s || match s with
         | [] => false
         | c :: s' => if isLineTerminator c then false else dot_star k s'
         end.

(** Does [r], followed by what [k] accepts, match at the start of [s]? *)
Fixpoint match_at (ignoreCase : bool) (r : regex) (s : jsstring) (k : jsstring -> bool) : bool :=
  match r with
  | Lit p =>
      match strip_prefix ignoreCase (lit p) s with
      | Some rest => k rest
      | None => false
      end
  | Seq r1 r2 => match_at ignoreCase r1 s (fun rest => match_at ignoreCase r2 rest k)
  | Alt r1 r2 => match_at ignoreCase r1 s k || match_at ignoreCase r2 s k
  | Opt r1 => match_at ignoreCase r1 s k || k s
  | DotStar => dot_star k s
  end.

(** [pattern.test(s)] for a pattern without the [g] and [y] flags. *)
Fixpoint test (ignoreCase : bool) (r : regex) (s : jsstring) : bool :=
  match_at ignoreCase r s (fun _ => true)
  || match s with
     | [] => false
     | _ :: s' => test ignoreCase r s'
     end.

(** ** 32-bit integers *)

(** ToInt32, as applied by the bit operators. *)
Definition toInt32 (z : Z) : Z :=
  let m := (z mod 4294967296)%Z in
  if (2147483648 <=? m)%Z then (m - 4294967296)%Z else m.

End JS.

(* ----------------------------------------------------------------- *)
(** ** Errors *)

Inductive error : Type :=
| DimensionMismatch (expected got : nat)
| SqliteConstraint
| EmbedderFailure.

Inductive result (A : Type) : Type :=
| Ok (a : A)
| Err (e : error).

Arguments Ok {A} a.
Arguments Err {A} e.

(* ----------------------------------------------------------------- *)
(** ** src/memory/embeddings.ts *)

Module Embeddings.
Import JS.

Definition LOCAL_EMBEDDING_DIM : nat := 384.

(** The [Embedder] interface, reduced to what the retriever uses.  [embed]
    may reject (the network-backed providers do). *)
Record Embedder : Type := {
  dimensions : nat;
  embed : jsstring -> result Float32Array;
}.

Section SimpleEmbedder.

(** [String.prototype.toLowerCase], a built-in of the language. *)
Variable toLowerCase : jsstring -> jsstring.

Definition simpleHash (str : jsstring) : Z :=
  Z.abs (foldl (fun hash char =>
                  toInt32 ((toInt32 (Z.shiftl hash 5) - hash) + Z.of_N char)%Z)
               0%Z str).

(** The loop over the code units of [normalized]. *)
Definition char_step (e : Float32Array) (i : nat) (charCode : N) : Float32Array :=
  let position := (i mod LOCAL_EMBEDDING_DIM)%nat in
  let c := IZR (Z.of_N charCode) in
  let e := add_at e position (sin (c * (1 / 10)) * (1 / 10))%R in
  let e := add_at e ((position + 1) mod LOCAL_EMBEDDING_DIM)%nat
                  (cos (c * (1 / 10)) * (1 / 10))%R in
  add_at e (N.to_nat (charCode mod N.of_nat LOCAL_EMBEDDING_DIM)%N) (5 / 100)%R.

(** The loop over the words. *)
Definition word_step (e : Float32Array) (word : jsstring) : Float32Array :=
  let wordHash := simpleHash word in
  let position := Z.to_nat (wordHash mod Z.of_nat LOCAL_EMBEDDING_DIM)%Z in
  add_at e position (1 / 10)%R.

Definition hashToEmbedding (text : jsstring) : Float32Array :=
  let normalized := trim (toLowerCase text) in
  let embedding :=
    (fun i : nat => sin (INR i * (1 / 10) + INR (length normalized) * (1 / 100)) * (1 / 100))%R
      <$> seq 0 LOCAL_EMBEDDING_DIM in
  let embedding :=
    foldl (fun e ic => char_step e ic.1 ic.2) embedding
          (zip (seq 0 (length normalized)) normalized) in
  let words := split_whitespace normalized in
  let embedding := foldl word_step embedding words in
  let norm := sqrt (foldl (fun norm x => norm + x * x)%R 0%R embedding) in
  if decide (0 < norm)%R
  then (fun x => x / norm)%R <$> embedding
  else embedding.

Definition SimpleEmbedder : Embedder := {|
  dimensions := LOCAL_EMBEDDING_DIM;
  embed := fun text => Ok (hashToEmbedding text);
|}.

End SimpleEmbedder.

End Embeddings.

(* ----------------------------------------------------------------- *)
(** ** src/memory/types.ts *)

Module Types.
Import JS.

Inductive MemoryType : Type := TConstraint | TDecision | THeuristic.
Inductive MemorySource : Type := SUser | SAuto | SGit.
Inductive FrictionEventType : Type :=
| EIteration | ECorrection | ERevert | ERejection | EAcceptance.
Inductive Severity : Type := SevError | SevWarning.
Inductive Strength : Type := Strong | Moderate | Weak.

#[global] Instance MemoryType_eq_dec : EqDecision MemoryType.
Proof. solve_decision. Defined.

Record BaseMemory : Type := {
  id : jsstring;
  content : jsstring;
  context : option jsstring;
  source : MemorySource;
  frictionScore : R;
  createdAt : Z;
  updatedAt : Z;
  active : bool;
}.

(** The union [Constraint | Decision | Heuristic], tagged by [type]. *)
Inductive MemoryItem : Type :=
| ConstraintItem (base : BaseMemory) (scope : option jsstring) (severity : Severity)
| DecisionItem (base : BaseMemory) (alternatives : option (list jsstring))
    (rationale : jsstring) (relatedFiles : option (list jsstring))
| HeuristicItem (base : BaseMemory) (applicableWhen : option jsstring) (strength : Strength).

Definition base_of (m : MemoryItem) : BaseMemory :=
  match m with
  | ConstraintItem b _ _ => b
  | DecisionItem b _ _ _ => b
  | HeuristicItem b _ _ => b
  end.

Definition type_of (m : MemoryItem) : MemoryType :=
  match m with
  | ConstraintItem _ _ _ => TConstraint
  | DecisionItem _ _ _ _ => TDecision
  | HeuristicItem _ _ _ => THeuristic
  end.

Record CreateConstraintInput : Type := {
  cc_content : jsstring;
  cc_context : option jsstring;
  cc_source : option MemorySource;
  cc_scope : option jsstring;
  cc_severity : option Severity;
}.

Record CreateDecisionInput : Type := {
  cd_content : jsstring;
  cd_context : option jsstring;
  cd_source : option MemorySource;
  cd_alternatives : option (list jsstring);
  cd_rationale : jsstring;
  cd_relatedFiles : option (list jsstring);
}.

Record CreateHeuristicInput : Type := {
  ch_content : jsstring;
  ch_context : option jsstring;
  ch_source : option MemorySource;
  ch_applicableWhen : option jsstring;
  ch_strength : option Strength;
}.

Record RetrievalResult : Type := {
  memory : MemoryItem;
  similarity : jsnum;
  adjustedScore : jsnum;
}.

(** [type?: MemoryType | MemoryType[]] and the other optional fields. *)
Record RetrievalOptions : Type := {
  ro_type : option (MemoryType + list MemoryType);
  ro_limit : option Z;
  ro_minSimilarity : option R;
  ro_includeFriction : option bool;
}.

Record VectorSearchOptions : Type := {
  vs_limit : Z;
  vs_types : option (list MemoryType);
}.

End Types.

(* ----------------------------------------------------------------- *)
(** ** The memory store (store.ts) *)

Module MemoryStore.
Import JS Types.

Definition EMBEDDING_DIM : nat := 384.

(** The [metadata] column: a JSON object, of which only these keys are
    ever written or read; an absent key reads as [undefined]. *)
Record Metadata : Type := {
  md_scope : option jsstring;
  md_severity : option Severity;
  md_alternatives : option (list jsstring);
  md_rationale : option jsstring;
  md_relatedFiles : option (list jsstring);
  md_applicableWhen : option jsstring;
  md_strength : option Strength;
}.

(** A row of [memory_items]. *)
Record MemoryRow : Type := {
  row_id : jsstring;
  row_type : MemoryType;
  row_content : jsstring;
  row_context : option jsstring;
  row_source : MemorySource;
  friction_score : R;
  created_at : Z;
  updated_at : Z;
  row_active : Z;
  row_metadata : Metadata;
}.

(** A row of [friction_events]. *)
Record FrictionEventRow : Type := {
  fe_id : jsstring;
  fe_memory_id : jsstring;
  fe_event_type : FrictionEventType;
  fe_delta : R;
  fe_context : option jsstring;
  fe_created_at : Z;
}.

(** The database behind a [MemoryStore].  [foreign_keys] is the setting of
    the connection that decides whether the REFERENCES clauses of the
    schema are enforced; it belongs to the driver and no statement of the
    store changes it.  The session tables are left out: no modelled
    operation reads them. *)
Record Store : Type := {
  foreign_keys : bool;
  memory_items : list MemoryRow;
  memory_embeddings : gmap (list N) Blob;
  friction_events : list FrictionEventRow;
}.

Definition new_store (fk : bool) : Store :=
  {| foreign_keys := fk; memory_items := []; memory_embeddings := ∅;
     friction_events := [] |}.

Definition with_items (s : Store) (items : list MemoryRow) : Store :=
  {| foreign_keys := foreign_keys s; memory_items := items;
     memory_embeddings := memory_embeddings s;
     friction_events := friction_events s |}.

Definition with_embeddings (s : Store) (m : gmap (list N) Blob) : Store :=
  {| foreign_keys := foreign_keys s; memory_items := memory_items s;
     memory_embeddings := m; friction_events := friction_events s |}.

Definition with_events (s : Store) (ev : list FrictionEventRow) : Store :=
  {| foreign_keys := foreign_keys s; memory_items := memory_items s;
     memory_embeddings := memory_embeddings s; friction_events := ev |}.

(** Database actions: the store after the action, and its outcome. *)
Definition DB (A : Type) : Type := Store -> Store * result A.

Definition db_ret {A : Type} (a : A) : DB A := fun s => (s, Ok a).

Definition db_throw {A : Type} (e : error) : DB A := fun s => (s, Err e).

Definition db_bind {A B : Type} (c : DB A) (k : A -> DB B) : DB B :=
  fun s =>
    match c s with
    | (s', Ok a) => k a s'
    | (s', Err e) => (s', Err e)
    end.

Notation "'do' x <- c ; k" := (db_bind c (fun x => k))
  (at level 10, x name, c at level 100, k at level 200).

Notation "c ;; k" := (db_bind c (fun _ => k))
  (at level 100, k at level 200, right associativity).

(** [transaction(fn)]: the writes of [fn] are rolled back when it throws. *)
Definition transaction {A : Type} (fn : DB A) : DB A :=
  fun s =>
    match fn s with
    | (s', Ok a) => (s', Ok a)
    | (_, Err e) => (s, Err e)
    end.

Definition has_item (s : Store) (i : jsstring) : bool :=
  bool_decide (Exists (fun r => row_id r = i) (memory_items s)).

(** [UPDATE memory_items SET ... WHERE ...]: the rows that satisfy [where_]
    are replaced by their image under [set]; [changes] counts them. *)
Definition update_items (where_ : MemoryRow -> bool) (set : MemoryRow -> MemoryRow)
    : DB nat :=
  fun s =>
    (with_items s ((fun r => if where_ r then set r else r) <$> memory_items s),
     Ok (length (List.filter where_ (memory_items s)))).

(** [INSERT INTO memory_items]: [id] is the primary key. *)
Definition insert_item (r : MemoryRow) : DB unit :=
  fun s =>
    if has_item s (row_id r)
    then (s, Err SqliteConstraint)
    else (with_items s (memory_items s ++ [r]), Ok tt).

(** The row that [INSERT INTO memory_items] leaves: [content] and [context]
    are TEXT columns; [metadata] is the output of [JSON.stringify], which
    escapes what UTF-8 cannot hold, so that [JSON.parse] returns its
    strings as they were given. *)
Definition new_row (i : jsstring) (t : MemoryType) (c : jsstring) (ctx : option jsstring)
    (src : MemorySource) (md : Metadata) (now : Z) : MemoryRow :=
  {| row_id := i; row_type := t; row_content := toWellFormed c;
     row_context := toWellFormed <$> ctx;
     row_source := src; friction_score := 0%R; created_at := now;
     updated_at := now; row_active := 1%Z; row_metadata := md |}.

(** The test is on the length of the array; what is written is
    [Buffer.from(embedding.buffer)], the buffer behind the array. *)
Definition setEmbedding (i : jsstring) (embedding : BufferView) : DB unit :=
  fun s =>
    if negb (length (entries embedding) =? EMBEDDING_DIM)%nat
    then (s, Err (DimensionMismatch EMBEDDING_DIM (length (entries embedding))))
    else if foreign_keys s && negb (has_item s i)
    then (s, Err SqliteConstraint)
    else (with_embeddings s (<[i := to_blob embedding]> (memory_embeddings s)), Ok tt).

(** [if (embedding) { this.setEmbedding(id, embedding); }] *)
Definition set_if_given (i : jsstring) (embedding : option BufferView) : DB unit :=
  match embedding with
  | Some e => setEmbedding i e
  | None => db_ret tt
  end.

Definition addConstraint (nanoid : jsstring) (now : Z) (input : CreateConstraintInput)
    (embedding : option BufferView) : DB jsstring :=
  let metadata :=
    {| md_scope := cc_scope input;
       md_severity := Some (default SevWarning (cc_severity input));
       md_alternatives := None; md_rationale := None; md_relatedFiles := None;
       md_applicableWhen := None; md_strength := None |} in
  insert_item (new_row nanoid TConstraint (cc_content input) (cc_context input)
                 (default SUser (cc_source input)) metadata now) ;;
  set_if_given nanoid embedding ;;
  db_ret nanoid.

Definition addDecision (nanoid : jsstring) (now : Z) (input : CreateDecisionInput)
    (embedding : option BufferView) : DB jsstring :=
  let metadata :=
    {| md_scope := None; md_severity := None;
       md_alternatives := cd_alternatives input;
       md_rationale := Some (cd_rationale input);
       md_relatedFiles := cd_relatedFiles input;
       md_applicableWhen := None; md_strength := None |} in
  insert_item (new_row nanoid TDecision (cd_content input) (cd_context input)
                 (default SUser (cd_source input)) metadata now) ;;
  set_if_given nanoid embedding ;;
  db_ret nanoid.

Definition addHeuristic (nanoid : jsstring) (now : Z) (input : CreateHeuristicInput)
    (embedding : option BufferView) : DB jsstring :=
  let metadata :=
    {| md_scope := None; md_severity := None; md_alternatives := None;
       md_rationale := None; md_relatedFiles := None;
       md_applicableWhen := ch_applicableWhen input;
       md_strength := Some (default Moderate (ch_strength input)) |} in
  insert_item (new_row nanoid THeuristic (ch_content input) (ch_context input)
                 (default SUser (ch_source input)) metadata now) ;;
  set_if_given nanoid embedding ;;
  db_ret nanoid.

Definition rowToMemory (row : MemoryRow) : MemoryItem :=
  let metadata := row_metadata row in
  let base :=
    {| id := row_id row; content := row_content row; context := row_context row;
       source := row_source row; frictionScore := friction_score row;
       createdAt := created_at row; updatedAt := updated_at row;
       active := (row_active row =? 1)%Z |} in
  match row_type row with
  | TConstraint =>
      ConstraintItem base (md_scope metadata) (default SevWarning (md_severity metadata))
  | TDecision =>
      DecisionItem base (md_alternatives metadata) (default [] (md_rationale metadata))
        (md_relatedFiles metadata)
  | THeuristic =>
      HeuristicItem base (md_applicableWhen metadata)
        (default Moderate (md_strength metadata))
  end.

(** [ORDER BY created_at DESC].  SQL leaves the order of rows of equal date
    to the query plan; the model keeps them in table order, and no property
    proved below depends on that choice. *)
Definition newest_first (rows : list MemoryRow) : list MemoryRow :=
  sort (fun a b => (created_at a <? created_at b)%Z) rows.

Definition is_active (r : MemoryRow) : bool := (row_active r =? 1)%Z.

Definition getById (s : Store) (i : jsstring) : option MemoryItem :=
  rowToMemory <$>
    head (List.filter (fun r => bool_decide (row_id r = i) && is_active r) (memory_items s)).

Definition getByType (s : Store) (t : MemoryType) : list MemoryItem :=
  rowToMemory <$>
    newest_first
      (List.filter (fun r => bool_decide (row_type r = t) && is_active r) (memory_items s)).

Definition getAllConstraints (s : Store) : list MemoryItem := getByType s TConstraint.

(** Soft delete. *)
Definition delete (now : Z) (i : jsstring) : DB bool :=
  do changes <- update_items
       (fun r => bool_decide (row_id r = i))
       (fun r => {| row_id := row_id r; row_type := row_type r;
                    row_content := row_content r; row_context := row_context r;
                    row_source := row_source r; friction_score := friction_score r;
                    created_at := created_at r; updated_at := now;
                    row_active := 0%Z; row_metadata := row_metadata r |});
  db_ret (0 <? changes)%nat.

(** [DELETE FROM memory_items WHERE id = ?]; with foreign keys enforced the
    embedding and the friction events of a deleted row go with it
    (ON DELETE CASCADE). *)
Definition hardDelete (i : jsstring) : DB bool :=
  fun s =>
    let changes := length (List.filter (fun r => bool_decide (row_id r = i)) (memory_items s)) in
    let s1 := with_items s (List.filter (fun r => negb (bool_decide (row_id r = i))) (memory_items s)) in
    let s2 :=
      if foreign_keys s && (0 <? changes)%nat
      then with_events (with_embeddings s1 (base.delete i (memory_embeddings s1)))
             (List.filter (fun e => negb (bool_decide (fe_memory_id e = i))) (friction_events s1))
      else s1 in
    (s2, Ok (0 <? changes)%nat).

Definition updateContent (now : Z) (i : jsstring) (c : jsstring)
    (embedding : option BufferView) : DB bool :=
  do changes <- update_items
       (fun r => bool_decide (row_id r = i) && is_active r)
       (fun r => {| row_id := row_id r; row_type := row_type r;
                    row_content := toWellFormed c; row_context := row_context r;
                    row_source := row_source r; friction_score := friction_score r;
                    created_at := created_at r; updated_at := now;
                    row_active := row_active r; row_metadata := row_metadata r |});
  (if (0 <? changes)%nat then set_if_given i embedding else db_ret tt) ;;
  db_ret (0 <? changes)%nat.

(** [new Float32Array(row.embedding.buffer, row.embedding.byteOffset,
    EMBEDDING_DIM)]: the first [EMBEDDING_DIM] floats of the blob. *)
Definition blob_view (blob : Blob) : Float32Array := take EMBEDDING_DIM (floats blob).

Definition getEmbedding (s : Store) (i : jsstring) : option Float32Array :=
  match memory_embeddings s !! i with
  | None => None
  | Some e =>
      let expectedBytes := (EMBEDDING_DIM * 4)%nat in
      if negb (byteLength e =? expectedBytes)%nat then None else Some (blob_view e)
  end.

Definition type_selected (types : option (list MemoryType)) (r : MemoryRow) : bool :=
  match types with
  | Some (t :: ts) => bool_decide (row_type r ∈ t :: ts)
  | _ => true
  end.

(** [SELECT m.*, e.embedding FROM memory_items m JOIN memory_embeddings e
    ON m.id = e.id WHERE m.active = 1 (AND m.type IN (...))], in the order
    of [memory_items]. *)
Definition joined_rows (s : Store) (types : option (list MemoryType))
    : list (MemoryRow * Blob) :=
  omap (fun m =>
          if is_active m && type_selected types m
          then (fun e => (m, e)) <$> memory_embeddings s !! row_id m
          else None)
       (memory_items s).

(** The loop of [cosineSimilarity], one index at a time. *)
Definition cosine_step (a b : Float32Array) (acc : jsnum * jsnum * jsnum) (i : nat)
    : jsnum * jsnum * jsnum :=
  let '(dotProduct, normA, normB) := acc in
  (jadd dotProduct (jmul (read a i) (read b i)),
   jadd normA (jmul (read a i) (read a i)),
   jadd normB (jmul (read b i) (read b i))).

Definition cosineSimilarity (a b : Float32Array) : jsnum :=
  let '(dotProduct, normA, normB) :=
    foldl (cosine_step a b) (Num 0, Num 0, Num 0) (seq 0 (length a)) in
  let denominator := jmul (jsqrt normA) (jsqrt normB) in
  if jis0 denominator then Num 0 else jdiv dotProduct denominator.

Record Candidate : Type := {
  c_memory : MemoryItem;
  c_similarity : jsnum;
}.

Definition vectorSearch (s : Store) (queryEmbedding : Float32Array)
    (options : VectorSearchOptions) : list Candidate :=
  let rows := joined_rows s (vs_types options) in
  let results :=
    (fun row : MemoryRow * Blob =>
       let embedding := blob_view row.2 in
       let similarity := cosineSimilarity queryEmbedding embedding in
       {| c_memory := rowToMemory row.1; c_similarity := similarity |}) <$> rows in
  slice0
    (sort (fun a b => jgt0 (jsub (c_similarity b) (c_similarity a))) results)
    (vs_limit options).

(** [INSERT INTO friction_events]: [id] is the primary key, [memory_id]
    references [memory_items(id)]. *)
Definition insert_event (e : FrictionEventRow) : DB unit :=
  fun s =>
    if bool_decide (Exists (fun e' => fe_id e' = fe_id e) (friction_events s))
    then (s, Err SqliteConstraint)
    else if foreign_keys s && negb (has_item s (fe_memory_id e))
    then (s, Err SqliteConstraint)
    else (with_events s (friction_events s ++ [e]), Ok tt).

Definition set_score (r : MemoryRow) (score : R) (now : Z) : MemoryRow :=
  {| row_id := row_id r; row_type := row_type r; row_content := row_content r;
     row_context := row_context r; row_source := row_source r;
     friction_score := score; created_at := created_at r; updated_at := now;
     row_active := row_active r; row_metadata := row_metadata r |}.

Definition recordFrictionEvent (nanoid : jsstring) (now : Z) (memoryId : jsstring)
    (eventType : FrictionEventType) (delta : R) (ctx : option jsstring) : DB jsstring :=
  transaction
    (insert_event {| fe_id := nanoid; fe_memory_id := memoryId;
                     fe_event_type := eventType; fe_delta := delta;
                     fe_context := toWellFormed <$> ctx; fe_created_at := now |} ;;
     update_items
       (fun r => bool_decide (row_id r = memoryId))
       (fun r => set_score r (Rmax (-10) (Rmin 10 (friction_score r + delta))) now)) ;;
  db_ret nanoid.

Definition getFrictionEvents (s : Store) (memoryId : jsstring) : list FrictionEventRow :=
  sort (fun a b => (fe_created_at a <? fe_created_at b)%Z)
       (List.filter (fun e => bool_decide (fe_memory_id e = memoryId)) (friction_events s)).

(** [Math.pow(0.5, 1 / halfLifeDays)] for a half-life other than zero. *)
Definition applyFrictionDecay (now : Z) (halfLifeDays : option R) : DB nat :=
  let decayFactor := Rpower (1 / 2) (1 / default 30%R halfLifeDays) in
  update_items
    (fun r => negb (bool_decide (friction_score r = 0%R)))
    (fun r => set_score r (friction_score r * decayFactor)%R now).

End MemoryStore.

(* ----------------------------------------------------------------- *)
(** ** The retriever (retriever.ts) *)

Module MemoryRetriever.
Import JS Types MemoryStore Embeddings.

Section Retriever.

(** [this.store] and [this.embedder]. *)
Variable store : Store.
Variable embedder : Embedder.

Definition applyFrictionModifier (similarity : jsnum) (friction : R) : jsnum :=
  let modifier := (1 + (1 / 2) * tanh (friction / 3))%R in
  jmul similarity (Num modifier).

Definition retrieve (query : jsstring) (options : RetrievalOptions)
    : result (list RetrievalResult) :=
  let type := ro_type options in
  let limit := default 10%Z (ro_limit options) in
  let minSimilarity := default (3 / 10)%R (ro_minSimilarity options) in
  let includeFriction := default true (ro_includeFriction options) in
  match embed embedder query with
  | Err e => Err e
  | Ok queryEmbedding =>
      let types :=
        match type with
        | Some (inr ts) => Some ts
        | Some (inl t) => Some [t]
        | None => None
        end in
      let candidates :=
        vectorSearch store queryEmbedding
          {| vs_limit := (limit * 3)%Z; vs_types := types |} in
      let results :=
        slice0
          (sort (fun a b => jgt0 (jsub (adjustedScore b) (adjustedScore a)))
             ((fun c =>
                 {| memory := c_memory c;
                    similarity := c_similarity c;
                    adjustedScore :=
                      if includeFriction
                      then applyFrictionModifier (c_similarity c)
                             (frictionScore (base_of (c_memory c)))
                      else c_similarity c |})
                <$> List.filter (fun c => jge (c_similarity c) (Num minSimilarity))
                      candidates))
          limit in
      Ok results
  end.

Definition getAllConstraints : list MemoryItem := MemoryStore.getAllConstraints store.

Definition retrieveDecisions (query : jsstring) (limit : option Z)
    : result (list RetrievalResult) :=
  retrieve query
    {| ro_type := Some (inl TDecision); ro_limit := Some (default 5%Z limit);
       ro_minSimilarity := Some (4 / 10)%R; ro_includeFriction := None |}.

Definition retrieveHeuristics (query : jsstring) (limit : option Z)
    : result (list RetrievalResult) :=
  retrieve query
    {| ro_type := Some (inl THeuristic); ro_limit := Some (default 3%Z limit);
       ro_minSimilarity := Some (35 / 100)%R; ro_includeFriction := None |}.

(** The patterns of [detectsAmbiguity], each with its [i] flag. *)
Definition ambiguitySignals : list (regex * bool) :=
  [ (Lit "should i", true);
    (Seq (Lit "what") (Seq (Alt (Lit "'s") (Lit " is"))
       (Seq (Lit " ") (Seq (Opt (Lit "the ")) (Lit "best")))), true);
    (Lit "how should", true);
    (Seq (Lit "which ")
       (Alt (Lit "one") (Alt (Lit "approach") (Alt (Lit "method") (Lit "way")))), true);
    (Lit "recommend", true);
    (Lit "prefer", true);
    (Lit "or should", true);
    (Lit "better to", true);
    (Lit "what do you think", true);
    (Lit "would you suggest", true);
    (Seq (Lit "?") (Seq DotStar (Lit "?")), false);
    (Seq (Lit "either") (Seq DotStar (Lit "or")), true);
    (Seq (Lit "trade") (Seq (Opt (Lit "-")) (Lit "off")), true) ].

Definition detectsAmbiguity (prompt : jsstring) : bool :=
  existsb (fun pattern : regex * bool => test pattern.2 pattern.1 prompt) ambiguitySignals.

Record ContextOptions : Type := {
  maxDecisions : option Z;
  maxHeuristics : option Z;
  includeHeuristics : option bool;
}.

Record ContextMemories : Type := {
  constraints : list MemoryItem;
  decisions : list RetrievalResult;
  heuristics : list RetrievalResult;
  isAmbiguous : bool;
}.

Definition retrieveForContext (prompt : jsstring) (options : ContextOptions)
    : result ContextMemories :=
  let maxDecisions := default 5%Z (maxDecisions options) in
  let maxHeuristics := default 3%Z (maxHeuristics options) in
  let includeHeuristics := includeHeuristics options in
  let constraints := getAllConstraints in
  match retrieveDecisions prompt (Some maxDecisions) with
  | Err e => Err e
  | Ok decisions =>
      let isAmbiguous := detectsAmbiguity prompt in
      let heuristics :=
        if bool_decide (includeHeuristics = Some true)
           || (negb (bool_decide (includeHeuristics = Some false)) && isAmbiguous)
        then retrieveHeuristics prompt (Some maxHeuristics)
        else Ok [] in
      match heuristics with
      | Err e => Err e
      | Ok heuristics =>
          Ok {| constraints := constraints; decisions := decisions;
                heuristics := heuristics; isAmbiguous := isAmbiguous |}
      end
  end.

Definition search (query : jsstring) (type : option MemoryType) (limit : option Z)
    : result (list RetrievalResult) :=
  retrieve query
    {| ro_type := inl <$> type; ro_limit := Some (default 10%Z limit);
       ro_minSimilarity := Some (2 / 10)%R; ro_includeFriction := None |}.

End Retriever.

(** [addMemory]: the keys of [metadata] that the method reads. *)
Record AddMetadata : Type := {
  am_context : option jsstring;
  am_source : option MemorySource;
  am_scope : option jsstring;
  am_severity : option Severity;
  am_rationale : option jsstring;
  am_alternatives : option (list jsstring);
  am_relatedFiles : option (list jsstring);
  am_applicableWhen : option jsstring;
  am_strength : option Strength;
}.

(** The embedders of embeddings.ts build every result with
    [new Float32Array(...)], an array on a buffer of its own ([owned]).  The
    method is [async]: it awaits the embedder before it writes, so that it
    cannot run inside [transaction]. *)
Definition addMemory (embedder : Embedder) (nanoid : jsstring) (now : Z)
    (type : MemoryType) (content : jsstring) (metadata : AddMetadata) : DB jsstring :=
  match embed embedder content with
  | Err e => db_throw e
  | Ok embedding =>
      match type with
      | TConstraint =>
          addConstraint nanoid now
            {| cc_content := content; cc_context := am_context metadata;
               cc_source := Some (default SUser (am_source metadata));
               cc_scope := am_scope metadata;
               cc_severity := Some (default SevWarning (am_severity metadata)) |}
            (Some (owned embedding))
      | TDecision =>
          addDecision nanoid now
            {| cd_content := content; cd_context := am_context metadata;
               cd_source := Some (default SUser (am_source metadata));
               cd_rationale := default [] (am_rationale metadata);
               cd_alternatives := am_alternatives metadata;
               cd_relatedFiles := am_relatedFiles metadata |}
            (Some (owned embedding))
      | THeuristic =>
          addHeuristic nanoid now
            {| ch_content := content; ch_context := am_context metadata;
               ch_source := Some (default SUser (am_source metadata));
               ch_applicableWhen := am_applicableWhen metadata;
               ch_strength := Some (default Moderate (am_strength metadata)) |}
            (Some (owned embedding))
      end
  end.

Section Formatting.

(** [Number.prototype.toFixed], a built-in of the language. *)
Variable toFixed : jsnum -> nat -> jsstring.

Definition formatMemoryForContext (m : MemoryItem) : jsstring :=
  let lines :=
    match m with
    | ConstraintItem b scope _ =>
        [lit "[CONSTRAINT] " ++ content b]
        ++ (if truthy scope then [lit "  Scope: " ++ default [] scope] else [])
    | DecisionItem b alternatives rationale _ =>
        [lit "[DECISION] " ++ content b]
        ++ (if truthy (Some rationale) then [lit "  Rationale: " ++ rationale] else [])
        ++ (match alternatives with
            | Some (a :: alts) =>
                [lit "  Alternatives considered: " ++ join (lit ", ") (a :: alts)]
            | _ => []
            end)
    | HeuristicItem b applicableWhen _ =>
        [lit "[HEURISTIC] " ++ content b]
        ++ (if truthy applicableWhen
            then [lit "  Applicable when: " ++ default [] applicableWhen] else [])
    end in
  let lines :=
    lines ++ (if truthy (context (base_of m))
              then [lit "  Context: " ++ default [] (context (base_of m))] else []) in
  join [10%N] lines.

Definition formatMemoriesForContext (constraints : list MemoryItem)
    (decisions heuristics : list RetrievalResult) : jsstring :=
  let sections :=
    (if (0 <? length constraints)%nat
     then [lit "## Project Constraints (Always Apply)";
           join [10%N; 10%N] (formatMemoryForContext <$> constraints)]
     else [])
    ++ (if (0 <? length decisions)%nat
        then [lit "## Relevant Past Decisions";
              join [10%N; 10%N]
                ((fun d => formatMemoryForContext (memory d) ++ lit " (relevance: "
                           ++ toFixed (jmul (adjustedScore d) (Num 100)) 0 ++ lit "%)")
                   <$> decisions)]
        else [])
    ++ (if (0 <? length heuristics)%nat
        then [lit "## Applicable Heuristics";
              join [10%N; 10%N] ((fun h => formatMemoryForContext (memory h)) <$> heuristics)]
        else []) in
  join [10%N; 10%N] sections.

End Formatting.

End MemoryRetriever.

(* ----------------------------------------------------------------- *)
(** ** The context builder (context-builder.ts) *)

Module ContextBuilder.
Import JS Types MemoryStore Embeddings MemoryRetriever.

Inductive Role : Type := RSystem | RUser | RAssistant.

Record Message : Type := {
  role : Role;
  msg_content : jsstring;
}.

Record ContextConfig : Type := {
  maxTokens : Z;
  systemTokens : Z;
  constraintTokens : Z;
  conversationTokens : Z;
  decisionTokens : Z;
  heuristicTokens : Z;
}.

Definition DEFAULT_CONTEXT_CONFIG : ContextConfig :=
  {| maxTokens := 8000; systemTokens := 500; constraintTokens := 1000;
     conversationTokens := 3000; decisionTokens := 2000; heuristicTokens := 500 |}.

Record MemoryStats : Type := {
  constraintsIncluded : nat;
  decisionsIncluded : nat;
  heuristicsIncluded : nat;
  wasAmbiguous : bool;
}.

Record BuiltContext : Type := {
  messages : list Message;
  tokenEstimate : Z;
  memoryStats : MemoryStats;
}.

(** [Math.ceil(text.length / 4)] *)
Definition estimateTokens (text : jsstring) : Z :=
  ((Z.of_nat (length text) + 3) / 4)%Z.

(** The loop of [truncateHistory], from the most recent message to the
    oldest: [older] holds [history[i]], [history[i-1]], ..., [history[0]].
    The estimates are integers, so a budget that is not an integer behaves
    like its floor: budgets are taken in [Z]. *)
Fixpoint truncate_loop (maxTokens : Z) (older : list Message) (result : list Message)
    (totalTokens : Z) : list Message :=
  match older with
  | [] => result
  | msg :: older' =>
      let msgTokens := estimateTokens (msg_content msg) in
      if (totalTokens + msgTokens <=? maxTokens)%Z
      then truncate_loop maxTokens older' (msg :: result) (totalTokens + msgTokens)%Z
      else result
  end.

Definition truncateHistory (history : list Message) (maxTokens : Z) : list Message :=
  if (length history =? 0)%nat then []
  else truncate_loop maxTokens (rev history) [] 0%Z.

Section Builder.

Variable toFixed : jsnum -> nat -> jsstring.

(** [this.retriever] (a store and an embedder) and [this.config]. *)
Variable store : Store.
Variable embedder : Embedder.
Variable config : ContextConfig.

Definition buildSystemPrompt (constraints : list MemoryItem)
    (decisions heuristics : list RetrievalResult) : jsstring :=
  let sections :=
    [lit "You are Deep Context, an AI coding assistant with persistent memory."
       ++ [10%N]
       ++ lit "You remember past decisions and constraints for this project."
       ++ [10%N]
       ++ lit "Always consider the project context when giving advice."]
    ++ (if (0 <? length constraints)%nat || (0 <? length decisions)%nat
           || (0 <? length heuristics)%nat
        then [[10%N] ++ lit "# Project Memory" ++ [10%N];
              formatMemoriesForContext toFixed constraints decisions heuristics]
        else [])
    ++ (if (0 <? length constraints)%nat
        then [[10%N] ++ lit "**Important:** The constraints above are rules that MUST be followed."]
        else [])
    ++ (if (0 <? length decisions)%nat
        then [[10%N] ++ lit "The decisions above represent past choices made for this project. Consider them when giving advice, but they can be reconsidered if there's good reason."]
        else []) in
  join [10%N] sections.

Record BuildOptions : Type := {
  includeMemory : option bool;
  forceHeuristics : option bool;
}.

Definition build (userPrompt : jsstring) (conversationHistory : list Message)
    (options : BuildOptions) : result BuiltContext :=
  let includeMemory := default true (includeMemory options) in
  let retrieved :=
    if includeMemory
    then retrieveForContext store embedder userPrompt
           {| maxDecisions := Some 5%Z; maxHeuristics := Some 3%Z;
              includeHeuristics := forceHeuristics options |}
    else Ok {| constraints := []; decisions := []; heuristics := [];
               isAmbiguous := false |} in
  match retrieved with
  | Err e => Err e
  | Ok retrieved =>
      let systemContent :=
        buildSystemPrompt (constraints retrieved) (decisions retrieved)
          (heuristics retrieved) in
      let historyBudget := conversationTokens config in
      let truncatedHistory := truncateHistory conversationHistory historyBudget in
      let messages :=
        [{| role := RSystem; msg_content := systemContent |}]
        ++ truncatedHistory
        ++ [{| role := RUser; msg_content := userPrompt |}] in
      let tokenEstimate :=
        foldl (fun sum msg => (sum + estimateTokens (msg_content msg))%Z) 0%Z messages in
      Ok {| messages := messages;
            tokenEstimate := tokenEstimate;
            memoryStats :=
              {| constraintsIncluded := length (constraints retrieved);
                 decisionsIncluded := length (decisions retrieved);
                 heuristicsIncluded := length (heuristics retrieved);
                 wasAmbiguous := isAmbiguous retrieved |} |}
  end.

End Builder.

End ContextBuilder.

(* ----------------------------------------------------------------- *)
(** ** Sequences of calls on a store *)

Module Scenario.
Import JS Types MemoryStore.

(** [SELECT * FROM memory_items WHERE id = ?], whether active or not. *)
Definition find_row (s : Store) (i : jsstring) : option MemoryRow :=
  head (List.filter (fun r => bool_decide (row_id r = i)) (memory_items s)).

(** The arguments of one call of [recordFrictionEvent] on a given memory,
    with the id and the date the call draws. *)
Record FrictionCall : Type := {
  fc_nanoid : jsstring;
  fc_now : Z;
  fc_eventType : FrictionEventType;
  fc_delta : R;
  fc_context : option jsstring;
}.

(** One call after the other on the memory [memoryId]; a call that throws
    ends the sequence. *)
Fixpoint recordAll (memoryId : jsstring) (calls : list FrictionCall) : DB unit :=
  match calls with
  | [] => db_ret tt
  | c :: calls' =>
      recordFrictionEvent (fc_nanoid c) (fc_now c) memoryId (fc_eventType c)
        (fc_delta c) (fc_context c) ;;
      recordAll memoryId calls'
  end.

(** The calls that write to the store. *)
Inductive Call : Type :=
| CallAddConstraint (nanoid : jsstring) (now : Z) (input : CreateConstraintInput)
    (embedding : option BufferView)
| CallAddDecision (nanoid : jsstring) (now : Z) (input : CreateDecisionInput)
    (embedding : option BufferView)
| CallAddHeuristic (nanoid : jsstring) (now : Z) (input : CreateHeuristicInput)
    (embedding : option BufferView)
| CallDelete (now : Z) (i : jsstring)
| CallHardDelete (i : jsstring)
| CallUpdateContent (now : Z) (i : jsstring) (c : jsstring)
    (embedding : option BufferView)
| CallSetEmbedding (i : jsstring) (embedding : BufferView)
| CallRecordFrictionEvent (nanoid : jsstring) (now : Z) (memoryId : jsstring)
    (eventType : FrictionEventType) (delta : R) (ctx : option jsstring)
| CallApplyFrictionDecay (now : Z) (halfLifeDays : option R).

(** The store a call leaves behind, whether it returns or throws. *)
Definition exec (c : Call) (s : Store) : Store :=
  match c with
  | CallAddConstraint nanoid now input embedding =>
      (addConstraint nanoid now input embedding s).1
  | CallAddDecision nanoid now input embedding =>
      (addDecision nanoid now input embedding s).1
  | CallAddHeuristic nanoid now input embedding =>
      (addHeuristic nanoid now input embedding s).1
  | CallDelete now i => (delete now i s).1
  | CallHardDelete i => (hardDelete i s).1
  | CallUpdateContent now i c embedding => (updateContent now i c embedding s).1
  | CallSetEmbedding i embedding => (setEmbedding i embedding s).1
  | CallRecordFrictionEvent nanoid now memoryId eventType delta ctx =>
      (recordFrictionEvent nanoid now memoryId eventType delta ctx s).1
  | CallApplyFrictionDecay now halfLifeDays => (applyFrictionDecay now halfLifeDays s).1
  end.

Definition positive_half_life (c : Call) : Prop :=
  match c with
  | CallApplyFrictionDecay _ halfLifeDays => (0 < default 30 halfLifeDays)%R
  | _ => True
  end.

(** The stores that calls with a positive half-life lead to, from a new
    database.  A [transaction] that rolls back returns to a store that was
    reached before. *)
Inductive reachable : Store -> Prop :=
| reachable_new (fk : bool) : reachable (new_store fk)
| reachable_call (s : Store) (c : Call) :
    reachable s -> positive_half_life c -> reachable (exec c s).

End Scenario.

(* ----------------------------------------------------------------- *)
(** ** The vocabulary of the specification *)

Module Spec.
Import JS Types MemoryStore ContextBuilder.

(** [dot(a,b)] and [|a|]. *)
Fixpoint dot (a b : list R) : R :=
  match a, b with
  | x :: a', y :: b' => (x * y + dot a' b')%R
  | _, _ => 0%R
  end.

Definition norm (a : list R) : R := sqrt (dot a a).

(** [clamp(x, lo, hi)]. *)
Definition clamp (x lo hi : R) : R :=
  if decide (x < lo)%R then lo else if decide (hi < x)%R then hi else x.

Definition sum (l : list R) : R := foldr Rplus 0%R l.

(** A friction score within [[-10, 10]]. *)
Definition in_range (x : R) : Prop := (-10 <= x <= 10)%R.

Definition scores_in_range (s : Store) : Prop :=
  Forall (fun r => in_range (friction_score r)) (memory_items s).

(** The token estimate of a list of messages. *)
Definition tokens (l : list Message) : Z :=
  foldr (fun m acc => (estimateTokens (msg_content m) + acc)%Z) 0%Z l.

(** A list of scores in descending order. *)
Definition score_ge (x y : jsnum) : Prop :=
  match x, y with
  | Num a, Num b => (b <= a)%R
  | _, _ => False
  end.

Definition descending (l : list jsnum) : Prop := StronglySorted score_ge l.

End Spec.

(* ----------------------------------------------------------------- *)
(** ** Concrete stores and calls *)

Module Examples.
Import JS Types MemoryStore Embeddings MemoryRetriever Scenario.

(** [toLowerCase] on strings whose letters are ASCII. *)
Definition ascii_toLowerCase (s : jsstring) : jsstring :=
  (fun c => if ((65 <=? c) && (c <=? 90))%N then (c + 32)%N else c) <$> s.

(** The fallback embedder, for such strings. *)
Definition simple : Embedder := SimpleEmbedder ascii_toLowerCase.

Definition no_metadata : AddMetadata :=
  {| am_context := None; am_source := None; am_scope := None; am_severity := None;
     am_rationale := None; am_alternatives := None; am_relatedFiles := None;
     am_applicableWhen := None; am_strength := None |}.

(** A constraint, a decision and a heuristic, added through the retriever. *)
Definition three_memories : Store :=
  (addMemory simple (lit "h1") 3 THeuristic (lit "Prefer async/await") no_metadata
     (addMemory simple (lit "d1") 2 TDecision (lit "Use PostgreSQL") no_metadata
        (addMemory simple (lit "c1") 1 TConstraint (lit "Always validate input")
           no_metadata (new_store true)).1).1).1.

Definition default_retrieval : RetrievalOptions :=
  {| ro_type := None; ro_limit := None; ro_minSimilarity := None;
     ro_includeFriction := None |}.

Definition default_context : ContextOptions :=
  {| maxDecisions := None; maxHeuristics := None; includeHeuristics := None |}.

(** Three messages of two tokens each, oldest first. *)
Definition three_messages : list ContextBuilder.Message :=
  [ {| ContextBuilder.role := ContextBuilder.RUser;
       ContextBuilder.msg_content := lit "oldest.." |};
    {| ContextBuilder.role := ContextBuilder.RAssistant;
       ContextBuilder.msg_content := lit "middle.." |};
    {| ContextBuilder.role := ContextBuilder.RUser;
       ContextBuilder.msg_content := lit "newest.." |} ].

Definition tabs_rule : CreateConstraintInput :=
  {| cc_content := lit "Use tabs, not spaces"; cc_context := None;
     cc_source := None; cc_scope := None; cc_severity := None |}.

(** A new database with one constraint, [m1]. *)
Definition one_memory : Store :=
  exec (CallAddConstraint (lit "m1") 0 tabs_rule None) (new_store true).

(** An acceptance worth 15, then a correction worth -10. *)
Definition up_then_down : list FrictionCall :=
  [ {| fc_nanoid := lit "e1"; fc_now := 1; fc_eventType := EAcceptance;
       fc_delta := 15; fc_context := None |};
    {| fc_nanoid := lit "e2"; fc_now := 2; fc_eventType := ECorrection;
       fc_delta := -10; fc_context := None |} ].

(** A correction worth -1, then an acceptance worth 2. *)
Definition down_then_up : list FrictionCall :=
  [ {| fc_nanoid := lit "e1"; fc_now := 1; fc_eventType := ECorrection;
       fc_delta := -1; fc_context := None |};
    {| fc_nanoid := lit "e2"; fc_now := 2; fc_eventType := EAcceptance;
       fc_delta := 2; fc_context := None |} ].

(** [m1] after a soft delete. *)
Definition one_deleted : Store := exec (CallDelete 1 (lit "m1")) one_memory.

(** [m1] after an acceptance worth 8. *)
Definition one_accepted : Store :=
  exec (CallRecordFrictionEvent (lit "e1") 1 (lit "m1") EAcceptance 8 None) one_memory.

(** [new Float32Array(768).fill(1, 0, 384)] seen through [subarray(0, 384)]:
    384 ones at the front of a buffer of 768 floats. *)
Definition ones_in_front : BufferView :=
  {| before := []; entries := repeat 1%R 384; after := repeat 0%R 384; spare := Spare0 |}.

(** [new Float32Array(768).fill(1, 384)] seen through [subarray(384)]: 384
    ones behind 384 zeros. *)
Definition ones_behind : BufferView :=
  {| before := repeat 0%R 384; entries := repeat 1%R 384; after := []; spare := Spare0 |}.

End Examples.

(* ----------------------------------------------------------------- *)
(** ** More of the store: listing and statistics (store.ts) *)

Module StoreQueries.
Import JS Types MemoryStore.

Record ListOptions : Type := {
  lo_type : option MemoryType;
  lo_limit : option Z;
  lo_offset : option Z;
  lo_includeInactive : option bool;
}.

(** [LIMIT ? OFFSET ?] of SQLite: a negative limit is no limit, a negative
    offset is no offset. *)
Definition limit_offset {A : Type} (rows : list A) (limit offset : Z) : list A :=
  let rest := drop (Z.to_nat offset) rows in
  if (limit <? 0)%Z then rest else take (Z.to_nat limit) rest.

Definition listMemories (s : Store) (options : ListOptions) : list MemoryItem :=
  let type := lo_type options in
  let limit := default 50%Z (lo_limit options) in
  let offset := default 0%Z (lo_offset options) in
  let includeInactive := default false (lo_includeInactive options) in
  let rows :=
    List.filter
      (fun r => (includeInactive || is_active r)
                && match type with
                   | Some t => bool_decide (row_type r = t)
                   | None => true
                   end)
      (memory_items s) in
  rowToMemory <$> limit_offset (newest_first rows) limit offset.

(** The result of [getStats].  [SUM] over no row is NULL, which reaches the
    caller as [null]. *)
Record MemoryStats : Type := {
  totalMemories : nat;
  constraintCount : option nat;
  decisionCount : option nat;
  heuristicCount : option nat;
  totalFrictionEvents : nat;
  averageFrictionScore : R;
  oldestMemory : option Z;
  newestMemory : option Z;
}.

(** [SUM(CASE WHEN type = t THEN 1 ELSE 0 END)] *)
Definition sum_case (t : MemoryType) (rows : list MemoryRow) : option nat :=
  match rows with
  | [] => None
  | _ :: _ => Some (length (List.filter (fun r => bool_decide (row_type r = t)) rows))
  end.

(** [AVG(friction_score)] *)
Definition avg_friction (rows : list MemoryRow) : option R :=
  match rows with
  | [] => None
  | _ :: _ =>
      Some (foldr (fun r acc => friction_score r + acc)%R 0%R rows / INR (length rows))%R
  end.

(** [MIN(created_at)] and [MAX(created_at)] *)
Definition min_created (rows : list MemoryRow) : option Z :=
  match rows with
  | [] => None
  | r :: rows' => Some (foldr (fun r' m => Z.min (created_at r') m) (created_at r) rows')
  end.

Definition max_created (rows : list MemoryRow) : option Z :=
  match rows with
  | [] => None
  | r :: rows' => Some (foldr (fun r' m => Z.max (created_at r') m) (created_at r) rows')
  end.

Definition getStats (s : Store) : MemoryStats :=
  let active := List.filter is_active (memory_items s) in
  {| totalMemories := length active;
     constraintCount := sum_case TConstraint active;
     decisionCount := sum_case TDecision active;
     heuristicCount := sum_case THeuristic active;
     totalFrictionEvents := length (friction_events s);
     averageFrictionScore := default 0%R (avg_friction active);
     oldestMemory := min_created active;
     newestMemory := max_created active |}.

End StoreQueries.

(* ----------------------------------------------------------------- *)
(** ** [buildSimpleContext] (context-builder.ts) *)

Module SimpleContext.
Import JS ContextBuilder.

Definition buildSimpleContext (userPrompt : jsstring) (conversationHistory : list Message)
    (systemPrompt : option jsstring) : list Message :=
  (if truthy systemPrompt
   then [{| role := RSystem; msg_content := default [] systemPrompt |}]
   else [])
  ++ conversationHistory
  ++ [{| role := RUser; msg_content := userPrompt |}].

End SimpleContext.

(* ----------------------------------------------------------------- *)
(** ** The friction tools of the MCP server (mcp/server.ts) *)

Module McpServer.
Import JS Types MemoryStore Embeddings MemoryRetriever.

Section Handlers.

(** The retriever's embedder, and the id and the date drawn by the n-th
    [recordFrictionEvent] of a handler. *)
Variable embedder : Embedder.
Variable nanoid : nat -> jsstring.
Variable clock : nat -> Z.

Record FrictionLog : Type := {
  what_failed : jsstring;
  why : option jsstring;
  correction : option jsstring;
  memory_id : option jsstring;
}.

Definition SIMILARITY_THRESHOLD : R := (55 / 100)%R.

(** The loop over [related] of the [dc_log_friction] tool; [affectedCount]
    counts the events recorded so far. *)
Fixpoint friction_loop (ctx : jsstring) (related : list RetrievalResult)
    (affectedCount : nat) : DB nat :=
  match related with
  | [] => db_ret affectedCount
  | result :: related' =>
      if jge (adjustedScore result) (Num SIMILARITY_THRESHOLD)
      then
        recordFrictionEvent (nanoid affectedCount) (clock affectedCount)
          (id (base_of (memory result))) ECorrection (- (1 / 2))%R (Some ctx) ;;
        friction_loop ctx related' (S affectedCount)
      else friction_loop ctx related' affectedCount
  end.

(** The store part of the [dc_log_friction] tool: the number of memories
    the friction was applied to. *)
Definition logFriction (input : FrictionLog) : DB nat :=
  let ctx := default (what_failed input) (why input) in
  if truthy (memory_id input)
  then
    recordFrictionEvent (nanoid 0) (clock 0) (default [] (memory_id input))
      ECorrection (- (1 / 2))%R (Some ctx) ;;
    db_ret 1%nat
  else
    fun s =>
      match search s embedder (what_failed input) None (Some 3%Z) with
      | Err e => (s, Err e)
      | Ok related => friction_loop ctx related 0 s
      end.

(** The store part of the [dc_memory_boost] tool. *)
Definition boost (memory_id : jsstring) (reason : option jsstring) : DB unit :=
  recordFrictionEvent (nanoid 0) (clock 0) memory_id EAcceptance (1 / 2)%R
    (Some (default (lit "Memory was helpful") reason)) ;;
  db_ret tt.

End Handlers.

End McpServer.

(* ----------------------------------------------------------------- *)
(** ** The integrity of the tables *)

Module Invariants.
Import JS MemoryStore.

(** The primary keys of [memory_items]. *)
Definition ids (s : Store) : list jsstring := row_id <$> memory_items s.

(** The primary keys of [memory_items] and of [friction_events] are
    unique. *)
Definition unique_ids (s : Store) : Prop :=
  NoDup (ids s) /\ NoDup (fe_id <$> friction_events s).

(** Every embedding and every friction event belongs to a memory. *)
Definition references_resolve (s : Store) : Prop :=
  (forall i, is_Some (memory_embeddings s !! i) -> i ∈ ids s)
  /\ Forall (fun e => fe_memory_id e ∈ ids s) (friction_events s).

Definition integrity (s : Store) : Prop :=
  unique_ids s /\ (foreign_keys s = true -> references_resolve s).

(** An action that keeps the integrity, whether it returns or throws. *)
Definition preserves {A : Type} (c : DB A) : Prop :=
  forall s, integrity s -> integrity (c s).1.

End Invariants.

(* ================================================================= *)
(** * Part II: properties *)
(* ================================================================= *)

Import JS Types MemoryStore Embeddings MemoryRetriever ContextBuilder Scenario Examples.

(* ----------------------------------------------------------------- *)
(** ** Cosine similarity *)

Lemma dot_nil_r (a : list R) : Spec.dot a [] = 0%R.
Proof. destruct a; reflexivity. Qed.

Lemma dot_self_nonneg (a : list R) : (0 <= Spec.dot a a)%R.
Proof.
  induction a as [|x a IH]; simpl; [lra|].
  pose proof (Rle_0_sqr x) as Hx. unfold Rsqr in Hx. lra.
Qed.

Lemma dot_take_S (a b : list R) (n : nat) (x y : R) :
  a !! n = Some x -> b !! n = Some y ->
  Spec.dot (take (S n) a) (take (S n) b)
  = (Spec.dot (take n a) (take n b) + x * y)%R.
Proof.
  revert a b. induction n as [|n IH]; intros [|x0 a] [|y0 b] Ha Hb;
    simpl in Ha, Hb; try discriminate.
  - injection Ha as ->. injection Hb as ->. simpl. lra.
  - change (take (S (S n)) (x0 :: a)) with (x0 :: take (S n) a).
    change (take (S (S n)) (y0 :: b)) with (y0 :: take (S n) b).
    change (take (S n) (x0 :: a)) with (x0 :: take n a).
    change (take (S n) (y0 :: b)) with (y0 :: take n b).
    cbn [Spec.dot]. rewrite (IH a b Ha Hb). lra.
Qed.

(** The invariant of the loop of [cosineSimilarity]. *)
Lemma cosine_loop (a b : list R) (n : nat) :
  (n <= length a)%nat -> length a = length b ->
  foldl (cosine_step a b) (Num 0, Num 0, Num 0) (seq 0 n)
  = (Num (Spec.dot (take n a) (take n b)),
     Num (Spec.dot (take n a) (take n a)),
     Num (Spec.dot (take n b) (take n b))).
Proof.
  intros Hn Hlen. induction n as [|n IH].
  - rewrite !take_0. reflexivity.
  - rewrite seq_S, foldl_app, IH by lia. simpl.
    destruct (lookup_lt_is_Some_2 a n ltac:(lia)) as [x Hx].
    destruct (lookup_lt_is_Some_2 b n ltac:(lia)) as [y Hy].
    unfold read. rewrite Hx, Hy. simpl.
    rewrite (dot_take_S a b n x y Hx Hy), (dot_take_S a a n x x Hx Hx),
      (dot_take_S b b n y y Hy Hy).
    reflexivity.
Qed.

Lemma cosineSimilarity_eq (a b : list R) :
  length a = length b ->
  cosineSimilarity a b
  = if decide (Spec.norm a * Spec.norm b = 0)%R then Num 0
    else Num (Spec.dot a b / (Spec.norm a * Spec.norm b)).
Proof.
  intros Hlen. unfold cosineSimilarity.
  rewrite (cosine_loop a b (length a)) by (auto; lia).
  rewrite !(take_ge a), !(take_ge b) by lia.
  unfold jsqrt.
  destruct (decide (Spec.dot a a < 0)%R) as [Ha|_];
    [pose proof (dot_self_nonneg a); lra|].
  destruct (decide (Spec.dot b b < 0)%R) as [Hb|_];
    [pose proof (dot_self_nonneg b); lra|].
  simpl. unfold Spec.norm.
  destruct (decide (sqrt (Spec.dot a a) * sqrt (Spec.dot b b) = 0)%R) as [H0|H0].
  - rewrite bool_decide_eq_true_2 by exact H0. reflexivity.
  - rewrite bool_decide_eq_false_2 by exact H0. reflexivity.
Qed.

(** C8. For vectors of equal length, [cosineSimilarity] returns
    [dot(a,b) / (|a| * |b|)] when both norms are not zero, and exactly [0]
    (a number, not NaN) when one of the norms is zero. *)
Theorem cosineSimilarity_formula (a b : list R) :
  length a = length b ->
  (Spec.norm a <> 0%R -> Spec.norm b <> 0%R ->
   cosineSimilarity a b = Num (Spec.dot a b / (Spec.norm a * Spec.norm b)))
  /\ (Spec.norm a = 0%R \/ Spec.norm b = 0%R -> cosineSimilarity a b = Num 0).
Proof.
  intros Hlen. rewrite (cosineSimilarity_eq a b Hlen). split.
  - intros Ha Hb. destruct (decide _) as [H0|_]; [|reflexivity].
    apply Rmult_integral in H0. tauto.
  - intros H0. destruct (decide _) as [_|Hne]; [reflexivity|].
    exfalso. apply Hne. destruct H0 as [-> | ->]; lra.
Qed.

Lemma cosineSimilarity_formula_witness :
  cosineSimilarity [3; 4]%R [4; 3]%R
  = Num (Spec.dot [3; 4]%R [4; 3]%R / (Spec.norm [3; 4]%R * Spec.norm [4; 3]%R))
  /\ cosineSimilarity [0; 0]%R [1; 2]%R = Num 0.
Proof.
  split.
  - apply (proj1 (cosineSimilarity_formula [3; 4]%R [4; 3]%R eq_refl));
      apply Rgt_not_eq, Rlt_gt, sqrt_lt_R0; simpl; lra.
  - apply (proj2 (cosineSimilarity_formula [0; 0]%R [1; 2]%R eq_refl)).
    left. unfold Spec.norm. simpl.
    replace (0 * 0 + (0 * 0 + 0))%R with 0%R by lra. apply sqrt_0.
Defined.

(* ----------------------------------------------------------------- *)
(** ** Sorting and slicing *)

Lemma sort_insert_perm {A : Type} (after : A -> A -> bool) (x : A) (l : list A) :
  sort_insert after x l ≡ₚ x :: l.
Proof.
  induction l as [|y l IH]; simpl; [reflexivity|].
  destruct (after x y); [|reflexivity].
  rewrite IH. apply Permutation_swap.
Qed.

Lemma sort_perm {A : Type} (after : A -> A -> bool) (l : list A) :
  JS.sort after l ≡ₚ l.
Proof.
  induction l as [|x l IH]; simpl; [reflexivity|].
  rewrite sort_insert_perm. by rewrite IH.
Qed.

Lemma sort_length {A : Type} (after : A -> A -> bool) (l : list A) :
  length (JS.sort after l) = length l.
Proof. by rewrite (sort_perm after l). Qed.

Lemma sort_elem_of {A : Type} (after : A -> A -> bool) (l : list A) (x : A) :
  x ∈ JS.sort after l <-> x ∈ l.
Proof. by rewrite (sort_perm after l). Qed.

Section SortSorted.

Context {A : Type} (after : A -> A -> bool) (Rel : relation A) (P : A -> Prop).
Hypothesis Rel_trans : forall x y z, Rel x y -> Rel y z -> Rel x z.
Hypothesis after_false : forall x y, P x -> P y -> after x y = false -> Rel x y.
Hypothesis after_true : forall x y, P x -> P y -> after x y = true -> Rel y x.

Lemma sort_insert_sorted (x : A) (l : list A) :
  P x -> Forall P l -> StronglySorted Rel l ->
  StronglySorted Rel (sort_insert after x l).
Proof.
  intros Px Pl Hs. induction Hs as [|y l Hs IH Hy]; simpl.
  - repeat constructor.
  - apply Forall_cons in Pl as [Py Pl].
    destruct (after x y) eqn:E.
    + constructor; [by apply IH|].
      rewrite (sort_insert_perm after x l). constructor; [|exact Hy].
      by apply after_true.
    + pose proof (after_false x y Px Py E) as Hxy.
      constructor; [by constructor|].
      constructor; [exact Hxy|].
      eapply Forall_impl; [exact Hy|]. intros z Hz. by eapply Rel_trans.
Qed.

Lemma sort_sorted (l : list A) :
  Forall P l -> StronglySorted Rel (JS.sort after l).
Proof.
  induction 1 as [|x l Px Pl IH]; simpl; [constructor|].
  apply sort_insert_sorted; [exact Px| |exact IH].
  by rewrite (sort_perm after l).
Qed.

End SortSorted.

Lemma slice0_prefix {A : Type} (l : list A) (e : Z) :
  exists k : nat, slice0 l e = take k l.
Proof. unfold slice0. destruct (e <? 0)%Z; eauto. Qed.

Lemma slice0_length {A : Type} (l : list A) (e : Z) :
  (0 <= e)%Z -> (Z.of_nat (length (slice0 l e)) <= e)%Z.
Proof.
  intros He. unfold slice0.
  destruct (Z.ltb_spec e 0); [lia|]. rewrite length_take. lia.
Qed.

(** A negative end counts from the end of the list. *)
Example slice0_negative_end : slice0 [1; 2; 3]%nat (-1) = [1; 2]%nat.
Proof. reflexivity. Qed.

Lemma slice0_elem_of {A : Type} (l : list A) (e : Z) (x : A) :
  x ∈ slice0 l e -> x ∈ l.
Proof.
  destruct (slice0_prefix l e) as [k ->]. intros Hx.
  rewrite <- (take_drop k l). apply elem_of_app. by left.
Qed.

Lemma slice0_Forall {A : Type} (P : A -> Prop) (l : list A) (e : Z) :
  Forall P l -> Forall P (slice0 l e).
Proof.
  intros Hl. apply Forall_forall. intros x Hx.
  eapply (proj1 (Forall_forall P l) Hl), slice0_elem_of, Hx.
Qed.

Lemma slice0_sorted {A : Type} (Rel : relation A) (l : list A) (e : Z) :
  StronglySorted Rel l -> StronglySorted Rel (slice0 l e).
Proof.
  destruct (slice0_prefix l e) as [k ->]. intros Hs.
  rewrite <- (take_drop k l) in Hs.
  by apply StronglySorted_app_1_l in Hs.
Qed.

(* ----------------------------------------------------------------- *)
(** ** The store: what each call does to [memory_items] *)

(** Unfold a database action down to the stores it threads. *)
Ltac unfold_db :=
  unfold recordFrictionEvent, delete, updateContent, db_bind, transaction,
    insert_event, insert_item, update_items, db_ret.

Lemma elem_of_List_filter {A : Type} (f : A -> bool) (l : list A) (x : A) :
  x ∈ List.filter f l <-> x ∈ l /\ f x = true.
Proof. rewrite !list_elem_of_In. apply filter_In. Qed.

Lemma with_items_same (s : Store) : with_items s (memory_items s) = s.
Proof. by destruct s. Qed.

Lemma setEmbedding_items (i : jsstring) (e : BufferView) (s : Store) :
  memory_items (setEmbedding i e s).1 = memory_items s.
Proof. unfold setEmbedding. repeat case_match; reflexivity. Qed.

Lemma set_if_given_items (i : jsstring) (e : option BufferView) (s : Store) :
  memory_items (set_if_given i e s).1 = memory_items s.
Proof. destruct e; simpl; [apply setEmbedding_items|reflexivity]. Qed.

(** The three [add] methods: the row is appended, or nothing changes. *)
Lemma insert_then_embed_items {A : Type} (row : MemoryRow) (i : jsstring)
    (e : option BufferView) (a : A) (s : Store) :
  let s' := ((insert_item row ;; set_if_given i e ;; db_ret a) s).1 in
  memory_items s' = memory_items s \/ memory_items s' = memory_items s ++ [row].
Proof.
  unfold db_bind, insert_item, db_ret.
  destruct (has_item s (row_id row)); simpl; [by left|right].
  pose proof (set_if_given_items i e (with_items s (memory_items s ++ [row]))) as H.
  destruct (set_if_given i e _) as [s1 [[]|err]]; exact H.
Qed.

Lemma update_then_embed_items (w : MemoryRow -> bool) (f : MemoryRow -> MemoryRow)
    (i : jsstring) (e : option BufferView) (s : Store) :
  let s' :=
    ((do changes <- update_items w f;
      (if (0 <? changes)%nat then set_if_given i e else db_ret tt) ;;
      db_ret (0 <? changes)%nat) s).1 in
  memory_items s' = (fun r => if w r then f r else r) <$> memory_items s.
Proof.
  unfold db_bind, update_items, db_ret. simpl.
  destruct (0 <? _)%nat; simpl; [|reflexivity].
  pose proof (set_if_given_items i e
    (with_items s ((fun r => if w r then f r else r) <$> memory_items s))) as H.
  destruct (set_if_given i e _) as [s1 [[]|err]]; exact H.
Qed.

Lemma recordFrictionEvent_items (nanoid : jsstring) (now : Z) (mid : jsstring)
    (ty : FrictionEventType) (delta : R) (ctx : option jsstring) (s : Store) :
  let s' := (recordFrictionEvent nanoid now mid ty delta ctx s).1 in
  memory_items s' = memory_items s
  \/ memory_items s'
     = (fun r => if bool_decide (row_id r = mid)
                 then set_score r (Rmax (-10) (Rmin 10 (friction_score r + delta))) now
                 else r) <$> memory_items s.
Proof.
  unfold_db. repeat case_match; simplify_eq/=; auto.
Qed.

Lemma recordFrictionEvent_ok (nanoid : jsstring) (now : Z) (mid : jsstring)
    (ty : FrictionEventType) (delta : R) (ctx : option jsstring) (s s' : Store)
    (a : jsstring) :
  recordFrictionEvent nanoid now mid ty delta ctx s = (s', Ok a) ->
  memory_items s'
  = (fun r => if bool_decide (row_id r = mid)
              then set_score r (Rmax (-10) (Rmin 10 (friction_score r + delta))) now
              else r) <$> memory_items s.
Proof.
  unfold_db. repeat case_match; simplify_eq/=; auto; intros; simplify_eq/=; auto.
Qed.

(** ** The friction score stays within [[-10, 10]] *)

Lemma clamp_Rmax_Rmin (x : R) : Rmax (-10) (Rmin 10 x) = Spec.clamp x (-10) 10.
Proof.
  unfold Spec.clamp, Rmax, Rmin.
  repeat (destruct (Rle_dec _ _)); repeat (destruct (decide _)); lra.
Qed.

Lemma clamp_in_range (x : R) : Spec.in_range (Rmax (-10) (Rmin 10 x)).
Proof.
  rewrite clamp_Rmax_Rmin. unfold Spec.clamp, Spec.in_range.
  repeat (destruct (decide _)); lra.
Qed.

Lemma decay_factor_range (h : R) :
  (0 < h)%R -> (0 < Rpower (1 / 2) (1 / h) < 1)%R.
Proof.
  intros Hh. unfold Rpower. split; [apply exp_pos|].
  assert (ln (1 / 2) < 0)%R as Hln.
  { rewrite <- ln_1. apply ln_increasing; lra. }
  assert (0 < 1 / h)%R as Hinv by (apply Rdiv_lt_0_compat; lra).
  pose proof (Rmult_lt_0_compat (1 / h) (- ln (1 / 2)) ltac:(lra) ltac:(lra)) as Hneg.
  assert (exp (1 / h * ln (1 / 2)) < exp 0)%R as Hexp by (apply exp_increasing; lra).
  rewrite exp_0 in Hexp. exact Hexp.
Qed.

Lemma decay_in_range (x f : R) :
  (0 < f < 1)%R -> Spec.in_range x -> Spec.in_range (x * f).
Proof. unfold Spec.in_range. intros Hf Hx. nra. Qed.

Lemma Forall_update (P : MemoryRow -> Prop) (w : MemoryRow -> bool)
    (f : MemoryRow -> MemoryRow) (l : list MemoryRow) :
  (forall r, P r -> w r = true -> P (f r)) ->
  Forall P l -> Forall P ((fun r => if w r then f r else r) <$> l).
Proof.
  intros Hf Hl. apply Forall_fmap. eapply Forall_impl; [exact Hl|].
  intros r Hr. simpl. destruct (w r) eqn:E; auto.
Qed.

(** Split on whether an [add] method inserted its row. *)
Ltac add_cases s :=
  match goal with
  | |- context [db_bind (insert_item ?row)
                  (fun _ => db_bind (set_if_given ?i ?e) (fun _ => db_ret ?a)) s] =>
      destruct (insert_then_embed_items row i e a s) as [-> | ->]
  end.

Lemma exec_scores_in_range (c : Call) (s : Store) :
  positive_half_life c -> Spec.scores_in_range s -> Spec.scores_in_range (exec c s).
Proof.
  unfold Spec.scores_in_range. intros Hc Hs.
  assert (Spec.in_range 0) as H0 by (unfold Spec.in_range; lra).
  destruct c; simpl.
  - unfold addConstraint. add_cases s; [exact Hs|].
    apply Forall_app. split; [exact Hs|]. apply Forall_singleton. exact H0.
  - unfold addDecision. add_cases s; [exact Hs|].
    apply Forall_app. split; [exact Hs|]. apply Forall_singleton. exact H0.
  - unfold addHeuristic. add_cases s; [exact Hs|].
    apply Forall_app. split; [exact Hs|]. apply Forall_singleton. exact H0.
  - apply Forall_update; [|exact Hs]. by intros r Hr _.
  - unfold hardDelete. simpl.
    assert (Forall (fun r => Spec.in_range (friction_score r))
              (List.filter (fun r => negb (bool_decide (row_id r = i))) (memory_items s))) as Hf.
    { apply Forall_forall. intros r Hr. apply elem_of_List_filter in Hr as [Hr _].
      revert r Hr. by apply Forall_forall. }
    by destruct (foreign_keys s && _).
  - unfold updateContent. rewrite update_then_embed_items.
    apply Forall_update; [|exact Hs]. by intros r Hr _.
  - by rewrite setEmbedding_items.
  - destruct (recordFrictionEvent_items nanoid now memoryId eventType delta ctx s)
      as [-> | ->]; [exact Hs|].
    apply Forall_update; [|exact Hs]. intros r _ _. simpl. apply clamp_in_range.
  - apply Forall_update; [|exact Hs]. intros r Hr _. simpl.
    apply decay_in_range; [|exact Hr]. by apply decay_factor_range.
Qed.

Lemma frictionScore_rowToMemory (row : MemoryRow) :
  frictionScore (base_of (rowToMemory row)) = friction_score row.
Proof. unfold rowToMemory. by destruct (row_type row). Qed.

Lemma getById_row (s : Store) (i : jsstring) (m : MemoryItem) :
  getById s i = Some m ->
  exists row, row ∈ memory_items s /\ row_id row = i /\ row_active row = 1%Z
              /\ m = rowToMemory row.
Proof.
  unfold getById. intros H.
  destruct (List.filter _ _) as [|row l] eqn:E; simplify_eq/=.
  assert (row ∈ List.filter (fun r => bool_decide (row_id r = i) && is_active r)
                  (memory_items s)) as Hin by (rewrite E; apply list_elem_of_here).
  apply elem_of_List_filter in Hin as [Hin Hw].
  apply andb_true_iff in Hw as [Hid Ha].
  apply bool_decide_eq_true in Hid. apply Z.eqb_eq in Ha. eauto.
Qed.

(** C5. In every store reached from a new database by record creations,
    [recordFrictionEvent] calls with arbitrary real deltas, decay with a
    positive half-life and the other writing calls, the friction score of
    every memory record lies within [[-10, 10]]: in the table, and in the
    records that [getById] returns. *)
Theorem friction_score_in_range (s : Store) :
  reachable s ->
  Forall (fun r => (-10 <= friction_score r <= 10)%R) (memory_items s)
  /\ (forall i m, getById s i = Some m ->
        (-10 <= frictionScore (base_of m) <= 10)%R).
Proof.
  intros Hreach.
  assert (Spec.scores_in_range s) as Hs.
  { induction Hreach as [fk|s c _ IH Hc]; [constructor|].
    by apply (exec_scores_in_range c s). }
  split; [exact Hs|].
  intros i m Hm. apply getById_row in Hm as (row & Hin & _ & _ & ->).
  rewrite frictionScore_rowToMemory.
  exact (proj1 (Forall_forall _ _) Hs row Hin).
Qed.

Lemma friction_score_in_range_witness :
  Forall (fun r => (-10 <= friction_score r <= 10)%R)
    (memory_items
       (exec (CallApplyFrictionDecay 3 (Some 30%R))
          (exec (CallRecordFrictionEvent (lit "e1") 1 (lit "m1") EAcceptance 25 None)
             one_memory))).
Proof.
  apply friction_score_in_range.
  repeat (apply reachable_call || apply reachable_new || exact I).
  simpl. lra.
Defined.

(* ----------------------------------------------------------------- *)
(** ** The friction score after a sequence of events *)

Lemma head_filter_fmap {A : Type} (p : A -> bool) (f : A -> A) (l : list A) :
  (forall x, p (f x) = p x) ->
  head (List.filter p (f <$> l)) = f <$> head (List.filter p l).
Proof.
  intros Hp. induction l as [|x l IH]; simpl; [reflexivity|].
  rewrite Hp. destruct (p x); simpl; [reflexivity|exact IH].
Qed.

Lemma find_row_id (s : Store) (i : jsstring) (r : MemoryRow) :
  find_row s i = Some r -> row_id r = i /\ r ∈ memory_items s.
Proof.
  unfold find_row. intros H.
  assert (r ∈ List.filter (fun r => bool_decide (row_id r = i)) (memory_items s)) as Hin.
  { destruct (List.filter _ _) as [|x l]; simplify_eq/=. apply list_elem_of_here. }
  apply elem_of_List_filter in Hin as [Hin Hid].
  by apply bool_decide_eq_true in Hid.
Qed.

Lemma has_item_find_row (s : Store) (i : jsstring) :
  has_item s i = bool_decide (is_Some (find_row s i)).
Proof.
  unfold has_item, find_row. apply bool_decide_ext.
  rewrite Exists_exists. split.
  - intros (r & Hin & Hid).
    assert (r ∈ List.filter (fun r => bool_decide (row_id r = i)) (memory_items s)) as Hf.
    { apply elem_of_List_filter. split; [exact Hin|]. by apply bool_decide_eq_true. }
    destruct (List.filter _ _); [by apply elem_of_nil in Hf|]. by eexists.
  - intros [r Hr]. exists r. destruct (find_row_id s i r Hr). auto.
Qed.

Lemma find_row_after_event (nanoid : jsstring) (now : Z) (mid : jsstring)
    (ty : FrictionEventType) (delta : R) (ctx : option jsstring) (s s' : Store)
    (a : jsstring) (r : MemoryRow) :
  recordFrictionEvent nanoid now mid ty delta ctx s = (s', Ok a) ->
  find_row s mid = Some r ->
  find_row s' mid
  = Some (set_score r (Rmax (-10) (Rmin 10 (friction_score r + delta))) now).
Proof.
  intros Hrun Hr. unfold find_row.
  rewrite (recordFrictionEvent_ok _ _ _ _ _ _ _ _ _ Hrun).
  rewrite head_filter_fmap.
  - fold (find_row s mid). rewrite Hr. simpl.
    destruct (find_row_id s mid r Hr) as [Hid _].
    by rewrite bool_decide_eq_true_2.
  - intros x. destruct (bool_decide (row_id x = mid)) eqn:E; simpl; by rewrite ?E.
Qed.

Lemma recordAll_score (i : jsstring) (calls : list FrictionCall) (s s' : Store)
    (r : MemoryRow) :
  recordAll i calls s = (s', Ok tt) ->
  find_row s i = Some r ->
  exists r', find_row s' i = Some r'
    /\ friction_score r'
       = foldl (fun score delta => Rmax (-10) (Rmin 10 (score + delta)))
           (friction_score r) (fc_delta <$> calls).
Proof.
  revert s r. induction calls as [|c calls IH]; intros s r Hrun Hr.
  - injection Hrun as <-. by exists r.
  - simpl in Hrun. unfold db_bind in Hrun at 1.
    destruct (recordFrictionEvent _ _ _ _ _ _ s) as [s1 [a|e]] eqn:E; [|discriminate].
    pose proof (find_row_after_event _ _ _ _ _ _ _ _ _ _ E Hr) as Hr1.
    destruct (IH s1 _ Hrun Hr1) as (r' & Hr' & Hscore).
    exists r'. split; [exact Hr'|]. exact Hscore.
Qed.

Lemma sum_app (l1 l2 : list R) : Spec.sum (l1 ++ l2) = (Spec.sum l1 + Spec.sum l2)%R.
Proof. induction l1 as [|x l1 IH]; simpl; [lra|]. rewrite IH. lra. Qed.

Lemma sum_snoc (l : list R) (d : R) : Spec.sum (l ++ [d]) = (Spec.sum l + d)%R.
Proof. rewrite sum_app. simpl. lra. Qed.

Lemma clamp_id (x : R) : Spec.in_range x -> Spec.clamp x (-10) 10 = x.
Proof. unfold Spec.in_range, Spec.clamp. intros Hx. repeat (destruct (decide _)); lra. Qed.

(** While the partial sums stay within the range, no clamping happens. *)
Lemma iterated_clamp_unclamped (deltas : list R) :
  (forall k, (k <= length deltas)%nat -> Spec.in_range (Spec.sum (take k deltas))) ->
  foldl (fun score delta => Rmax (-10) (Rmin 10 (score + delta))) 0%R deltas
  = Spec.sum deltas.
Proof.
  induction deltas as [|d deltas IH] using rev_ind; intros Hk; [reflexivity|].
  rewrite foldl_app. simpl. rewrite IH.
  - rewrite clamp_Rmax_Rmin, sum_snoc. apply clamp_id.
    specialize (Hk (length (deltas ++ [d])) ltac:(lia)).
    rewrite take_ge, sum_snoc in Hk by lia. exact Hk.
  - intros k Hle. specialize (Hk k ltac:(rewrite length_app; simpl; lia)).
    by rewrite take_app_le in Hk.
Qed.

Lemma iterated_clamp_sum (deltas : list R) :
  (forall k, (k < length deltas)%nat -> Spec.in_range (Spec.sum (take k deltas))) ->
  foldl (fun score delta => Rmax (-10) (Rmin 10 (score + delta))) 0%R deltas
  = Spec.clamp (Spec.sum deltas) (-10) 10.
Proof.
  destruct deltas as [|d deltas _] using rev_ind; intros Hk.
  - simpl. symmetry. apply clamp_id. unfold Spec.in_range. lra.
  - rewrite foldl_app. simpl. rewrite iterated_clamp_unclamped.
    + by rewrite clamp_Rmax_Rmin, sum_snoc.
    + intros k Hle. specialize (Hk k ltac:(rewrite length_app; simpl; lia)).
      by rewrite take_app_le in Hk.
Qed.

Lemma iterated_clamp_in_range (x : R) (deltas : list R) :
  Spec.in_range x ->
  Spec.in_range (foldl (fun score delta => Rmax (-10) (Rmin 10 (score + delta))) x deltas).
Proof.
  revert x. induction deltas as [|d deltas IH]; intros x Hx; simpl; [exact Hx|].
  apply IH, clamp_in_range.
Qed.

(** A call returns when its event id is new and, with foreign keys
    enforced, the memory exists. *)
Lemma has_item_update (w : MemoryRow -> bool) (f : MemoryRow -> MemoryRow) (s : Store)
    (j : jsstring) :
  (forall r, row_id (f r) = row_id r) ->
  has_item (with_items s ((fun r => if w r then f r else r) <$> memory_items s)) j
  = has_item s j.
Proof.
  intros Hf. unfold has_item. simpl. apply bool_decide_ext.
  rewrite Exists_fmap. apply Exists_proper; [|reflexivity].
  intros r. simpl. destruct (w r); by rewrite ?Hf.
Qed.

Lemma recordFrictionEvent_returns (nanoid : jsstring) (now : Z) (mid : jsstring)
    (ty : FrictionEventType) (delta : R) (ctx : option jsstring) (s : Store) :
  ~ Exists (fun e => fe_id e = nanoid) (friction_events s) ->
  foreign_keys s = false \/ has_item s mid = true ->
  exists s', recordFrictionEvent nanoid now mid ty delta ctx s = (s', Ok nanoid)
    /\ friction_events s'
       = friction_events s
         ++ [{| fe_id := nanoid; fe_memory_id := mid; fe_event_type := ty;
                fe_delta := delta; fe_context := toWellFormed <$> ctx;
                fe_created_at := now |}]
    /\ foreign_keys s' = foreign_keys s
    /\ has_item s' mid = has_item s mid.
Proof.
  intros Hfresh Hfk. unfold_db.
  simpl. rewrite bool_decide_eq_false_2 by exact Hfresh.
  assert (foreign_keys s && negb (has_item s mid) = false) as ->.
  { destruct Hfk as [-> | ->]; [reflexivity|]. by rewrite andb_false_r. }
  simpl. eexists. split; [reflexivity|]. simpl. split; [reflexivity|].
  split; [reflexivity|].
  apply (has_item_update _ _ (with_events s _)). reflexivity.
Qed.

Lemma recordAll_returns (mid : jsstring) (calls : list FrictionCall) (s : Store) :
  NoDup (fc_nanoid <$> calls) ->
  Forall (fun c => ~ Exists (fun e => fe_id e = fc_nanoid c) (friction_events s)) calls ->
  foreign_keys s = false \/ has_item s mid = true ->
  exists s', recordAll mid calls s = (s', Ok tt).
Proof.
  revert s. induction calls as [|c calls IH]; intros s Hnodup Hfresh Hfk; simpl.
  - by eexists.
  - rewrite fmap_cons in Hnodup. apply NoDup_cons in Hnodup as [Hc Hnodup].
    apply Forall_cons in Hfresh as [Hfc Hfresh].
    destruct (recordFrictionEvent_returns (fc_nanoid c) (fc_now c) mid (fc_eventType c)
                (fc_delta c) (fc_context c) s Hfc Hfk) as (s1 & Hrun & Hev & Hk & Hi).
    unfold db_bind at 1. rewrite Hrun. apply IH; [exact Hnodup| |].
    + rewrite Hev. apply Forall_forall. intros c' Hc' Hex.
      apply Exists_app in Hex as [Hex|Hex].
      * exact (proj1 (Forall_forall _ _) Hfresh c' Hc' Hex).
      * apply Exists_cons in Hex as [Hex|Hex]; [|by apply Exists_nil in Hex].
        simpl in Hex. apply Hc. rewrite Hex. apply list_elem_of_fmap. eauto.
    + rewrite Hk, Hi. exact Hfk.
Qed.

Lemma find_row_has_item (s : Store) (i : jsstring) (r : MemoryRow) :
  find_row s i = Some r -> has_item s i = true.
Proof.
  intros Hr. rewrite has_item_find_row. apply bool_decide_eq_true. by eexists.
Qed.

(** C1 (amended). A sequence of [recordFrictionEvent] calls with new event
    ids on a record whose score was [0] returns, and leaves as the score
    the result of clamping after every event,
    [s := clamp(s + delta, -10, 10)]; the score lies within [[-10, 10]],
    and it equals [clamp(sum of the deltas, -10, 10)] when no partial sum
    before the last one leaves [[-10, 10]]. *)
Theorem friction_score_after_events (s : Store) (i : jsstring)
    (calls : list FrictionCall) (r : MemoryRow) :
  find_row s i = Some r ->
  friction_score r = 0%R ->
  NoDup (fc_nanoid <$> calls) ->
  Forall (fun c => ~ Exists (fun e => fe_id e = fc_nanoid c) (friction_events s)) calls ->
  exists s' r',
    recordAll i calls s = (s', Ok tt)
    /\ find_row s' i = Some r'
    /\ friction_score r'
       = foldl (fun score delta => Rmax (-10) (Rmin 10 (score + delta))) 0%R
           (fc_delta <$> calls)
    /\ (-10 <= friction_score r' <= 10)%R
    /\ ((forall k, (k < length calls)%nat ->
           (-10 <= Spec.sum (take k (fc_delta <$> calls)) <= 10)%R) ->
        friction_score r' = Spec.clamp (Spec.sum (fc_delta <$> calls)) (-10) 10).
Proof.
  intros Hr H0 Hnodup Hfresh.
  destruct (recordAll_returns i calls s Hnodup Hfresh
              (or_intror (find_row_has_item s i r Hr))) as [s' Hrun].
  destruct (recordAll_score i calls s s' r Hrun Hr) as (r' & Hr' & Hscore).
  rewrite H0 in Hscore. exists s', r'.
  split; [exact Hrun|]. split; [exact Hr'|]. split; [exact Hscore|]. split.
  - rewrite Hscore. apply iterated_clamp_in_range. unfold Spec.in_range. lra.
  - intros Hk. rewrite Hscore. apply iterated_clamp_sum.
    intros k Hlt. rewrite length_fmap in Hlt. by apply Hk.
Qed.

Lemma friction_score_after_events_witness :
  exists s' r',
    recordAll (lit "m1") down_then_up one_memory = (s', Ok tt)
    /\ find_row s' (lit "m1") = Some r'
    /\ friction_score r'
       = foldl (fun score delta => Rmax (-10) (Rmin 10 (score + delta))) 0%R
           (fc_delta <$> down_then_up)
    /\ (-10 <= friction_score r' <= 10)%R
    /\ friction_score r' = Spec.clamp (Spec.sum (fc_delta <$> down_then_up)) (-10) 10.
Proof.
  destruct (friction_score_after_events one_memory (lit "m1") down_then_up
              (new_row (lit "m1") TConstraint (cc_content tabs_rule) None SUser
                 {| md_scope := None; md_severity := Some SevWarning;
                    md_alternatives := None; md_rationale := None;
                    md_relatedFiles := None; md_applicableWhen := None;
                    md_strength := None |} 0)
              eq_refl eq_refl ltac:(compute_done) ltac:(compute_done))
    as (s' & r' & Hrun & Hr' & Hscore & Hrange & Hsum).
  exists s', r'. repeat split; try assumption; try apply Hrange.
  apply Hsum. intros [|[|k]] Hk; simpl in *; try lia; lra.
Defined.

(** C1 as stated fails: after the deltas [15] and [-10] the score of [m1]
    is [0], whereas the clamp of their sum is [5]. *)
Lemma friction_score_not_clamp_of_sum :
  exists s' r',
    recordAll (lit "m1") up_then_down one_memory = (s', Ok tt)
    /\ find_row s' (lit "m1") = Some r'
    /\ friction_score r' = 0%R
    /\ Spec.clamp (Spec.sum (fc_delta <$> up_then_down)) (-10) 10 = 5%R
    /\ friction_score r' <> Spec.clamp (Spec.sum (fc_delta <$> up_then_down)) (-10) 10.
Proof.
  assert (Spec.clamp (Spec.sum (fc_delta <$> up_then_down)) (-10) 10 = 5%R) as Hclamp.
  { simpl. unfold Spec.clamp. repeat (destruct (decide _)); lra. }
  destruct (recordAll_score (lit "m1") up_then_down one_memory
              (recordAll (lit "m1") up_then_down one_memory).1
              (new_row (lit "m1") TConstraint (cc_content tabs_rule) None SUser
                 {| md_scope := None; md_severity := Some SevWarning;
                    md_alternatives := None; md_rationale := None;
                    md_relatedFiles := None; md_applicableWhen := None;
                    md_strength := None |} 0)
              eq_refl eq_refl) as (r' & Hr' & Hscore).
  assert (friction_score r' = 0%R) as H0.
  { rewrite Hscore. simpl. rewrite !clamp_Rmax_Rmin. unfold Spec.clamp.
    repeat (destruct (decide _)); lra. }
  exists (recordAll (lit "m1") up_then_down one_memory).1, r'.
  split; [reflexivity|]. split; [exact Hr'|]. split; [exact H0|].
  split; [exact Hclamp|]. rewrite H0, Hclamp. lra.
Qed.

(* ----------------------------------------------------------------- *)
(** ** Soft delete *)

Lemma update_length_changes (w : MemoryRow -> bool) (l : list MemoryRow) :
  (0 <? length (List.filter w l))%nat = bool_decide (Exists (fun r => w r = true) l).
Proof.
  induction l as [|x l IH]; simpl.
  - reflexivity.
  - destruct (w x) eqn:E; simpl.
    + rewrite bool_decide_eq_true_2; [reflexivity|]. by left.
    + rewrite IH. apply bool_decide_ext. rewrite Exists_cons. split; [tauto|].
      intros [H|H]; [congruence|exact H].
Qed.

Lemma fmap_unchanged {A : Type} (w : A -> bool) (f : A -> A) (l : list A) :
  List.filter w l = [] -> (fun r => if w r then f r else r) <$> l = l.
Proof.
  induction l as [|x l IH]; [reflexivity|].
  rewrite fmap_cons. cbn [List.filter].
  destruct (w x); [discriminate|]. intros H. by rewrite IH.
Qed.

(** C6. The soft delete sets the [active] column of the record to 0 and
    [updated_at] to now, and keeps the row: [getById] no longer returns it.
    It returns [false] exactly when no record has the given id, and the
    store is then unchanged; other records keep their rows.  But the UPDATE
    matches on the id alone, unlike the one of [updateContent]: on [m1],
    which is already inactive, a second soft delete returns [true] and
    moves [updated_at], where the specification asks for [false] and a
    no-op. *)
Theorem delete_result :
  (forall (now : Z) (i : jsstring) (s : Store),
     exists s', delete now i s = (s', Ok (bool_decide (is_Some (find_row s i))))
       /\ (forall r, find_row s i = Some r ->
             find_row s' i
             = Some {| row_id := row_id r; row_type := row_type r;
                       row_content := row_content r; row_context := row_context r;
                       row_source := row_source r; friction_score := friction_score r;
                       created_at := created_at r; updated_at := now;
                       row_active := 0%Z; row_metadata := row_metadata r |})
       /\ length (memory_items s') = length (memory_items s)
       /\ getById s' i = None
       /\ (find_row s i = None -> s' = s)
       /\ (forall j, j <> i -> find_row s' j = find_row s j))
  /\ getById one_deleted (lit "m1") = None
  /\ (exists r, find_row one_deleted (lit "m1") = Some r
                /\ row_active r = 0%Z /\ updated_at r = 1%Z)
  /\ (delete 2 (lit "m1") one_deleted).2 = Ok true
  /\ (exists r, find_row (delete 2 (lit "m1") one_deleted).1 (lit "m1") = Some r
                /\ row_active r = 0%Z /\ updated_at r = 2%Z).
Proof.
  split; [|split; [|split; [|split]]].
  2: reflexivity.
  2: { eexists. split; [reflexivity|]. split; reflexivity. }
  2: reflexivity.
  2: { eexists. split; [reflexivity|]. split; reflexivity. }
  intros now i s.
  unfold delete, db_bind, update_items, db_ret. simpl. eexists. split.
  - do 2 f_equal. rewrite <- has_item_find_row. unfold has_item.
    rewrite update_length_changes. apply bool_decide_ext.
    rewrite !Exists_exists.
    split; intros (r & Hin & H); exists r; split; try exact Hin.
    + by apply bool_decide_eq_true in H.
    + by apply bool_decide_eq_true.
  - split; [|split; [|split; [|split]]].
    + intros r Hr. pose proof (find_row_id s i r Hr) as [Hid _].
      unfold find_row in *. simpl. rewrite head_filter_fmap.
      * rewrite Hr. simpl.
        destruct (bool_decide (row_id r = i)) eqn:E; [reflexivity|].
        apply bool_decide_eq_false in E. contradiction.
      * intros x. destruct (bool_decide (row_id x = i)) eqn:E; simpl; by rewrite E.
    + simpl. by rewrite length_fmap.
    + unfold getById. simpl.
      match goal with |- _ <$> head ?l = None => assert (l = []) as -> end;
        [|reflexivity].
      induction (memory_items s) as [|r l IH]; simpl; [reflexivity|].
      destruct (bool_decide (row_id r = i)) eqn:E; simpl; [by rewrite E|].
      by rewrite E.
    + intros Hnone. rewrite fmap_unchanged; [apply with_items_same|].
      unfold find_row in Hnone. by destruct (List.filter _ _).
    + intros j Hj. unfold find_row. simpl.
      induction (memory_items s) as [|r l IH]; simpl; [reflexivity|].
      destruct (bool_decide (row_id r = i)) eqn:E; simpl.
      * apply bool_decide_eq_true in E.
        rewrite !bool_decide_eq_false_2 by congruence. exact IH.
      * destruct (bool_decide (row_id r = j)); simpl; [reflexivity|exact IH].
Qed.

Lemma delete_result_witness :
  exists s' r, delete 1 (lit "m1") one_memory = (s', Ok true)
    /\ find_row s' (lit "m1") = Some r /\ row_active r = 0%Z
    /\ getById s' (lit "m1") = None.
Proof.
  destruct delete_result as [Hgeneral _].
  destruct (Hgeneral 1%Z (lit "m1") one_memory) as (s' & Hrun & Hrow & _ & Hget & _).
  destruct (find_row one_memory (lit "m1")) as [r|] eqn:Hr; [|discriminate Hr].
  exists s'. eexists. split; [exact Hrun|]. split; [exact (Hrow r eq_refl)|].
  split; [reflexivity|exact Hget].
Defined.

(* ----------------------------------------------------------------- *)
(** ** Embeddings have the dimension of the store *)

Lemma owned_blob (v : list R) :
  length v = EMBEDDING_DIM ->
  byteLength (to_blob (owned v)) = (EMBEDDING_DIM * 4)%nat
  /\ blob_view (to_blob (owned v)) = v.
Proof.
  intros Hv. unfold byteLength, blob_view, to_blob, owned.
  cbn [floats spare_end before entries after spare spare_bytes app].
  rewrite app_nil_r. unfold EMBEDDING_DIM in *. split; [lia|]. apply take_ge. lia.
Qed.

(** C7. [setEmbedding] throws the dimension-mismatch error for every array
    whose length is not 384 and leaves the store as it was.  An array of
    384 entries is accepted (the id has to name a stored record when the
    connection enforces foreign keys), and what is stored is the buffer
    behind the array.  For an array that covers its buffer that is the
    vector itself, which [getEmbedding] reads back.  For an array of 384
    entries that is a window on a larger buffer the write goes wrong: the
    call succeeds, but the blob holds the 768 floats of the buffer, so that
    [getEmbedding] returns null; and for a window that does not start at the
    front, the vector that [vectorSearch] reads from the blob is not the one
    that was given. *)
Theorem setEmbedding_dimension :
  EMBEDDING_DIM = 384%nat
  /\ (forall (i : jsstring) (a : BufferView) (s : Store),
        length (entries a) <> EMBEDDING_DIM ->
        setEmbedding i a s
        = (s, Err (DimensionMismatch EMBEDDING_DIM (length (entries a)))))
  /\ (forall (i : jsstring) (a : BufferView) (s : Store),
        length (entries a) = EMBEDDING_DIM ->
        foreign_keys s = false \/ has_item s i = true ->
        exists s', setEmbedding i a s = (s', Ok tt)
          /\ memory_embeddings s' = <[i := to_blob a]> (memory_embeddings s)
          /\ memory_items s' = memory_items s
          /\ (a = owned (entries a) -> getEmbedding s' i = Some (entries a)))
  /\ (exists s' b, setEmbedding (lit "m1") ones_in_front one_memory = (s', Ok tt)
        /\ memory_embeddings s' !! lit "m1" = Some b
        /\ length (entries ones_in_front) = 384%nat
        /\ length (floats b) = 768%nat
        /\ getEmbedding s' (lit "m1") = None)
  /\ (exists s' b, setEmbedding (lit "m1") ones_behind one_memory = (s', Ok tt)
        /\ memory_embeddings s' !! lit "m1" = Some b
        /\ entries ones_behind = repeat 1%R 384
        /\ blob_view b = repeat 0%R 384).
Proof.
  split; [reflexivity|]. split; [|split; [|split]].
  - intros i a s Hne. unfold setEmbedding. apply Nat.eqb_neq in Hne. by rewrite Hne.
  - intros i a s Heq Hfk. unfold setEmbedding.
    pose proof Heq as Heqb. apply Nat.eqb_eq in Heqb. rewrite Heqb. simpl.
    assert (foreign_keys s && negb (has_item s i) = false) as ->.
    { destruct Hfk as [-> | ->]; [reflexivity|]. by rewrite andb_false_r. }
    eexists. split; [reflexivity|]. simpl. split; [reflexivity|].
    split; [reflexivity|]. intros Hown.
    unfold getEmbedding. simpl. rewrite lookup_insert_eq, Hown.
    destruct (owned_blob (entries a) Heq) as [-> ->].
    by rewrite Nat.eqb_refl.
  - eexists _, _. split; [reflexivity|]. simpl. split; [apply lookup_insert_eq|].
    split; [reflexivity|]. split; [reflexivity|].
    unfold getEmbedding. simpl. rewrite lookup_insert_eq. reflexivity.
  - eexists _, _. split; [reflexivity|]. simpl. split; [apply lookup_insert_eq|].
    split; reflexivity.
Qed.

Lemma setEmbedding_dimension_witness :
  setEmbedding (lit "m1") (owned (repeat 0%R 100)) one_memory
  = (one_memory, Err (DimensionMismatch 384 100))
  /\ exists s', setEmbedding (lit "m1") (owned (repeat 1%R 384)) one_memory = (s', Ok tt)
       /\ getEmbedding s' (lit "m1") = Some (repeat 1%R 384).
Proof.
  destruct setEmbedding_dimension as (_ & Hbad & Hgood & _).
  split.
  - apply (Hbad (lit "m1") (owned (repeat 0%R 100)) one_memory).
    unfold EMBEDDING_DIM. simpl. rewrite ?repeat_length. lia.
  - destruct (Hgood (lit "m1") (owned (repeat 1%R 384)) one_memory
                (repeat_length 1%R 384) (or_intror eq_refl))
      as (s' & Hrun & _ & _ & Hget).
    exists s'. split; [exact Hrun|]. by apply Hget.
Defined.


(* ----------------------------------------------------------------- *)
(** ** Retrieval *)

Lemma vectorSearch_length (s : Store) (q : list R) (o : VectorSearchOptions) :
  (0 <= vs_limit o)%Z -> (Z.of_nat (length (vectorSearch s q o)) <= vs_limit o)%Z.
Proof. intros Hl. unfold vectorSearch. by apply slice0_length. Qed.

Lemma jge_Num (x : jsnum) (m : R) :
  jge x (Num m) = true -> exists sim, x = Num sim /\ (m <= sim)%R.
Proof.
  destruct x as [a|]; simpl; [|discriminate].
  intros H. apply bool_decide_eq_true in H. eauto.
Qed.

Lemma Forall_sorted_slice {A : Type} (P : A -> Prop) (after : A -> A -> bool)
    (l : list A) (e : Z) :
  Forall P l -> Forall P (slice0 (JS.sort after l) e).
Proof.
  intros Hl. apply slice0_Forall. apply Forall_forall. intros x Hx.
  apply sort_elem_of in Hx. revert x Hx. by apply Forall_forall.
Qed.

Lemma score_ge_trans (x y z : jsnum) :
  Spec.score_ge x y -> Spec.score_ge y z -> Spec.score_ge x z.
Proof. destruct x, y, z; simpl; try tauto. lra. Qed.

(** The comparator [(a, b) => b.adjustedScore - a.adjustedScore] sorts
    results with a numeric score in descending order. *)
Lemma sort_by_adjustedScore_descending (l : list RetrievalResult) :
  Forall (fun r => exists x, adjustedScore r = Num x) l ->
  StronglySorted (fun a b => Spec.score_ge (adjustedScore a) (adjustedScore b))
    (JS.sort (fun a b => jgt0 (jsub (adjustedScore b) (adjustedScore a))) l).
Proof.
  apply sort_sorted.
  - intros x y z. apply score_ge_trans.
  - intros a b [x Hx] [y Hy]. rewrite Hx, Hy. simpl.
    intros H. apply bool_decide_eq_false in H. lra.
  - intros a b [x Hx] [y Hy]. rewrite Hx, Hy. simpl.
    intros H. apply bool_decide_eq_true in H. lra.
Qed.

(** C2. When the query is embedded, [retrieve] returns results that come
    from the candidates fetched from [vectorSearch] with the limit
    [limit * 3], all with a similarity of at least [minSimilarity] (default
    0.3); with the friction adjustment on, every [adjustedScore] is
    [similarity * (1 + 0.5 * tanh(frictionScore / 3))]; the list is in
    descending order of [adjustedScore]; and for a [limit] (default 10)
    that is not negative there are at most [limit * 3] candidates and at
    most [limit] results. *)
Theorem retrieve_properties (store : Store) (embedder : Embedder) (query : jsstring)
    (options : RetrievalOptions) (queryEmbedding : list R) :
  embed embedder query = Ok queryEmbedding ->
  exists results candidates,
    retrieve store embedder query options = Ok results
    /\ candidates
       = vectorSearch store queryEmbedding
           {| vs_limit := (default 10 (ro_limit options) * 3)%Z;
              vs_types := match ro_type options with
                          | Some (inr ts) => Some ts
                          | Some (inl t) => Some [t]
                          | None => None
                          end |}
    /\ Forall (fun r => exists c, c ∈ candidates /\ memory r = c_memory c
                                  /\ similarity r = c_similarity c) results
    /\ Forall (fun r => exists sim, similarity r = Num sim
                 /\ (default (3 / 10) (ro_minSimilarity options) <= sim)%R) results
    /\ (ro_includeFriction options <> Some false ->
        Forall (fun r => exists sim, similarity r = Num sim
                  /\ adjustedScore r
                     = Num (sim * (1 + 1 / 2
                                       * tanh (frictionScore (base_of (memory r)) / 3))))
               results)
    /\ Spec.descending (adjustedScore <$> results)
    /\ ((0 <= default 10 (ro_limit options))%Z ->
        (Z.of_nat (length candidates) <= default 10 (ro_limit options) * 3)%Z
        /\ (Z.of_nat (length results) <= default 10 (ro_limit options))%Z).
Proof.
  intros Hembed. unfold retrieve. rewrite Hembed.
  set (candidates := vectorSearch store queryEmbedding _).
  set (mk := fun c : Candidate => Build_RetrievalResult _ _ _).
  set (passing := List.filter _ candidates).
  eexists _, candidates. split; [reflexivity|]. split; [reflexivity|].
  assert (Forall (fun r => exists c, c ∈ candidates /\ memory r = c_memory c
                   /\ similarity r = c_similarity c
                   /\ jge (c_similarity c)
                        (Num (default (3 / 10)%R (ro_minSimilarity options))) = true
                   /\ adjustedScore r
                      = (if default true (ro_includeFriction options)
                         then applyFrictionModifier (c_similarity c)
                                (frictionScore (base_of (c_memory c)))
                         else c_similarity c))
            (mk <$> passing)) as Hall.
  { apply Forall_fmap, Forall_forall. intros c Hc.
    apply elem_of_List_filter in Hc as [Hc Hge]. exists c. by simpl. }
  split; [|split; [|split; [|split]]].
  - apply Forall_sorted_slice. eapply Forall_impl; [exact Hall|].
    intros r (c & Hc & Hm & Hs & _). eauto.
  - apply Forall_sorted_slice. eapply Forall_impl; [exact Hall|].
    intros r (c & _ & _ & Hs & Hge & _). rewrite Hs. by apply jge_Num.
  - intros Hfriction. apply Forall_sorted_slice. eapply Forall_impl; [exact Hall|].
    intros r (c & _ & Hm & Hs & Hge & Hadj).
    apply jge_Num in Hge as (sim & Hsim & _). exists sim.
    split; [by rewrite Hs|]. rewrite Hadj, Hm, Hsim.
    destruct (ro_includeFriction options) as [[|]|]; simpl; congruence.
  - unfold Spec.descending.
    apply (StronglySorted_fmap adjustedScore
             (fun a b => Spec.score_ge (adjustedScore a) (adjustedScore b))).
    { auto. }
    apply slice0_sorted, sort_by_adjustedScore_descending.
    eapply Forall_impl; [exact Hall|].
    intros r (c & _ & _ & _ & Hge & Hadj).
    apply jge_Num in Hge as (sim & Hsim & _). rewrite Hadj, Hsim.
    destruct (default true _); simpl; eauto.
  - intros Hlimit. split; [apply vectorSearch_length; simpl; lia|].
    by apply slice0_length.
Qed.

Lemma retrieve_properties_witness :
  exists results candidates,
    retrieve three_memories simple (lit "which database") default_retrieval = Ok results
    /\ candidates
       = vectorSearch three_memories (hashToEmbedding ascii_toLowerCase (lit "which database"))
           {| vs_limit := 30; vs_types := None |}
    /\ Forall (fun r => exists c, c ∈ candidates /\ memory r = c_memory c
                                  /\ similarity r = c_similarity c) results
    /\ Forall (fun r => exists sim, similarity r = Num sim /\ (3 / 10 <= sim)%R) results
    /\ Forall (fun r => exists sim, similarity r = Num sim
                 /\ adjustedScore r
                    = Num (sim * (1 + 1 / 2
                                      * tanh (frictionScore (base_of (memory r)) / 3))))
              results
    /\ Spec.descending (adjustedScore <$> results)
    /\ (Z.of_nat (length candidates) <= 30)%Z
    /\ (Z.of_nat (length results) <= 10)%Z.
Proof.
  destruct (retrieve_properties three_memories simple (lit "which database")
              default_retrieval
              (hashToEmbedding ascii_toLowerCase (lit "which database")) eq_refl)
    as (results & candidates & H1 & H2 & H3 & H4 & H5 & H6 & H7).
  exists results, candidates.
  repeat (split; [assumption|]). split; [by apply H5|]. split; [assumption|].
  apply H7. simpl. lia.
Defined.

(** ** Retrieval for a context *)

Lemma retrieve_Ok (store : Store) (embedder : Embedder) (query : jsstring)
    (options : RetrievalOptions) (v : list R) :
  embed embedder query = Ok v ->
  exists results, retrieve store embedder query options = Ok results.
Proof. intros H. unfold retrieve. rewrite H. eauto. Qed.

Lemma elem_of_getByType (s : Store) (t : MemoryType) (m : MemoryItem) :
  m ∈ getByType s t
  <-> exists row, row ∈ memory_items s /\ row_type row = t
                  /\ row_active row = 1%Z /\ m = rowToMemory row.
Proof.
  unfold getByType, newest_first. rewrite list_elem_of_fmap. split.
  - intros (row & -> & Hrow). apply sort_elem_of, elem_of_List_filter in Hrow.
    destruct Hrow as [Hin Hw]. apply andb_true_iff in Hw as [Ht Ha].
    apply bool_decide_eq_true in Ht. apply Z.eqb_eq in Ha. eauto.
  - intros (row & Hin & Ht & Ha & ->). exists row. split; [reflexivity|].
    apply sort_elem_of, elem_of_List_filter. split; [exact Hin|].
    apply andb_true_iff. split; [by apply bool_decide_eq_true|].
    by apply Z.eqb_eq.
Qed.

Lemma retrieveForContext_Ok (store : Store) (embedder : Embedder) (prompt : jsstring)
    (options : ContextOptions) (v : list R) :
  embed embedder prompt = Ok v ->
  exists ds hs,
    retrieveDecisions store embedder prompt (Some (default 5%Z (maxDecisions options)))
    = Ok ds
    /\ (if bool_decide (includeHeuristics options = Some true)
           || (negb (bool_decide (includeHeuristics options = Some false))
               && detectsAmbiguity prompt)
        then retrieveHeuristics store embedder prompt
               (Some (default 3%Z (maxHeuristics options)))
        else Ok []) = Ok hs
    /\ retrieveForContext store embedder prompt options
       = Ok {| constraints := MemoryStore.getAllConstraints store; decisions := ds;
               heuristics := hs; isAmbiguous := detectsAmbiguity prompt |}.
Proof.
  intros Hembed. unfold retrieveForContext.
  destruct (retrieve_Ok store embedder prompt
              {| ro_type := Some (inl TDecision);
                 ro_limit := Some (default 5%Z (Some (default 5%Z (maxDecisions options))));
                 ro_minSimilarity := Some (4 / 10)%R; ro_includeFriction := None |}
              v Hembed) as [ds Hds].
  destruct (retrieve_Ok store embedder prompt
              {| ro_type := Some (inl THeuristic);
                 ro_limit := Some (default 3%Z (Some (default 3%Z (maxHeuristics options))));
                 ro_minSimilarity := Some (35 / 100)%R; ro_includeFriction := None |}
              v Hembed) as [hs Hhs].
  unfold retrieveDecisions, retrieveHeuristics. rewrite Hds.
  destruct (_ || _); [rewrite Hhs|]; eauto.
Qed.

(** C3. When the prompt is embedded, [retrieveForContext] returns as its
    [constraints] exactly the active constraint records of the store: what
    [getByType('constraint')] lists, whatever the prompt, the embedder and
    the options. *)
Theorem retrieveForContext_constraints (store : Store) (embedder : Embedder)
    (prompt : jsstring) (options : ContextOptions) (v : list R) :
  embed embedder prompt = Ok v ->
  exists r, retrieveForContext store embedder prompt options = Ok r
    /\ constraints r = getByType store TConstraint
    /\ (forall m, m ∈ constraints r
          <-> exists row, row ∈ memory_items store /\ row_type row = TConstraint
                          /\ row_active row = 1%Z /\ m = rowToMemory row)
    /\ (forall embedder' prompt' options' r',
          retrieveForContext store embedder' prompt' options' = Ok r' ->
          constraints r' = constraints r).
Proof.
  intros Hembed.
  destruct (retrieveForContext_Ok store embedder prompt options v Hembed)
    as (ds & hs & _ & _ & Hrun).
  eexists. split; [exact Hrun|]. simpl. split; [reflexivity|]. split.
  - intros m. apply elem_of_getByType.
  - intros embedder' prompt' options' r'. unfold retrieveForContext.
    repeat case_match; intros; simplify_eq/=; reflexivity.
Qed.

Lemma retrieveForContext_constraints_witness :
  exists r, retrieveForContext three_memories simple (lit "Add a login endpoint")
              default_context = Ok r
    /\ constraints r = getByType three_memories TConstraint
    /\ (forall m, m ∈ constraints r
          <-> exists row, row ∈ memory_items three_memories
                          /\ row_type row = TConstraint
                          /\ row_active row = 1%Z /\ m = rowToMemory row)
    /\ (forall embedder' prompt' options' r',
          retrieveForContext three_memories embedder' prompt' options' = Ok r' ->
          constraints r' = constraints r).
Proof.
  exact (retrieveForContext_constraints three_memories simple
           (lit "Add a login endpoint") default_context
           (hashToEmbedding ascii_toLowerCase (lit "Add a login endpoint")) eq_refl).
Defined.

(** The two prompts of the ambiguity test. *)
Example detectsAmbiguity_question :
  detectsAmbiguity (lit "Should I use X or Y?") = true.
Proof. reflexivity. Qed.

Example detectsAmbiguity_task :
  detectsAmbiguity (lit "Add a login endpoint") = false.
Proof. reflexivity. Qed.

(** C4. [retrieveForContext] retrieves heuristics (with [minSimilarity]
    0.35 and at most [maxHeuristics] results) if and only if the
    [includeHeuristics] override is [true], or it is not [false] and
    [detectsAmbiguity(prompt)] holds; otherwise the list is empty. *)
Theorem retrieveForContext_heuristics (store : Store) (embedder : Embedder)
    (prompt : jsstring) (options : ContextOptions) (v : list R) :
  embed embedder prompt = Ok v ->
  exists r, retrieveForContext store embedder prompt options = Ok r
    /\ isAmbiguous r = detectsAmbiguity prompt
    /\ (includeHeuristics options = Some true
        \/ (includeHeuristics options <> Some false /\ detectsAmbiguity prompt = true) ->
        retrieve store embedder prompt
          {| ro_type := Some (inl THeuristic);
             ro_limit := Some (default 3%Z (maxHeuristics options));
             ro_minSimilarity := Some (35 / 100)%R;
             ro_includeFriction := None |}
        = Ok (heuristics r))
    /\ (~ (includeHeuristics options = Some true
           \/ (includeHeuristics options <> Some false
               /\ detectsAmbiguity prompt = true)) ->
        heuristics r = []).
Proof.
  intros Hembed.
  destruct (retrieveForContext_Ok store embedder prompt options v Hembed)
    as (ds & hs & _ & Hhs & Hrun).
  eexists. split; [exact Hrun|]. simpl. split; [reflexivity|].
  destruct (includeHeuristics options) as [[|]|]; simpl in Hhs.
  - split; [intros _; exact Hhs|]. intros Hn. exfalso. apply Hn. by left.
  - injection Hhs as <-. split; [|reflexivity].
    intros [H|[H _]]; [discriminate|]. by destruct H.
  - destruct (detectsAmbiguity prompt).
    + split; [intros _; exact Hhs|]. intros Hn. exfalso. apply Hn. right. by split.
    + injection Hhs as <-. split; [|reflexivity].
      intros [H|[_ H]]; discriminate.
Qed.

Lemma retrieveForContext_heuristics_witness :
  (exists r, retrieveForContext three_memories simple (lit "Should I use X or Y?")
               default_context = Ok r
     /\ retrieve three_memories simple (lit "Should I use X or Y?")
          {| ro_type := Some (inl THeuristic); ro_limit := Some 3%Z;
             ro_minSimilarity := Some (35 / 100)%R; ro_includeFriction := None |}
        = Ok (heuristics r))
  /\ (exists r, retrieveForContext three_memories simple (lit "Add a login endpoint")
                  default_context = Ok r
        /\ heuristics r = []).
Proof.
  split.
  - destruct (retrieveForContext_heuristics three_memories simple
                (lit "Should I use X or Y?") default_context
                (hashToEmbedding ascii_toLowerCase (lit "Should I use X or Y?")) eq_refl)
      as (r & Hrun & _ & Hyes & _).
    exists r. split; [exact Hrun|]. apply Hyes. right. split; [discriminate|reflexivity].
  - destruct (retrieveForContext_heuristics three_memories simple
                (lit "Add a login endpoint") default_context
                (hashToEmbedding ascii_toLowerCase (lit "Add a login endpoint")) eq_refl)
      as (r & Hrun & _ & _ & Hno).
    exists r. split; [exact Hrun|]. apply Hno.
    intros [H|[_ H]]; discriminate.
Defined.

(* ----------------------------------------------------------------- *)
(** ** Truncation of the conversation history *)

Lemma estimateTokens_nonneg (text : jsstring) : (0 <= estimateTokens text)%Z.
Proof. unfold estimateTokens. apply Z.div_pos; lia. Qed.

(** The invariant of the loop of [truncateHistory]: it takes messages from
    the front of [older] (the most recent ones) while they fit, and stops
    at the first that does not. *)
Lemma truncate_loop_spec (maxTokens : Z) (older result : list Message) (total : Z) :
  total = Spec.tokens result ->
  exists taken rest,
    older = taken ++ rest
    /\ truncate_loop maxTokens older result total = rev taken ++ result
    /\ (taken = [] \/ (Spec.tokens (rev taken ++ result) <= maxTokens)%Z)
    /\ (forall m, head rest = Some m ->
          (maxTokens < Spec.tokens (rev taken ++ result)
                       + estimateTokens (msg_content m))%Z).
Proof.
  revert result total. induction older as [|msg older IH]; intros result total Htotal.
  - exists [], []. repeat split; auto. intros m Hm. discriminate.
  - simpl. destruct (Z.leb_spec (total + estimateTokens (msg_content msg)) maxTokens)
      as [Hfit|Hover].
    + destruct (IH (msg :: result) (total + estimateTokens (msg_content msg))%Z)
        as (taken & rest & Holder & Hrun & Hfits & Hstop).
      { simpl. lia. }
      exists (msg :: taken), rest. simpl. rewrite <- !app_assoc. simpl.
      split; [by rewrite Holder|]. split; [exact Hrun|]. split; [|exact Hstop].
      right. destruct Hfits as [-> | Hfits]; [|exact Hfits].
      simpl. lia.
    + exists [], (msg :: older). simpl. repeat split; auto.
      intros m [= <-]. lia.
Qed.

Lemma last_rev_cons {A : Type} (x : A) (l : list A) : last (rev (x :: l)) = Some x.
Proof. simpl. apply last_snoc. Qed.

Lemma truncateHistory_spec (history : list Message) (maxTokens : Z) :
  exists dropped,
    history = dropped ++ truncateHistory history maxTokens
    /\ (truncateHistory history maxTokens = []
        \/ (Spec.tokens (truncateHistory history maxTokens) <= maxTokens)%Z)
    /\ (forall m, last dropped = Some m ->
          (maxTokens < Spec.tokens (truncateHistory history maxTokens)
                       + estimateTokens (msg_content m))%Z).
Proof.
  unfold truncateHistory. destruct history as [|m0 history].
  - exists []. simpl. repeat split; auto. intros m Hm. discriminate.
  - change (length (m0 :: history) =? 0)%nat with false. cbv iota.
    destruct (truncate_loop_spec maxTokens (rev (m0 :: history)) [] 0%Z eq_refl)
      as (taken & rest & Hrev & Hrun & Hfits & Hstop).
    rewrite Hrun, app_nil_r in *.
    exists (rev rest). split; [|split].
    + rewrite <- rev_app_distr, <- Hrev. by rewrite rev_involutive.
    + destruct Hfits as [-> | Hfits]; auto.
    + intros m Hm. apply Hstop.
      destruct rest as [|x rest]; [discriminate|].
      rewrite last_rev_cons in Hm. exact Hm.
Qed.

Example truncateHistory_three_messages :
  truncateHistory three_messages 5
  = [ {| role := RAssistant; msg_content := lit "middle.." |};
      {| role := RUser; msg_content := lit "newest.." |} ].
Proof. reflexivity. Qed.

(** C9. [truncateHistory] keeps a suffix of the history, made of whole
    messages: the kept messages fit the budget, and the message just before
    them, if there is one, is the first (walking from the most recent) that
    would push the estimate over it.  When [build] returns, which it does
    as soon as the memory is not consulted or the prompt is embedded, its
    messages are the system message, this suffix and the user prompt. *)
Theorem truncateHistory_keeps_newest (history : list Message) (maxTokens : Z) :
  (exists dropped,
     history = dropped ++ truncateHistory history maxTokens
     /\ (truncateHistory history maxTokens = []
         \/ (Spec.tokens (truncateHistory history maxTokens) <= maxTokens)%Z)
     /\ (forall m, last dropped = Some m ->
           (maxTokens < Spec.tokens (truncateHistory history maxTokens)
                        + estimateTokens (msg_content m))%Z))
  /\ (forall toFixed store embedder config userPrompt options,
        includeMemory options = Some false
        \/ (exists v, embed embedder userPrompt = Ok v) ->
        exists ctx systemContent,
          build toFixed store embedder config userPrompt history options = Ok ctx
          /\ messages ctx
             = {| role := RSystem; msg_content := systemContent |}
               :: truncateHistory history (conversationTokens config)
               ++ [{| role := RUser; msg_content := userPrompt |}]).
Proof.
  split; [apply truncateHistory_spec|].
  intros toFixed store embedder config userPrompt options Hmem. unfold build.
  destruct (default true (includeMemory options)) eqn:Hinc.
  - destruct Hmem as [Hoff | [v Hv]]; [by rewrite Hoff in Hinc|].
    destruct (retrieveForContext_Ok store embedder userPrompt
                {| maxDecisions := Some 5%Z; maxHeuristics := Some 3%Z;
                   includeHeuristics := forceHeuristics options |} v Hv)
      as (ds & hs & _ & _ & ->).
    eexists _, _. split; reflexivity.
  - eexists _, _. split; reflexivity.
Qed.

Lemma truncateHistory_keeps_newest_witness :
  (exists dropped,
     three_messages = dropped ++ truncateHistory three_messages 5
     /\ (truncateHistory three_messages 5 = []
         \/ (Spec.tokens (truncateHistory three_messages 5) <= 5)%Z)
     /\ (forall m, last dropped = Some m ->
           (5 < Spec.tokens (truncateHistory three_messages 5)
                + estimateTokens (msg_content m))%Z))
  /\ exists ctx systemContent,
       build (fun _ _ => []) three_memories simple DEFAULT_CONTEXT_CONFIG
         (lit "Latest question") three_messages
         {| includeMemory := None; forceHeuristics := None |} = Ok ctx
       /\ messages ctx
          = {| role := RSystem; msg_content := systemContent |}
            :: truncateHistory three_messages 3000
            ++ [{| role := RUser; msg_content := lit "Latest question" |}].
Proof.
  destruct (truncateHistory_keeps_newest three_messages 5) as [Hsuffix _].
  destruct (truncateHistory_keeps_newest three_messages 3000) as [_ Hbuild].
  split; [exact Hsuffix|].
  apply (Hbuild (fun _ _ => []) three_memories simple DEFAULT_CONTEXT_CONFIG
           (lit "Latest question") {| includeMemory := None; forceHeuristics := None |}).
  right. eexists. reflexivity.
Defined.

(* ----------------------------------------------------------------- *)
(** ** The fallback embedder normalizes its input *)

Lemma trimStart_head (s : jsstring) :
  trimStart s = [] \/ exists c t, trimStart s = c :: t /\ isWhiteSpace c = false.
Proof.
  induction s as [|c s IH]; simpl; [by left|].
  destruct (isWhiteSpace c) eqn:E; [exact IH|]. right. eauto.
Qed.

Lemma trimStart_idempotent (s : jsstring) : trimStart (trimStart s) = trimStart s.
Proof.
  destruct (trimStart_head s) as [-> | (c & t & -> & Hc)]; [reflexivity|].
  simpl. by rewrite Hc.
Qed.

Lemma trimStart_snoc (s : jsstring) (c : N) :
  isWhiteSpace c = false -> trimStart (s ++ [c]) = trimStart s ++ [c].
Proof.
  intros Hc. induction s as [|x s IH]; simpl; [by rewrite Hc|].
  destruct (isWhiteSpace x); [exact IH|reflexivity].
Qed.

Lemma trimEnd_idempotent (s : jsstring) : trimEnd (trimEnd s) = trimEnd s.
Proof. unfold trimEnd. by rewrite rev_involutive, trimStart_idempotent. Qed.

Lemma trim_idempotent (s : jsstring) : trim (trim s) = trim s.
Proof.
  unfold trim. destruct (trimStart_head s) as [-> | (c & t & -> & Hc)]; [reflexivity|].
  assert (trimEnd (c :: t) = c :: rev (trimStart (rev t))) as Hend.
  { unfold trimEnd. simpl. rewrite trimStart_snoc by exact Hc.
    by rewrite rev_app_distr. }
  rewrite Hend at 1. simpl. rewrite Hc, <- Hend. apply trimEnd_idempotent.
Qed.

Lemma hashToEmbedding_normalized (toLowerCase : jsstring -> jsstring) (s s' : jsstring) :
  trim (toLowerCase s) = trim (toLowerCase s') ->
  hashToEmbedding toLowerCase s = hashToEmbedding toLowerCase s'.
Proof. intros H. unfold hashToEmbedding. by rewrite H. Qed.

(** C10. For a [toLowerCase] that is idempotent and commutes with [trim]
    (as the built-in is), the fallback embedder gives [s] and
    [lowercase(trim(s))] the same embedding; more generally, two texts with
    the same lowercased and trimmed form receive the same embedding. *)
Theorem simple_embedder_invariance (toLowerCase : jsstring -> jsstring) :
  (forall s, toLowerCase (toLowerCase s) = toLowerCase s) ->
  (forall s, toLowerCase (trim s) = trim (toLowerCase s)) ->
  forall s,
    embed (SimpleEmbedder toLowerCase) s
    = embed (SimpleEmbedder toLowerCase) (toLowerCase (trim s))
    /\ (forall s', trim (toLowerCase s) = trim (toLowerCase s') ->
          embed (SimpleEmbedder toLowerCase) s = embed (SimpleEmbedder toLowerCase) s').
Proof.
  intros Hidem Hcomm s. simpl. split.
  - f_equal. apply hashToEmbedding_normalized.
    by rewrite Hidem, Hcomm, trim_idempotent.
  - intros s' H. f_equal. by apply hashToEmbedding_normalized.
Qed.

Lemma fmap_rev {A B : Type} (f : A -> B) (l : list A) : f <$> rev l = rev (f <$> l).
Proof.
  induction l as [|x l IH]; [reflexivity|].
  simpl. by rewrite fmap_app, IH.
Qed.

Lemma ascii_lower_unit_idempotent (c : N) :
  let f := fun c => if ((65 <=? c) && (c <=? 90))%N then (c + 32)%N else c in
  f (f c) = f c.
Proof.
  simpl. destruct ((65 <=? c) && (c <=? 90))%N eqn:E; [|by rewrite E].
  destruct ((65 <=? c + 32) && (c + 32 <=? 90))%N eqn:E2; [|reflexivity].
  apply andb_true_iff in E as [E _], E2 as [_ E2].
  apply N.leb_le in E, E2. lia.
Qed.

Lemma ascii_lower_unit_whitespace (c : N) :
  isWhiteSpace (if ((65 <=? c) && (c <=? 90))%N then (c + 32)%N else c) = isWhiteSpace c.
Proof.
  destruct ((65 <=? c) && (c <=? 90))%N eqn:E; [|reflexivity].
  apply andb_true_iff in E as [E1 E2]. apply N.leb_le in E1, E2.
  unfold isWhiteSpace.
  repeat match goal with
         | |- context [(?a <=? ?b)%N] =>
             first [ rewrite (proj2 (N.leb_le a b)) by lia
                   | rewrite (proj2 (N.leb_gt a b)) by lia ]
         | |- context [(?a =? ?b)%N] => rewrite (proj2 (N.eqb_neq a b)) by lia
         end.
  reflexivity.
Qed.

Lemma ascii_toLowerCase_idempotent (s : jsstring) :
  ascii_toLowerCase (ascii_toLowerCase s) = ascii_toLowerCase s.
Proof.
  unfold ascii_toLowerCase. rewrite <- list_fmap_compose.
  apply list_fmap_ext. intros _ c _. apply ascii_lower_unit_idempotent.
Qed.

Lemma ascii_toLowerCase_trimStart (s : jsstring) :
  ascii_toLowerCase (trimStart s) = trimStart (ascii_toLowerCase s).
Proof.
  induction s as [|c s IH]; [reflexivity|].
  unfold ascii_toLowerCase in *. rewrite fmap_cons. cbn [trimStart].
  rewrite ascii_lower_unit_whitespace.
  destruct (isWhiteSpace c); [exact IH|]. by rewrite fmap_cons.
Qed.

Lemma ascii_toLowerCase_trim (s : jsstring) :
  ascii_toLowerCase (trim s) = trim (ascii_toLowerCase s).
Proof.
  unfold trim, trimEnd.
  rewrite <- ascii_toLowerCase_trimStart.
  unfold ascii_toLowerCase at 1 2. rewrite fmap_rev.
  fold (ascii_toLowerCase (trimStart (rev (trimStart s)))).
  rewrite ascii_toLowerCase_trimStart. unfold ascii_toLowerCase at 1.
  by rewrite fmap_rev.
Qed.

Lemma simple_embedder_invariance_witness :
  embed simple (lit "  Use TABS ")
  = embed simple (ascii_toLowerCase (trim (lit "  Use TABS ")))
  /\ embed simple (lit "  Use TABS ") = embed simple (lit "use tabs").
Proof.
  destruct (simple_embedder_invariance ascii_toLowerCase
              ascii_toLowerCase_idempotent ascii_toLowerCase_trim (lit "  Use TABS "))
    as [Hsame Hothers].
  split; [exact Hsame|]. apply Hothers. reflexivity.
Defined.
(* ================================================================= *)
(** * Part III: further properties of the program *)
(* ================================================================= *)

Import StoreQueries SimpleContext McpServer Invariants.

(* ----------------------------------------------------------------- *)
(** ** Cosine similarity: symmetry, vectors of unequal length *)

Lemma dot_comm (a b : list R) : Spec.dot a b = Spec.dot b a.
Proof.
  revert b. induction a as [|x a IH]; intros [|y b]; simpl; try reflexivity.
  rewrite (IH b). lra.
Qed.

(** X2. For vectors of equal length the cosine similarity is symmetric. *)
Theorem cosineSimilarity_symmetric (a b : list R) :
  length a = length b ->
  cosineSimilarity a b = cosineSimilarity b a.
Proof.
  intros Hlen.
  rewrite (cosineSimilarity_eq a b Hlen), (cosineSimilarity_eq b a (eq_sym Hlen)).
  rewrite (dot_comm b a), (Rmult_comm (Spec.norm b)). reflexivity.
Qed.

Lemma cosineSimilarity_symmetric_witness :
  cosineSimilarity [3; 4]%R [4; 3]%R = cosineSimilarity [4; 3]%R [3; 4]%R.
Proof. exact (cosineSimilarity_symmetric [3; 4]%R [4; 3]%R eq_refl). Defined.

Lemma jadd_NaN_r (x : jsnum) : jadd x NaN = NaN.
Proof. by destruct x. Qed.

Lemma jmul_NaN_r (x : jsnum) : jmul x NaN = NaN.
Proof. by destruct x. Qed.

Lemma read_out_of_range (b : list R) (i : nat) : (length b <= i)%nat -> read b i = NaN.
Proof. intros Hi. unfold read. by rewrite lookup_ge_None_2. Qed.

Lemma read_take (b : list R) (n i : nat) : (i < n)%nat -> read (take n b) i = read b i.
Proof. intros Hi. unfold read. by rewrite lookup_take_lt. Qed.

(** Once an index past the end of [b] has been read, the dot product and
    the norm of [b] are NaN for good. *)
Lemma cosine_loop_NaN (a b : list R) (l : list nat) (acc : jsnum * jsnum * jsnum) :
  (acc.1.1 = NaN /\ acc.2 = NaN) \/ Exists (fun i => (length b <= i)%nat) l ->
  (foldl (cosine_step a b) acc l).1.1 = NaN /\ (foldl (cosine_step a b) acc l).2 = NaN.
Proof.
  revert acc. induction l as [|i l IH]; intros [[d na] nb] H; simpl in *.
  - destruct H as [H|H]; [exact H|by apply Exists_nil in H].
  - apply IH. destruct H as [[-> ->]|H].
    + left. simpl. split; reflexivity.
    + apply Exists_cons in H as [H|H]; [|by right].
      left. simpl. rewrite (read_out_of_range b i H), !jmul_NaN_r, !jadd_NaN_r.
      by split.
Qed.

Lemma cosine_loop_ext (a b b' : list R) (l : list nat) (acc : jsnum * jsnum * jsnum) :
  Forall (fun i => read b i = read b' i) l ->
  foldl (cosine_step a b) acc l = foldl (cosine_step a b') acc l.
Proof.
  revert acc. induction l as [|i l IH]; intros acc H; [reflexivity|].
  apply Forall_cons in H as [Hi H]. simpl. rewrite <- (IH _ H).
  f_equal. destruct acc as [[d na] nb]. simpl. by rewrite Hi.
Qed.

Lemma cosineSimilarity_short_b (a b : list R) :
  (length b < length a)%nat -> cosineSimilarity a b = NaN.
Proof.
  intros Hlt. unfold cosineSimilarity.
  destruct (cosine_loop_NaN a b (seq 0 (length a)) (Num 0, Num 0, Num 0)) as [Hd Hn].
  { right. apply Exists_exists. exists (length b). split; [|lia].
    apply elem_of_seq. lia. }
  destruct (foldl _ _ _) as [[d na] nb]. simpl in Hd, Hn. subst d nb.
  simpl. by rewrite jmul_NaN_r.
Qed.

Lemma cosineSimilarity_long_b (a b : list R) :
  (length a <= length b)%nat ->
  cosineSimilarity a b = cosineSimilarity a (take (length a) b).
Proof.
  intros Hle. unfold cosineSimilarity.
  rewrite (cosine_loop_ext a b (take (length a) b)); [reflexivity|].
  apply Forall_forall. intros i Hi. apply elem_of_seq in Hi.
  symmetry. apply read_take. lia.
Qed.

(** X3. [cosineSimilarity(a, b)] reads [a.length] entries of both vectors:
    when [b] is at least as long as [a] the result is the similarity of [a]
    and the first [a.length] entries of [b], whatever [b] holds behind
    them; when [b] is shorter the result is NaN. *)
Theorem cosineSimilarity_unequal_length (a b : list R) :
  ((length a <= length b)%nat ->
   cosineSimilarity a b = cosineSimilarity a (take (length a) b))
  /\ ((length b < length a)%nat -> cosineSimilarity a b = NaN).
Proof.
  split; [apply cosineSimilarity_long_b|apply cosineSimilarity_short_b].
Qed.

Lemma cosineSimilarity_unequal_length_witness :
  cosineSimilarity [3; 4]%R [4; 3; 7]%R = cosineSimilarity [3; 4]%R [4; 3]%R
  /\ cosineSimilarity [3; 4; 5]%R [4; 3]%R = NaN.
Proof.
  destruct (cosineSimilarity_unequal_length [3; 4]%R [4; 3; 7]%R) as [Hlong _].
  destruct (cosineSimilarity_unequal_length [3; 4; 5]%R [4; 3]%R) as [_ Hshort].
  split.
  - apply Hlong. simpl. lia.
  - apply Hshort. simpl. lia.
Defined.

(* ----------------------------------------------------------------- *)
(** ** Vector search *)

Lemma elem_of_joined_rows (s : Store) (types : option (list MemoryType))
    (row : MemoryRow) (e : Blob) :
  (row, e) ∈ joined_rows s types
  <-> row ∈ memory_items s /\ row_active row = 1%Z /\ type_selected types row = true
      /\ memory_embeddings s !! row_id row = Some e.
Proof.
  unfold joined_rows. rewrite list_elem_of_omap. split.
  - intros (m & Hin & Hm).
    destruct (is_active m && type_selected types m) eqn:E; [|discriminate].
    apply andb_true_iff in E as [Ha Ht]. apply Z.eqb_eq in Ha.
    destruct (memory_embeddings s !! row_id m) as [e'|] eqn:He; simplify_eq/=.
    auto.
  - intros (Hin & Ha & Ht & He). exists row. split; [exact Hin|].
    unfold is_active. rewrite (proj2 (Z.eqb_eq _ _) Ha), Ht, He. reflexivity.
Qed.

Lemma elem_of_vectorSearch (s : Store) (q : list R) (o : VectorSearchOptions)
    (c : Candidate) :
  c ∈ vectorSearch s q o ->
  exists row e, (row, e) ∈ joined_rows s (vs_types o)
    /\ c = {| c_memory := rowToMemory row;
              c_similarity := cosineSimilarity q (blob_view e) |}.
Proof.
  unfold vectorSearch. intros Hc.
  apply slice0_elem_of, sort_elem_of, list_elem_of_fmap in Hc.
  destruct Hc as ([row e] & -> & Hin). eauto.
Qed.

Lemma filter_nil {A : Type} (p : A -> bool) (l : list A) :
  (forall x, x ∈ l -> p x = false) -> List.filter p l = [].
Proof.
  induction l as [|x l IH]; intros H; simpl; [reflexivity|].
  rewrite (H x) by apply list_elem_of_here.
  apply IH. intros y Hy. apply H. by apply list_elem_of_further.
Qed.

Lemma slice0_nil {A : Type} (e : Z) : slice0 (@nil A) e = [].
Proof. unfold slice0. destruct (e <? 0)%Z; apply take_nil. Qed.

(** X4. A query vector longer than [EMBEDDING_DIM] (as an embedder of
    another dimension produces) makes every similarity NaN, so that
    [retrieve] returns no result at all, whatever the store holds. *)
Theorem retrieve_long_query (store : Store) (embedder : Embedder) (query : jsstring)
    (options : RetrievalOptions) (queryEmbedding : list R) :
  embed embedder query = Ok queryEmbedding ->
  (EMBEDDING_DIM < length queryEmbedding)%nat ->
  (forall o c, c ∈ vectorSearch store queryEmbedding o -> c_similarity c = NaN)
  /\ retrieve store embedder query options = Ok [].
Proof.
  intros Hembed Hlong.
  assert (forall o c, c ∈ vectorSearch store queryEmbedding o -> c_similarity c = NaN)
    as Hnan.
  { intros o c Hc. apply elem_of_vectorSearch in Hc as (row & e & _ & ->). simpl.
    apply cosineSimilarity_short_b. unfold blob_view. rewrite length_take. lia. }
  split; [exact Hnan|].
  unfold retrieve. rewrite Hembed. rewrite filter_nil; [simpl; by rewrite slice0_nil|].
  intros c Hc. by rewrite (Hnan _ c Hc).
Qed.

Lemma retrieve_long_query_witness :
  retrieve three_memories
    {| dimensions := 768; embed := fun _ => Ok (repeat 1%R 768) |}
    (lit "which database") default_retrieval = Ok [].
Proof.
  apply (retrieve_long_query three_memories
           {| dimensions := 768; embed := fun _ => Ok (repeat 1%R 768) |}
           (lit "which database") default_retrieval (repeat 1%R 768) eq_refl).
  rewrite repeat_length. unfold EMBEDDING_DIM. lia.
Defined.

(** X5. [vectorSearch] returns only records that are active, of a selected
    type and that have a stored embedding (a soft-deleted record or one
    without embedding never appears); with a limit that is not negative it
    returns at most [limit] of them, and all of them when the limit is not
    below their number. *)
Theorem vectorSearch_visibility (s : Store) (q : list R) (o : VectorSearchOptions) :
  (forall c, c ∈ vectorSearch s q o ->
     exists row e, row ∈ memory_items s /\ row_active row = 1%Z
       /\ type_selected (vs_types o) row = true
       /\ memory_embeddings s !! row_id row = Some e
       /\ c = {| c_memory := rowToMemory row;
                 c_similarity := cosineSimilarity q (blob_view e) |})
  /\ ((0 <= vs_limit o)%Z -> (Z.of_nat (length (vectorSearch s q o)) <= vs_limit o)%Z)
  /\ ((Z.of_nat (length (joined_rows s (vs_types o))) <= vs_limit o)%Z ->
      forall row e, row ∈ memory_items s -> row_active row = 1%Z ->
        type_selected (vs_types o) row = true ->
        memory_embeddings s !! row_id row = Some e ->
        {| c_memory := rowToMemory row;
           c_similarity := cosineSimilarity q (blob_view e) |} ∈ vectorSearch s q o).
Proof.
  split; [|split].
  - intros c Hc. apply elem_of_vectorSearch in Hc as (row & e & Hin & ->).
    apply elem_of_joined_rows in Hin as (Hin & Ha & Ht & He).
    exists row, e. auto.
  - apply vectorSearch_length.
  - intros Hlimit row e Hin Ha Ht He. unfold vectorSearch, slice0.
    destruct (Z.ltb_spec (vs_limit o) 0) as [Hneg|_]; [lia|].
    rewrite take_ge by (rewrite sort_length, length_fmap; lia).
    apply sort_elem_of, list_elem_of_fmap. exists (row, e). split; [reflexivity|].
    by apply elem_of_joined_rows.
Qed.

Lemma vectorSearch_visibility_witness :
  (Z.of_nat (length (vectorSearch three_memories (repeat 1%R 384)
                       {| vs_limit := 2; vs_types := None |})) <= 2)%Z.
Proof.
  destruct (vectorSearch_visibility three_memories (repeat 1%R 384)
              {| vs_limit := 2; vs_types := None |}) as (_ & Hlen & _).
  apply Hlen. simpl. lia.
Defined.

(* ----------------------------------------------------------------- *)
(** ** The friction modifier *)

Lemma half_ratio (p q : R) :
  (0 < p)%R -> (0 < q)%R -> ((p - q) / 2 / ((p + q) / 2) = (p - q) / (p + q))%R.
Proof. intros Hp Hq. field. lra. Qed.

Lemma tanh_range (x : R) : (-1 < tanh x < 1)%R.
Proof.
  unfold tanh, sinh, cosh.
  pose proof (exp_pos x) as Hp. pose proof (exp_pos (- x)) as Hq.
  rewrite half_ratio by assumption.
  revert Hp Hq. generalize (exp x) (exp (- x)). intros p q Hp Hq.
  assert (0 < / (p + q))%R as Hinv by (apply Rinv_0_lt_compat; lra).
  assert ((p + q) * / (p + q) = 1)%R as Hone by (apply Rinv_r; lra).
  unfold Rdiv. nra.
Qed.

Lemma tanh_at_0 : tanh 0 = 0%R.
Proof. unfold tanh. rewrite sinh_0, cosh_0. lra. Qed.

Lemma tanh_increasing (x y : R) : (x < y)%R -> (tanh x < tanh y)%R.
Proof.
  intros Hxy. unfold tanh, sinh, cosh.
  pose proof (exp_pos x) as Hp1. pose proof (exp_pos (- x)) as Hq1.
  pose proof (exp_pos y) as Hp2. pose proof (exp_pos (- y)) as Hq2.
  assert (exp x * exp (- y) < exp y * exp (- x))%R as Hcross.
  { rewrite <- !exp_plus. apply exp_increasing. lra. }
  rewrite !half_ratio by assumption.
  revert Hp1 Hq1 Hp2 Hq2 Hcross.
  generalize (exp x) (exp (- x)) (exp y) (exp (- y)).
  intros p1 q1 p2 q2 Hp1 Hq1 Hp2 Hq2 Hcross.
  apply (Rmult_lt_reg_r ((p1 + q1) * (p2 + q2)))%R; [nra|].
  replace ((p1 - q1) / (p1 + q1) * ((p1 + q1) * (p2 + q2)))%R
    with ((p1 - q1) * (p2 + q2))%R by (field; lra).
  replace ((p2 - q2) / (p2 + q2) * ((p1 + q1) * (p2 + q2)))%R
    with ((p2 - q2) * (p1 + q1))%R by (field; lra).
  nra.
Qed.

(** X7. The friction modifier multiplies a similarity by a factor between
    0.5 and 1.5: exactly 1 for a friction of zero, at least 1 for a
    friction that is not negative (a boost, never a damping) and at most 1
    for a friction that is not positive. *)
Theorem applyFrictionModifier_factor (sim friction : R) :
  exists m, applyFrictionModifier (Num sim) friction = Num (sim * m)
    /\ (1 / 2 <= m <= 3 / 2)%R
    /\ (friction = 0%R -> m = 1%R)
    /\ ((0 <= friction)%R -> (1 <= m)%R)
    /\ ((friction <= 0)%R -> (m <= 1)%R).
Proof.
  unfold applyFrictionModifier. simpl. eexists. split; [reflexivity|].
  pose proof (tanh_range (friction / 3)) as Ht. split; [lra|].
  assert (friction = 0%R -> tanh (friction / 3) = 0%R) as Hzero.
  { intros ->. replace (0 / 3)%R with 0%R by lra. apply tanh_at_0. }
  split; [|split].
  - intros H0. rewrite (Hzero H0). lra.
  - intros [Hpos|Heq].
    + pose proof (tanh_increasing 0 (friction / 3) ltac:(lra)) as Hinc.
      rewrite tanh_at_0 in Hinc. lra.
    + rewrite (Hzero (eq_sym Heq)). lra.
  - intros [Hneg|Heq].
    + pose proof (tanh_increasing (friction / 3) 0 ltac:(lra)) as Hinc.
      rewrite tanh_at_0 in Hinc. lra.
    + rewrite (Hzero Heq). lra.
Qed.

(* ----------------------------------------------------------------- *)
(** ** The fallback embedder: dimension, hash *)

Lemma add_at_length (a : list R) (i : nat) (d : R) : length (add_at a i d) = length a.
Proof. unfold add_at. destruct (a !! i); [apply length_insert|reflexivity]. Qed.

Lemma foldl_length {A B : Type} (f : list A -> B -> list A) (l : list B) (e : list A) :
  (forall e x, length (f e x) = length e) -> length (foldl f e l) = length e.
Proof.
  intros Hf. revert e. induction l as [|x l IH]; intros e; simpl; [reflexivity|].
  by rewrite IH, Hf.
Qed.

Lemma hashToEmbedding_length (toLowerCase : jsstring -> jsstring) (text : jsstring) :
  length (hashToEmbedding toLowerCase text) = 384%nat.
Proof.
  unfold hashToEmbedding.
  set (e := foldl word_step _ _).
  assert (length e = 384%nat) as Hlen.
  { unfold e. rewrite foldl_length.
    - rewrite foldl_length.
      + by rewrite length_fmap, length_seq.
      + intros e0 x. unfold char_step. by rewrite !add_at_length.
    - intros e0 x. unfold word_step. by rewrite add_at_length. }
  destruct (decide _); [by rewrite length_fmap|exact Hlen].
Qed.

(** X8. For every text, the empty one included, the fallback embedder
    returns an array of exactly 384 entries, the dimension of the store:
    [setEmbedding] never answers it with the dimension-mismatch error. *)
Theorem hashToEmbedding_dimension (toLowerCase : jsstring -> jsstring) (text : jsstring) :
  length (hashToEmbedding toLowerCase text) = 384%nat
  /\ dimensions (SimpleEmbedder toLowerCase) = EMBEDDING_DIM
  /\ forall (i : jsstring) (s : Store),
       setEmbedding i (owned (hashToEmbedding toLowerCase text)) s
       = (s, Err SqliteConstraint)
       \/ (setEmbedding i (owned (hashToEmbedding toLowerCase text)) s).2 = Ok tt.
Proof.
  split; [apply hashToEmbedding_length|]. split; [reflexivity|].
  intros i s. unfold setEmbedding. cbn [entries owned].
  rewrite hashToEmbedding_length. change (384 =? EMBEDDING_DIM)%nat with true.
  cbn [negb]. destruct (foreign_keys s && negb (has_item s i)); [by left|by right].
Qed.

Lemma toInt32_range (z : Z) : (-2147483648 <= toInt32 z < 2147483648)%Z.
Proof.
  unfold toInt32. pose proof (Z.mod_pos_bound z 4294967296 ltac:(lia)).
  destruct (Z.leb_spec 2147483648 (z mod 4294967296)); lia.
Qed.

(** X9. [simpleHash] returns an integer between 0 and 2^31 (the bound is
    reached through [Math.abs] of the least 32-bit integer), and 0 for the
    empty word; the index that [hashToEmbedding] derives from it lies
    inside the embedding. *)
Theorem simpleHash_range (str : jsstring) :
  (0 <= simpleHash str <= 2147483648)%Z
  /\ simpleHash [] = 0%Z
  /\ (Z.to_nat (simpleHash str mod Z.of_nat LOCAL_EMBEDDING_DIM)
      < LOCAL_EMBEDDING_DIM)%nat.
Proof.
  assert (0 <= simpleHash str <= 2147483648)%Z as Hrange.
  { unfold simpleHash.
    assert (forall h, (-2147483648 <= h < 2147483648)%Z ->
              (-2147483648
               <= foldl (fun hash char =>
                           toInt32 (toInt32 (Z.shiftl hash 5) - hash + Z.of_N char))
                    h str < 2147483648)%Z) as Hfold.
    { induction str as [|c str IH]; intros h Hh; simpl; [exact Hh|].
      apply IH, toInt32_range. }
    specialize (Hfold 0%Z ltac:(lia)). lia. }
  split; [exact Hrange|]. split; [reflexivity|].
  unfold LOCAL_EMBEDDING_DIM.
  pose proof (Z.mod_pos_bound (simpleHash str) (Z.of_nat 384) ltac:(lia)). lia.
Qed.

(* ----------------------------------------------------------------- *)
(** ** The store: adding, reading back, updating, deleting *)

Lemma changes_has_item (s : Store) (i : jsstring) :
  (0 <? length (List.filter (fun r => bool_decide (row_id r = i)) (memory_items s)))%nat
  = has_item s i.
Proof.
  unfold has_item. rewrite update_length_changes. apply bool_decide_ext.
  rewrite !Exists_exists.
  split; intros (r & Hin & H); exists r; split; try exact Hin.
  - by apply bool_decide_eq_true in H.
  - by apply bool_decide_eq_true.
Qed.

Lemma has_item_false (s : Store) (i : jsstring) :
  has_item s i = false ->
  forall p : MemoryRow -> bool,
    List.filter (fun r => bool_decide (row_id r = i) && p r) (memory_items s) = [].
Proof.
  intros Hno p. apply filter_nil. intros r Hr.
  apply andb_false_iff. left. apply bool_decide_eq_false. intros Hid.
  apply bool_decide_eq_false in Hno. apply Hno, Exists_exists. eauto.
Qed.

Lemma has_item_snoc (s : Store) (row : MemoryRow) (ev : Store) :
  memory_items ev = memory_items s ++ [row] -> has_item ev (row_id row) = true.
Proof.
  intros H. unfold has_item. rewrite H. apply bool_decide_eq_true.
  apply Exists_app. right. by left.
Qed.

Lemma getById_snoc (s s' : Store) (row : MemoryRow) :
  memory_items s' = memory_items s ++ [row] ->
  has_item s (row_id row) = false ->
  row_active row = 1%Z ->
  getById s' (row_id row) = Some (rowToMemory row)
  /\ (forall j, j <> row_id row -> getById s' j = getById s j).
Proof.
  intros Hitems Hfresh Hactive. unfold getById. rewrite Hitems, !List.filter_app. split.
  - rewrite (has_item_false s _ Hfresh). cbn [List.filter app].
    rewrite bool_decide_eq_true_2 by reflexivity.
    unfold is_active. rewrite Hactive. reflexivity.
  - intros j Hj. rewrite List.filter_app. cbn [List.filter].
    rewrite bool_decide_eq_false_2 by congruence.
    cbn [andb]. by rewrite app_nil_r.
Qed.

(** A string without unpaired surrogates passes through a TEXT column
    unchanged. *)
Lemma toWellFormed_fixed (s : jsstring) : isWellFormed s = true -> toWellFormed s = s.
Proof.
  assert (forall n (t : jsstring), (length t <= n)%nat ->
            isWellFormed t = true -> toWellFormed t = t) as Hn.
  { induction n as [|n IH]; intros [|c t] Hlen Hwf; try reflexivity;
      [simpl in Hlen; lia|].
    simpl in *. destruct (isLeadSurrogate c).
    - destruct t as [|d t]; [discriminate|].
      apply andb_true_iff in Hwf as [Hd Hwf]. rewrite Hd.
      rewrite (IH t) by (simpl in Hlen; lia || exact Hwf). reflexivity.
    - apply andb_true_iff in Hwf as [Hc Hwf]. apply negb_true_iff in Hc.
      rewrite Hc, (IH t) by (lia || exact Hwf). reflexivity. }
  by apply (Hn (length s)).
Qed.

(** What [insert ; setEmbedding ; return] does on a new id. *)
Lemma insert_then_embed_ok {A : Type} (row : MemoryRow) (e : option BufferView) (a : A)
    (s : Store) :
  has_item s (row_id row) = false ->
  (forall v, e = Some v -> length (entries v) = EMBEDDING_DIM) ->
  exists s',
    (insert_item row ;; set_if_given (row_id row) e ;; db_ret a) s = (s', Ok a)
    /\ memory_items s' = memory_items s ++ [row]
    /\ memory_embeddings s'
       = match e with
         | Some v => <[row_id row := to_blob v]> (memory_embeddings s)
         | None => memory_embeddings s
         end
    /\ friction_events s' = friction_events s.
Proof.
  intros Hfresh He. unfold db_bind, insert_item, db_ret. rewrite Hfresh.
  destruct e as [v|]; simpl.
  - unfold setEmbedding. rewrite (He v eq_refl), Nat.eqb_refl. simpl.
    rewrite (has_item_snoc s row (with_items s (memory_items s ++ [row])) eq_refl).
    rewrite andb_false_r. eexists. repeat split.
  - eexists. repeat split.
Qed.

Lemma insert_duplicate {A : Type} (row : MemoryRow) (e : option BufferView) (a : A)
    (s : Store) :
  has_item s (row_id row) = true ->
  (insert_item row ;; set_if_given (row_id row) e ;; db_ret a) s
  = (s, Err SqliteConstraint).
Proof. intros Hdup. unfold db_bind, insert_item. by rewrite Hdup. Qed.

Lemma getEmbedding_ok (s : Store) (i : jsstring) (v : list R) :
  memory_embeddings s !! i = Some (to_blob (owned v)) -> length v = EMBEDDING_DIM ->
  getEmbedding s i = Some v.
Proof.
  intros Hv Hlen. unfold getEmbedding. rewrite Hv.
  destruct (owned_blob v Hlen) as [-> ->]. by rewrite Nat.eqb_refl.
Qed.

(** X10. Adding a record under a new id returns the id; [getById] then
    returns the record with its content and context as the TEXT columns
    give them back (well formed; as given when they hold no unpaired
    surrogate), with the defaults filled in (source [user], severity
    [warning], strength [moderate]), a friction score of 0, both dates set
    to now, and active; the other records are read as before.  Under an id
    that is taken, the add throws and leaves the store as it was. *)
Theorem add_then_getById (s : Store) (nanoid : jsstring) (now : Z) :
  (has_item s nanoid = false ->
   let base := fun c ctx src =>
     {| id := nanoid; content := toWellFormed c; context := toWellFormed <$> ctx;
        source := default SUser src;
        frictionScore := 0%R; createdAt := now; updatedAt := now; active := true |} in
   (forall input, exists s',
      addConstraint nanoid now input None s = (s', Ok nanoid)
      /\ getById s' nanoid
         = Some (ConstraintItem (base (cc_content input) (cc_context input) (cc_source input))
                   (cc_scope input) (default SevWarning (cc_severity input)))
      /\ (forall j, j <> nanoid -> getById s' j = getById s j))
   /\ (forall input, exists s',
         addDecision nanoid now input None s = (s', Ok nanoid)
         /\ getById s' nanoid
            = Some (DecisionItem (base (cd_content input) (cd_context input) (cd_source input))
                      (cd_alternatives input) (cd_rationale input)
                      (cd_relatedFiles input))
         /\ (forall j, j <> nanoid -> getById s' j = getById s j))
   /\ (forall input, exists s',
         addHeuristic nanoid now input None s = (s', Ok nanoid)
         /\ getById s' nanoid
            = Some (HeuristicItem (base (ch_content input) (ch_context input) (ch_source input))
                      (ch_applicableWhen input) (default Moderate (ch_strength input)))
         /\ (forall j, j <> nanoid -> getById s' j = getById s j)))
  /\ (forall c : jsstring, isWellFormed c = true -> toWellFormed c = c)
  /\ (has_item s nanoid = true ->
      forall ci di hi e,
        addConstraint nanoid now ci e s = (s, Err SqliteConstraint)
        /\ addDecision nanoid now di e s = (s, Err SqliteConstraint)
        /\ addHeuristic nanoid now hi e s = (s, Err SqliteConstraint)).
Proof.
  split; [|split; [apply toWellFormed_fixed|]].
  - intros Hfresh base.
    assert (forall (row : MemoryRow), row_id row = nanoid -> row_active row = 1%Z ->
              exists s', (insert_item row ;; set_if_given nanoid None ;; db_ret nanoid) s
                         = (s', Ok nanoid)
                /\ getById s' nanoid = Some (rowToMemory row)
                /\ (forall j, j <> nanoid -> getById s' j = getById s j)) as Hadd.
    { intros row Hid Hact. subst nanoid.
      destruct (insert_then_embed_ok row None (row_id row) s Hfresh ltac:(discriminate))
        as (s' & Hrun & Hitems & _ & _).
      exists s'. split; [exact Hrun|].
      by apply (getById_snoc s s' row). }
    split; [|split]; intros input;
      unfold addConstraint, addDecision, addHeuristic;
      match goal with
      | |- context [insert_item ?row] =>
          destruct (Hadd row eq_refl eq_refl) as (s' & Hrun & Hget & Hother)
      end;
      exists s'; (split; [exact Hrun|]); (split; [exact Hget|exact Hother]).
  - intros Hdup ci di hi e. unfold addConstraint, addDecision, addHeuristic.
    split; [|split]; by apply (insert_duplicate (new_row nanoid _ _ _ _ _ now)).
Qed.

Lemma add_then_getById_witness :
  exists s' m,
    addConstraint (lit "m2") 5 tabs_rule None one_memory = (s', Ok (lit "m2"))
    /\ getById s' (lit "m2") = Some m
    /\ content (base_of m) = lit "Use tabs, not spaces"
    /\ (forall j, j <> lit "m2" -> getById s' j = getById one_memory j).
Proof.
  destruct (add_then_getById one_memory (lit "m2") 5) as [Hnew _].
  destruct (Hnew eq_refl) as (Hc & _ & _).
  destruct (Hc tabs_rule) as (s' & Hrun & Hget & Hother).
  exists s'. eexists. split; [exact Hrun|]. split; [exact Hget|].
  split; [reflexivity|exact Hother].
Defined.

Lemma addMemory_unfold (embedder : Embedder) (nanoid : jsstring) (now : Z)
    (type : MemoryType) (c : jsstring) (md : AddMetadata) (v : list R) (s : Store) :
  embed embedder c = Ok v ->
  exists row,
    row_id row = nanoid /\ row_type row = type /\ row_content row = toWellFormed c
    /\ friction_score row = 0%R /\ row_active row = 1%Z
    /\ addMemory embedder nanoid now type c md s
       = (insert_item row ;; set_if_given nanoid (Some (owned v)) ;; db_ret nanoid) s.
Proof.
  intros Hv. unfold addMemory. rewrite Hv.
  destruct type; unfold addConstraint, addDecision, addHeuristic;
    match goal with
    | |- context [insert_item ?row] => exists row
    end; repeat split.
Qed.

Lemma getById_fields (row : MemoryRow) :
  type_of (rowToMemory row) = row_type row
  /\ id (base_of (rowToMemory row)) = row_id row
  /\ content (base_of (rowToMemory row)) = row_content row
  /\ frictionScore (base_of (rowToMemory row)) = friction_score row
  /\ createdAt (base_of (rowToMemory row)) = created_at row
  /\ updatedAt (base_of (rowToMemory row)) = updated_at row.
Proof. unfold rowToMemory. destruct (row_type row); repeat split. Qed.

(** X11. With the fallback embedder, [addMemory] under a new id always
    returns: the record is then read back by [getById] with the given type,
    its content as the TEXT column gives it back (the given content when
    that holds no unpaired surrogate) and a friction score of 0, and its
    stored embedding is the embedding of the content that was given. *)
Theorem addMemory_simple (toLowerCase : jsstring -> jsstring) (nanoid : jsstring)
    (now : Z) (type : MemoryType) (c : jsstring) (md : AddMetadata) (s : Store) :
  has_item s nanoid = false ->
  exists s' m,
    addMemory (SimpleEmbedder toLowerCase) nanoid now type c md s = (s', Ok nanoid)
    /\ getById s' nanoid = Some m
    /\ type_of m = type /\ content (base_of m) = toWellFormed c
    /\ (isWellFormed c = true -> content (base_of m) = c)
    /\ frictionScore (base_of m) = 0%R
    /\ getEmbedding s' nanoid = Some (hashToEmbedding toLowerCase c)
    /\ (forall j, j <> nanoid -> getById s' j = getById s j).
Proof.
  intros Hfresh.
  destruct (addMemory_unfold (SimpleEmbedder toLowerCase) nanoid now type c md
              (hashToEmbedding toLowerCase c) s eq_refl)
    as (row & Hid & Hty & Hc & Hscore & Hact & ->).
  subst nanoid.
  destruct (insert_then_embed_ok row (Some (owned (hashToEmbedding toLowerCase c)))
              (row_id row) s Hfresh) as (s' & Hrun & Hitems & Hemb & _).
  { intros v [= <-]. apply hashToEmbedding_length. }
  destruct (getById_snoc s s' row Hitems Hfresh Hact) as [Hget Hother].
  destruct (getById_fields row) as (Ht & _ & Hcont & Hfr & _).
  exists s', (rowToMemory row). split; [exact Hrun|]. split; [exact Hget|].
  split; [congruence|]. split; [congruence|].
  split; [intros Hwf; rewrite Hcont, Hc; by apply toWellFormed_fixed|].
  split; [congruence|].
  split; [|exact Hother].
  apply getEmbedding_ok; [|apply hashToEmbedding_length].
  rewrite Hemb. apply lookup_insert_eq.
Qed.

Lemma addMemory_simple_witness :
  exists s' m,
    addMemory simple (lit "d2") 4 TDecision (lit "Use Redis") Examples.no_metadata
      one_memory = (s', Ok (lit "d2"))
    /\ getById s' (lit "d2") = Some m
    /\ type_of m = TDecision /\ content (base_of m) = lit "Use Redis"
    /\ getEmbedding s' (lit "d2") = Some (hashToEmbedding ascii_toLowerCase (lit "Use Redis")).
Proof.
  destruct (addMemory_simple ascii_toLowerCase (lit "d2") 4 TDecision (lit "Use Redis")
              Examples.no_metadata one_memory eq_refl)
    as (s' & m & H1 & H2 & H3 & _ & H4 & _ & H6 & _).
  exists s', m. split; [exact H1|]. split; [exact H2|]. split; [exact H3|].
  split; [by apply H4|exact H6].
Defined.

(** X12. When the embedder returns a vector whose length is not 384,
    [addMemory] under a new id throws the dimension-mismatch error after
    the record has been inserted: the record stays in the store without an
    embedding, and [getById] returns it. *)
Theorem addMemory_wrong_dimension (embedder : Embedder) (nanoid : jsstring) (now : Z)
    (type : MemoryType) (c : jsstring) (md : AddMetadata) (v : list R) (s : Store) :
  embed embedder c = Ok v ->
  length v <> EMBEDDING_DIM ->
  has_item s nanoid = false ->
  exists s' m,
    addMemory embedder nanoid now type c md s
    = (s', Err (DimensionMismatch EMBEDDING_DIM (length v)))
    /\ getById s' nanoid = Some m
    /\ type_of m = type /\ content (base_of m) = toWellFormed c
    /\ memory_embeddings s' = memory_embeddings s
    /\ getEmbedding s' nanoid = getEmbedding s nanoid.
Proof.
  intros Hv Hlen Hfresh.
  destruct (addMemory_unfold embedder nanoid now type c md v s Hv)
    as (row & Hid & Hty & Hc & _ & Hact & Hrun).
  subst nanoid.
  assert (addMemory embedder (row_id row) now type c md s
          = (with_items s (memory_items s ++ [row]),
             Err (DimensionMismatch EMBEDDING_DIM (length v)))) as Hres.
  { rewrite Hrun. unfold db_bind, insert_item. rewrite Hfresh. simpl.
    unfold setEmbedding. cbn [entries owned].
    by rewrite (proj2 (Nat.eqb_neq _ _) Hlen). }
  destruct (getById_snoc s (with_items s (memory_items s ++ [row])) row eq_refl
              Hfresh Hact) as [Hget _].
  destruct (getById_fields row) as (Ht & _ & Hcont & _).
  exists (with_items s (memory_items s ++ [row])), (rowToMemory row).
  split; [exact Hres|]. split; [exact Hget|]. split; [congruence|].
  split; [congruence|]. split; reflexivity.
Qed.

Lemma addMemory_wrong_dimension_witness :
  exists s' m,
    addMemory {| dimensions := 768; embed := fun _ => Ok (repeat 1%R 768) |}
      (lit "d2") 4 TDecision (lit "Use Redis") Examples.no_metadata one_memory
    = (s', Err (DimensionMismatch 384 768))
    /\ getById s' (lit "d2") = Some m
    /\ memory_embeddings s' = memory_embeddings one_memory.
Proof.
  destruct (addMemory_wrong_dimension
              {| dimensions := 768; embed := fun _ => Ok (repeat 1%R 768) |}
              (lit "d2") 4 TDecision (lit "Use Redis") Examples.no_metadata
              (repeat 1%R 768) one_memory eq_refl)
    as (s' & m & H1 & H2 & _ & _ & H5 & _).
  - rewrite repeat_length. unfold EMBEDDING_DIM. lia.
  - reflexivity.
  - exists s', m. rewrite repeat_length in H1. auto.
Defined.

Lemma getById_None_filter (s : Store) (i : jsstring) :
  getById s i = None ->
  List.filter (fun r => bool_decide (row_id r = i) && is_active r) (memory_items s) = [].
Proof. unfold getById. by destruct (List.filter _ _). Qed.

(** X13. On an id that [getById] does not return (missing or soft-deleted),
    [updateContent] returns [false] and leaves the store as it was; it does
    not look at the embedding, so that even a vector of the wrong length
    does not make it throw. *)
Theorem updateContent_not_found (now : Z) (i c : jsstring) (e : option BufferView)
    (s : Store) :
  getById s i = None ->
  updateContent now i c e s = (s, Ok false).
Proof.
  intros Hnone. apply getById_None_filter in Hnone.
  unfold updateContent, db_bind, update_items, db_ret.
  rewrite Hnone. simpl. rewrite fmap_unchanged by exact Hnone.
  by rewrite with_items_same.
Qed.

Lemma updateContent_not_found_witness :
  updateContent 3 (lit "m1") (lit "Use spaces") (Some (owned (repeat 0%R 100)))
    one_deleted
  = (one_deleted, Ok false).
Proof. apply updateContent_not_found. reflexivity. Defined.

Lemma getById_Some_row (s : Store) (i : jsstring) (m : MemoryItem) :
  getById s i = Some m ->
  exists r, head (List.filter (fun r => bool_decide (row_id r = i) && is_active r)
                    (memory_items s)) = Some r
    /\ m = rowToMemory r /\ row_id r = i /\ is_active r = true /\ r ∈ memory_items s.
Proof.
  unfold getById. intros H.
  destruct (List.filter _ _) as [|r l] eqn:E; simplify_eq/=.
  assert (r ∈ List.filter (fun r => bool_decide (row_id r = i) && is_active r)
                (memory_items s)) as Hin by (rewrite E; apply list_elem_of_here).
  apply elem_of_List_filter in Hin as [Hin Hw].
  apply andb_true_iff in Hw as [Hid Ha]. apply bool_decide_eq_true in Hid.
  exists r. auto.
Qed.

(** The store that the UPDATE of [updateContent] leaves, and what [getById]
    reads in it. *)
Lemma updateContent_written (now : Z) (i c : jsstring) (s : Store) (m : MemoryItem) :
  getById s i = Some m ->
  exists s1 m',
    update_items (fun r => bool_decide (row_id r = i) && is_active r)
      (fun r => {| row_id := row_id r; row_type := row_type r;
                   row_content := toWellFormed c; row_context := row_context r;
                   row_source := row_source r; friction_score := friction_score r;
                   created_at := created_at r; updated_at := now;
                   row_active := row_active r; row_metadata := row_metadata r |}) s
    = (s1, Ok (length (List.filter (fun r => bool_decide (row_id r = i) && is_active r)
                         (memory_items s))))
    /\ (0 <? length (List.filter (fun r => bool_decide (row_id r = i) && is_active r)
                       (memory_items s)))%nat = true
    /\ has_item s1 i = true
    /\ memory_embeddings s1 = memory_embeddings s
    /\ getById s1 i = Some m'
    /\ content (base_of m') = toWellFormed c /\ updatedAt (base_of m') = now
    /\ type_of m' = type_of m /\ id (base_of m') = i
    /\ frictionScore (base_of m') = frictionScore (base_of m)
    /\ createdAt (base_of m') = createdAt (base_of m).
Proof.
  intros Hm. apply getById_Some_row in Hm as (r & Hhead & -> & Hid & Hact & Hin).
  unfold update_items. eexists _, _. split; [reflexivity|].
  split; [by destruct (List.filter _ _)|].
  split.
  { rewrite has_item_update by reflexivity.
    apply bool_decide_eq_true, Exists_exists. eauto. }
  split; [reflexivity|].
  split.
  { unfold getById. simpl. rewrite head_filter_fmap.
    - rewrite Hhead. simpl. rewrite Hid, bool_decide_eq_true_2 by reflexivity.
      rewrite Hact. reflexivity.
    - intros x. destruct (bool_decide (row_id x = i) && is_active x) eqn:E;
        simpl; by rewrite ?E. }
  unfold rowToMemory. simpl. destruct (row_type r); simpl; repeat split; auto.
Qed.

(** X14. On a record that [getById] returns, [updateContent] replaces the
    content (read back as the TEXT column gives it: the given content when
    that holds no unpaired surrogate), sets [updatedAt] and keeps the type,
    the id, the friction score and [createdAt]; it returns [true] when no
    embedding or one of 384 entries is given.  Given an array of another
    length it throws the dimension-mismatch error, but only after the new
    content has been written. *)
Theorem updateContent_found (now : Z) (i c : jsstring) (e : option BufferView)
    (s : Store) (m : MemoryItem) :
  getById s i = Some m ->
  exists s' m',
    updateContent now i c e s
    = (s', match e with
           | Some v => if (length (entries v) =? EMBEDDING_DIM)%nat then Ok true
                       else Err (DimensionMismatch EMBEDDING_DIM (length (entries v)))
           | None => Ok true
           end)
    /\ getById s' i = Some m'
    /\ content (base_of m') = toWellFormed c
    /\ (isWellFormed c = true -> content (base_of m') = c)
    /\ updatedAt (base_of m') = now
    /\ type_of m' = type_of m /\ id (base_of m') = i
    /\ frictionScore (base_of m') = frictionScore (base_of m)
    /\ createdAt (base_of m') = createdAt (base_of m).
Proof.
  intros Hm.
  destruct (updateContent_written now i c s m Hm)
    as (s1 & m' & Hrun & Hchanges & Hitem & Hemb & Hget & Hcont & Hfields).
  assert (isWellFormed c = true -> content (base_of m') = c) as Hwf
    by (intros H; rewrite Hcont; by apply toWellFormed_fixed).
  unfold updateContent, db_bind. rewrite Hrun, Hchanges.
  destruct e as [v|]; simpl.
  - unfold setEmbedding. destruct (length (entries v) =? EMBEDDING_DIM)%nat eqn:E; simpl.
    + rewrite Hitem, andb_false_r. simpl.
      exists (with_embeddings s1 (<[i := to_blob v]> (memory_embeddings s1))), m'.
      split; [reflexivity|]. split; [exact Hget|]. split; [exact Hcont|].
      split; [exact Hwf|exact Hfields].
    + exists s1, m'. split; [reflexivity|]. split; [exact Hget|].
      split; [exact Hcont|]. split; [exact Hwf|exact Hfields].
  - exists s1, m'. split; [reflexivity|]. split; [exact Hget|].
    split; [exact Hcont|]. split; [exact Hwf|exact Hfields].
Qed.

Lemma updateContent_found_witness :
  exists s' m',
    updateContent 3 (lit "m1") (lit "Use spaces") (Some (owned (repeat 0%R 100)))
      one_memory
    = (s', Err (DimensionMismatch 384 100))
    /\ getById s' (lit "m1") = Some m'
    /\ content (base_of m') = lit "Use spaces".
Proof.
  destruct (updateContent_found 3 (lit "m1") (lit "Use spaces")
              (Some (owned (repeat 0%R 100))) one_memory
              (ConstraintItem
                 {| id := lit "m1"; content := lit "Use tabs, not spaces";
                    context := None; source := SUser; frictionScore := 0%R;
                    createdAt := 0; updatedAt := 0; active := true |}
                 None SevWarning) eq_refl)
    as (s' & m' & Hrun & Hget & _ & Hc & _).
  exists s', m'. split; [|split; [exact Hget|by apply Hc]].
  rewrite Hrun. reflexivity.
Defined.

Lemma filter_removed_id (i : jsstring) (p : MemoryRow -> bool) (l : list MemoryRow) :
  List.filter (fun r => bool_decide (row_id r = i) && p r)
    (List.filter (fun r => negb (bool_decide (row_id r = i))) l) = [].
Proof.
  apply filter_nil. intros r Hr.
  apply elem_of_List_filter in Hr as [_ Hr]. apply negb_true_iff in Hr.
  by rewrite Hr.
Qed.

Lemma filter_other_id (i j : jsstring) (l : list MemoryRow) :
  j <> i ->
  List.filter (fun r => bool_decide (row_id r = j))
    (List.filter (fun r => negb (bool_decide (row_id r = i))) l)
  = List.filter (fun r => bool_decide (row_id r = j)) l.
Proof.
  intros Hj. induction l as [|r l IH]; [reflexivity|].
  cbn [List.filter].
  destruct (bool_decide (row_id r = i)) eqn:E; cbn [negb List.filter].
  - apply bool_decide_eq_true in E.
    rewrite bool_decide_eq_false_2 by congruence. exact IH.
  - destruct (bool_decide (row_id r = j)); by rewrite IH.
Qed.

Lemma filter_no_such_id (i : jsstring) (l : list MemoryRow) :
  ~ Exists (fun r => row_id r = i) l ->
  List.filter (fun r => negb (bool_decide (row_id r = i))) l = l.
Proof.
  intros Hno. induction l as [|r l IH]; [reflexivity|].
  cbn [List.filter]. rewrite bool_decide_eq_false_2.
  - simpl. f_equal. apply IH. intros H. apply Hno. by right.
  - intros H. apply Hno. by left.
Qed.

(** X15. [hardDelete] returns whether a record with the id existed.
    Afterwards no row has the id; with foreign keys enforced the embedding
    and the friction events of a deleted record are gone too; rows with
    other ids are kept, and nothing changes when no record had the id. *)
Theorem hardDelete_removes (i : jsstring) (s : Store) :
  exists s', hardDelete i s = (s', Ok (has_item s i))
    /\ find_row s' i = None
    /\ getById s' i = None
    /\ (forall j, j <> i -> find_row s' j = find_row s j)
    /\ (foreign_keys s = true -> has_item s i = true ->
        memory_embeddings s' !! i = None /\ getFrictionEvents s' i = [])
    /\ (has_item s i = false -> s' = s).
Proof.
  unfold hardDelete. rewrite changes_has_item. eexists. split; [reflexivity|].
  split; [|split; [|split; [|split]]].
  - unfold find_row.
    assert (forall l : list MemoryRow,
              List.filter (fun r => bool_decide (row_id r = i)) l
              = List.filter (fun r => bool_decide (row_id r = i) && true) l) as Hext.
    { intros l. apply filter_ext. intros r. by rewrite andb_true_r. }
    destruct (foreign_keys s && has_item s i); simpl;
      by rewrite Hext, filter_removed_id.
  - unfold getById.
    destruct (foreign_keys s && has_item s i); simpl; by rewrite filter_removed_id.
  - intros j Hj. unfold find_row.
    destruct (foreign_keys s && has_item s i); simpl; by rewrite filter_other_id.
  - intros -> ->. simpl. split; [apply lookup_delete_eq|].
    unfold getFrictionEvents. simpl. rewrite filter_nil; [reflexivity|].
    intros ev Hev. apply elem_of_List_filter in Hev as [_ Hev].
    apply negb_true_iff in Hev. exact Hev.
  - intros Hno. rewrite Hno, andb_false_r.
    rewrite filter_no_such_id; [apply with_items_same|].
    unfold has_item in Hno. by apply bool_decide_eq_false in Hno.
Qed.

Lemma hardDelete_removes_witness :
  exists s', hardDelete (lit "m1") one_memory = (s', Ok true)
    /\ getById s' (lit "m1") = None
    /\ memory_embeddings s' !! lit "m1" = None.
Proof.
  destruct (hardDelete_removes (lit "m1") one_memory)
    as (s' & Hrun & _ & Hget & _ & Hfk & _).
  exists s'. split; [exact Hrun|]. split; [exact Hget|].
  by destruct (Hfk eq_refl eq_refl).
Defined.

(* ----------------------------------------------------------------- *)
(** ** Listing: soft delete, pages, order *)

Lemma elem_of_limit_offset {A : Type} (l : list A) (limit offset : Z) (x : A) :
  x ∈ limit_offset l limit offset -> x ∈ l.
Proof.
  unfold limit_offset. intros Hx.
  assert (x ∈ drop (Z.to_nat offset) l) as Hd.
  { destruct (limit <? 0)%Z; [exact Hx|].
    rewrite <- (take_drop (Z.to_nat limit) (drop _ l)). apply elem_of_app. by left. }
  rewrite <- (take_drop (Z.to_nat offset) l). apply elem_of_app. by right.
Qed.

Lemma limit_offset_all {A : Type} (l : list A) (limit offset : Z) :
  (offset <= 0)%Z -> (Z.of_nat (length l) <= limit)%Z -> limit_offset l limit offset = l.
Proof.
  intros Ho Hl. unfold limit_offset.
  replace (Z.to_nat offset) with 0%nat by lia. rewrite drop_0.
  destruct (Z.ltb_spec limit 0); [reflexivity|]. apply take_ge. lia.
Qed.

Lemma elem_of_listMemories (s : Store) (o : ListOptions) (m : MemoryItem) :
  m ∈ listMemories s o ->
  exists row, row ∈ memory_items s /\ m = rowToMemory row
    /\ (default false (lo_includeInactive o) = true \/ row_active row = 1%Z)
    /\ (forall t, lo_type o = Some t -> row_type row = t).
Proof.
  unfold listMemories. intros Hm. apply list_elem_of_fmap in Hm as (row & -> & Hrow).
  apply elem_of_limit_offset in Hrow. unfold newest_first in Hrow.
  apply sort_elem_of, elem_of_List_filter in Hrow as [Hin Hw].
  apply andb_true_iff in Hw as [Hact Hty]. exists row. split; [exact Hin|].
  split; [reflexivity|]. split.
  - apply orb_true_iff in Hact as [Hinc|Hact]; [by left|right].
    by apply Z.eqb_eq in Hact.
  - intros t Ht. rewrite Ht in Hty. by apply bool_decide_eq_true in Hty.
Qed.

Lemma delete_items (now : Z) (i : jsstring) (s : Store) :
  memory_items (delete now i s).1
  = (fun r => if bool_decide (row_id r = i)
              then {| row_id := row_id r; row_type := row_type r;
                      row_content := row_content r; row_context := row_context r;
                      row_source := row_source r; friction_score := friction_score r;
                      created_at := created_at r; updated_at := now;
                      row_active := 0%Z; row_metadata := row_metadata r |}
              else r) <$> memory_items s.
Proof. reflexivity. Qed.

Lemma delete_row_cases (now : Z) (i : jsstring) (s : Store) (row' : MemoryRow) :
  row' ∈ memory_items (delete now i s).1 ->
  (row_id row' = i /\ row_active row' = 0%Z)
  \/ (row_id row' <> i /\ row' ∈ memory_items s).
Proof.
  rewrite delete_items. intros Hin. apply list_elem_of_fmap in Hin as (r & -> & Hr).
  destruct (bool_decide (row_id r = i)) eqn:E.
  - apply bool_decide_eq_true in E. left. by split.
  - apply bool_decide_eq_false in E. right. by split.
Qed.

Lemma delete_row_kept (now : Z) (i : jsstring) (s : Store) (row : MemoryRow) :
  row_id row <> i -> row ∈ memory_items s -> row ∈ memory_items (delete now i s).1.
Proof.
  intros Hid Hin. rewrite delete_items. apply list_elem_of_fmap. exists row.
  split; [|exact Hin]. by rewrite bool_decide_eq_false_2.
Qed.

(** X16. After a soft delete of an id, no record with that id is listed by
    [getByType] or by [listMemories] (unless inactive records are asked
    for); the records with other ids are listed by [getByType] exactly as
    before; and [listMemories] with [includeInactive] still shows the
    deleted record, inactive, when the limit covers the table. *)
Theorem soft_delete_isolation (now : Z) (i : jsstring) (s : Store) :
  (forall t m, m ∈ getByType (delete now i s).1 t -> id (base_of m) <> i)
  /\ (forall o m, default false (lo_includeInactive o) = false ->
        m ∈ listMemories (delete now i s).1 o -> id (base_of m) <> i)
  /\ (forall t m, id (base_of m) <> i ->
        (m ∈ getByType (delete now i s).1 t <-> m ∈ getByType s t))
  /\ (has_item s i = true ->
      forall limit, (Z.of_nat (length (memory_items s)) <= limit)%Z ->
      exists m, m ∈ listMemories (delete now i s).1
                      {| lo_type := None; lo_limit := Some limit; lo_offset := None;
                         lo_includeInactive := Some true |}
                /\ id (base_of m) = i /\ active (base_of m) = false).
Proof.
  split; [|split; [|split]].
  - intros t m Hm. apply elem_of_getByType in Hm as (row & Hin & _ & Hact & ->).
    destruct (getById_fields row) as (_ & -> & _).
    destruct (delete_row_cases now i s row Hin) as [[_ H0]|[Hid _]]; [lia|exact Hid].
  - intros o m Hinc Hm.
    apply elem_of_listMemories in Hm as (row & Hin & -> & Hact & _).
    destruct (getById_fields row) as (_ & -> & _).
    destruct Hact as [Hact|Hact]; [congruence|].
    destruct (delete_row_cases now i s row Hin) as [[_ H0]|[Hid _]]; [lia|exact Hid].
  - intros t m Hid. rewrite !elem_of_getByType. split.
    + intros (row & Hin & Ht & Hact & ->).
      destruct (delete_row_cases now i s row Hin) as [[_ H0]|[_ Hin']]; [lia|].
      exists row. auto.
    + intros (row & Hin & Ht & Hact & ->).
      destruct (getById_fields row) as (_ & Hrid & _). rewrite Hrid in Hid.
      exists row. split; [by apply delete_row_kept|]. auto.
  - intros Hhas limit Hlimit.
    apply bool_decide_eq_true, Exists_exists in Hhas as (r & Hr & Hid).
    set (r' := {| row_id := row_id r; row_type := row_type r;
                  row_content := row_content r; row_context := row_context r;
                  row_source := row_source r; friction_score := friction_score r;
                  created_at := created_at r; updated_at := now;
                  row_active := 0%Z; row_metadata := row_metadata r |}).
    exists (rowToMemory r'). split.
    + unfold listMemories. apply list_elem_of_fmap. exists r'. split; [reflexivity|].
      simpl. rewrite limit_offset_all.
      * apply sort_elem_of, elem_of_List_filter. split; [|reflexivity].
        apply list_elem_of_fmap. exists r. split; [|exact Hr].
        by rewrite bool_decide_eq_true_2.
      * lia.
      * unfold newest_first. rewrite sort_length.
        etransitivity; [|exact Hlimit]. apply inj_le.
        etransitivity; [apply List.filter_length_le|]. by rewrite length_fmap.
    + unfold rowToMemory. simpl. by destruct (row_type r).
Qed.

Lemma soft_delete_isolation_witness :
  exists m, m ∈ listMemories (delete 1 (lit "m1") one_memory).1
                  {| lo_type := None; lo_limit := Some 50%Z; lo_offset := None;
                     lo_includeInactive := Some true |}
            /\ id (base_of m) = lit "m1" /\ active (base_of m) = false.
Proof.
  destruct (soft_delete_isolation 1 (lit "m1") one_memory) as (_ & _ & _ & Hshown).
  apply Hshown; [reflexivity|]. simpl. lia.
Defined.

Lemma limit_offset_pages {A : Type} (l : list A) (n m o : Z) :
  (0 <= n)%Z -> (0 <= m)%Z -> (0 <= o)%Z ->
  limit_offset l n o ++ limit_offset l m (o + n) = limit_offset l (n + m) o.
Proof.
  intros Hn Hm Ho. unfold limit_offset.
  destruct (Z.ltb_spec n 0), (Z.ltb_spec m 0), (Z.ltb_spec (n + m) 0); try lia.
  replace (Z.to_nat (o + n)) with (Z.to_nat o + Z.to_nat n)%nat by lia.
  rewrite <- drop_drop, take_take_drop. f_equal. lia.
Qed.

Lemma limit_offset_length {A : Type} (l : list A) (limit offset : Z) :
  (0 <= limit)%Z -> (Z.of_nat (length (limit_offset l limit offset)) <= limit)%Z.
Proof.
  intros Hl. unfold limit_offset. destruct (Z.ltb_spec limit 0); [lia|].
  rewrite length_take. lia.
Qed.

(** X17. [listMemories] pages compose: for limits and an offset that are
    not negative, a page of [n] records followed by the page of [m] records
    that starts where it ends is the page of [n + m] records; and a page
    holds at most [limit] records. *)
Theorem listMemories_pages (s : Store) (type : option MemoryType)
    (includeInactive : option bool) (n m o : Z) :
  (0 <= n)%Z -> (0 <= m)%Z -> (0 <= o)%Z ->
  listMemories s {| lo_type := type; lo_limit := Some n; lo_offset := Some o;
                    lo_includeInactive := includeInactive |}
  ++ listMemories s {| lo_type := type; lo_limit := Some m; lo_offset := Some (o + n)%Z;
                       lo_includeInactive := includeInactive |}
  = listMemories s {| lo_type := type; lo_limit := Some (n + m)%Z; lo_offset := Some o;
                      lo_includeInactive := includeInactive |}
  /\ (Z.of_nat (length (listMemories s
                          {| lo_type := type; lo_limit := Some n; lo_offset := Some o;
                             lo_includeInactive := includeInactive |})) <= n)%Z.
Proof.
  intros Hn Hm Ho. unfold listMemories. simpl. split.
  - rewrite <- fmap_app. f_equal. by apply limit_offset_pages.
  - rewrite length_fmap. by apply limit_offset_length.
Qed.

Lemma listMemories_pages_witness :
  listMemories one_memory {| lo_type := None; lo_limit := Some 3%Z; lo_offset := Some 0%Z;
                             lo_includeInactive := None |}
  ++ listMemories one_memory {| lo_type := None; lo_limit := Some 3%Z;
                                lo_offset := Some 3%Z; lo_includeInactive := None |}
  = listMemories one_memory {| lo_type := None; lo_limit := Some 6%Z; lo_offset := Some 0%Z;
                               lo_includeInactive := None |}.
Proof.
  apply (listMemories_pages one_memory None None 3 3 0); lia.
Defined.




(* ----------------------------------------------------------------- *)
(** ** Statistics *)

Lemma reachable_scores_in_range (s : Store) : reachable s -> Spec.scores_in_range s.
Proof.
  induction 1 as [fk|s c _ IH Hc]; [by apply Forall_nil|].
  by apply exec_scores_in_range.
Qed.

Lemma filter_filter_length (t : MemoryType) (rows : list MemoryRow) :
  length (List.filter (fun r => bool_decide (row_type r = t)) (List.filter is_active rows))
  = length (List.filter (fun r => bool_decide (row_type r = t) && is_active r) rows).
Proof.
  induction rows as [|r rows IH]; [reflexivity|]. simpl.
  destruct (is_active r) eqn:Ea, (bool_decide (row_type r = t)) eqn:Et;
    simpl; rewrite ?Et; simpl; lia.
Qed.

Lemma getByType_length (s : Store) (t : MemoryType) :
  length (getByType s t)
  = length (List.filter (fun r => bool_decide (row_type r = t))
              (List.filter is_active (memory_items s))).
Proof.
  unfold getByType, newest_first. by rewrite length_fmap, sort_length, filter_filter_length.
Qed.

Lemma type_partition (rows : list MemoryRow) :
  length rows
  = (length (List.filter (fun r => bool_decide (row_type r = TConstraint)) rows)
     + length (List.filter (fun r => bool_decide (row_type r = TDecision)) rows)
     + length (List.filter (fun r => bool_decide (row_type r = THeuristic)) rows))%nat.
Proof.
  induction rows as [|r rows IH]; [reflexivity|]. simpl.
  destruct (row_type r); simpl; lia.
Qed.

Lemma sum_case_Some (t : MemoryType) (rows : list MemoryRow) :
  rows <> [] ->
  sum_case t rows = Some (length (List.filter (fun r => bool_decide (row_type r = t)) rows)).
Proof. by destruct rows. Qed.

(** X19. The counts of [getStats]: [totalMemories] is the number of active
    records, which is the sum of the lengths of [getByType] over the three
    types; when an active record exists, each per-type count is the length
    of [getByType] for that type; when none exists, the three per-type
    counts are null (not zero), the average friction is 0 and there is no
    oldest or newest date. *)
Theorem getStats_counts (s : Store) :
  let st := getStats s in
  totalMemories st
  = (length (getByType s TConstraint) + length (getByType s TDecision)
     + length (getByType s THeuristic))%nat
  /\ (totalMemories st <> 0%nat ->
      constraintCount st = Some (length (getByType s TConstraint))
      /\ decisionCount st = Some (length (getByType s TDecision))
      /\ heuristicCount st = Some (length (getByType s THeuristic)))
  /\ (totalMemories st = 0%nat ->
      constraintCount st = None /\ decisionCount st = None /\ heuristicCount st = None
      /\ averageFrictionScore st = 0%R
      /\ oldestMemory st = None /\ newestMemory st = None).
Proof.
  simpl. rewrite !getByType_length. split; [apply type_partition|]. split.
  - intros Hne.
    assert (List.filter is_active (memory_items s) <> []) as Hrows
      by (intros E; by rewrite E in Hne).
    by rewrite !sum_case_Some.
  - intros H0. apply length_zero_iff_nil in H0. rewrite H0. by repeat split.
Qed.

Lemma getStats_counts_witness :
  constraintCount (getStats one_memory) = Some (length (getByType one_memory TConstraint)).
Proof.
  destruct (getStats_counts one_memory) as (_ & Hsome & _).
  apply Hsome. simpl. lia.
Defined.

Lemma foldr_scores_range (rows : list MemoryRow) :
  Forall (fun r => Spec.in_range (friction_score r)) rows ->
  (- 10 * INR (length rows)
   <= foldr (fun r acc => friction_score r + acc) 0 rows
   <= 10 * INR (length rows))%R.
Proof.
  induction 1 as [|r rows Hr _ IH]; [simpl; lra|].
  change (length (r :: rows)) with (S (length rows)). rewrite S_INR. simpl.
  unfold Spec.in_range in Hr. lra.
Qed.



(** X20. On a store reached by calls of the store's methods, the average
    friction that [getStats] reports lies in [[-10, 10]]. *)
Theorem getStats_average_range (s : Store) :
  reachable s -> Spec.in_range (averageFrictionScore (getStats s)).
Proof.
  intros Hs. apply reachable_scores_in_range in Hs. unfold Spec.scores_in_range in Hs.
  unfold getStats. simpl.
  assert (Forall (fun r => Spec.in_range (friction_score r))
            (List.filter is_active (memory_items s))) as Hact.
  { apply Forall_forall. intros r Hr. apply elem_of_List_filter in Hr as [Hr _].
    revert r Hr. by apply Forall_forall. }
  destruct (List.filter is_active (memory_items s)) as [|r rows] eqn:E;
    [simpl; unfold Spec.in_range; lra|].
  pose proof (foldr_scores_range _ Hact) as Hsum.
  unfold avg_friction. cbn [default].
  assert (0 < INR (length (r :: rows)))%R as Hn by (apply lt_0_INR; simpl; lia).
  revert Hsum Hn.
  generalize (foldr (fun r0 acc => friction_score r0 + acc)%R 0%R (r :: rows)).
  generalize (INR (length (r :: rows))). intros n x Hsum Hn.
  unfold Spec.in_range.
  assert (0 < / n)%R as Hinv by (by apply Rinv_0_lt_compat).
  destruct Hsum as [Hlo Hhi].
  apply (Rmult_le_compat_r (/ n)) in Hlo; [|lra].
  apply (Rmult_le_compat_r (/ n)) in Hhi; [|lra].
  rewrite Rmult_assoc, Rinv_r in Hlo, Hhi by lra.
  unfold Rdiv, Datatypes.id. lra.
Qed.

Lemma getStats_average_range_witness :
  Spec.in_range (averageFrictionScore (getStats one_memory)).
Proof.
  apply getStats_average_range.
  apply (reachable_call _ (CallAddConstraint _ _ _ _)); [apply (reachable_new true)|exact I].
Defined.



(* ----------------------------------------------------------------- *)
(** ** Friction decay *)

Lemma Forall2_fmap_same {A B : Type} (P : A -> B -> Prop) (f : A -> B) (l : list A) :
  (forall x, P x (f x)) -> Forall2 P l (f <$> l).
Proof. intros H. induction l; simpl; constructor; auto. Qed.

(** X22. [applyFrictionDecay] with a positive half-life (30 days when none
    is given) returns the number of records whose score is not zero.  It
    leaves the records in place and a record with score 0 untouched; no
    other score grows in absolute value or changes its sign, and the
    record's [updated_at] becomes now.  Inactive records decay too. *)
Theorem applyFrictionDecay_shrinks (now : Z) (halfLifeDays : option R) (s : Store) :
  (0 < default 30 halfLifeDays)%R ->
  (applyFrictionDecay now halfLifeDays s).2
  = Ok (length (List.filter (fun r => negb (bool_decide (friction_score r = 0%R)))
                  (memory_items s)))
  /\ Forall2
       (fun r r' =>
          row_id r' = row_id r /\ row_active r' = row_active r
          /\ (friction_score r = 0%R -> r' = r)
          /\ (friction_score r <> 0%R ->
              (Rabs (friction_score r') <= Rabs (friction_score r))%R
              /\ (0 <= friction_score r * friction_score r')%R
              /\ updated_at r' = now))
       (memory_items s) (memory_items (applyFrictionDecay now halfLifeDays s).1).
Proof.
  intros Hh. split; [reflexivity|].
  pose proof (decay_factor_range _ Hh) as Hf.
  unfold applyFrictionDecay, update_items. simpl.
  apply Forall2_fmap_same. intros r.
  destruct (bool_decide (friction_score r = 0%R)) eqn:E; simpl.
  - apply bool_decide_eq_true in E.
    split; [reflexivity|]. split; [reflexivity|]. split; [reflexivity|].
    intros Hne. by destruct Hne.
  - apply bool_decide_eq_false in E.
    split; [reflexivity|]. split; [reflexivity|]. split; [intros H0; by destruct E|].
    intros _. split; [|split; [|reflexivity]].
    + rewrite Rabs_mult, (Rabs_pos_eq (Rpower _ _)) by lra.
      pose proof (Rabs_pos (friction_score r)). nra.
    + assert (0 <= friction_score r * friction_score r)%R by nra. nra.
Qed.

Lemma applyFrictionDecay_shrinks_witness :
  (exists r, memory_items one_accepted = [r] /\ friction_score r = 8%R)
  /\ (applyFrictionDecay 2 None one_accepted).2 = Ok 1%nat
  /\ exists r', memory_items (applyFrictionDecay 2 None one_accepted).1 = [r']
       /\ (Rabs (friction_score r') <= 8)%R /\ updated_at r' = 2%Z.
Proof.
  assert (Rmax (-10) (Rmin 10 (0 + 8)) = 8%R) as H8.
  { rewrite clamp_Rmax_Rmin. unfold Spec.clamp. repeat (destruct (decide _)); lra. }
  assert (exists r, memory_items one_accepted = [r] /\ friction_score r = 8%R) as Hrow.
  { eexists. split; [reflexivity|]. exact H8. }
  destruct Hrow as (r & Hitems & Hscore).
  destruct (applyFrictionDecay_shrinks 2 None one_accepted) as [Hret Hrows];
    [simpl; lra|].
  rewrite Hitems in Hret, Hrows.
  apply Forall2_cons_inv_l in Hrows as (r' & l' & (_ & _ & _ & Hdecay) & Hnil & Hitems').
  apply Forall2_nil_inv_l in Hnil. subst l'.
  destruct Hdecay as (Habs & _ & Hnow); [rewrite Hscore; lra|].
  split; [by exists r|]. split.
  - rewrite Hret. cbn [List.filter]. rewrite bool_decide_eq_false_2 by (rewrite Hscore; lra).
    reflexivity.
  - exists r'. split; [exact Hitems'|]. split; [|exact Hnow].
    rewrite Hscore, (Rabs_pos_eq 8) in Habs by lra. exact Habs.
Defined.

(* ----------------------------------------------------------------- *)
(** ** Friction events *)

(** X24. [recordFrictionEvent] is atomic.  It throws exactly when the event
    id is taken, or when foreign keys are enforced and no record has the
    memory id; the store is then unchanged.  Otherwise it returns the event
    id, the event is appended to the log, and every record with the memory
    id (active or not) gets the clamped score and [updated_at = now] while
    the other records are untouched. *)
Theorem recordFrictionEvent_atomic (nanoid : jsstring) (now : Z) (memoryId : jsstring)
    (eventType : FrictionEventType) (delta : R) (ctx : option jsstring) (s : Store) :
  let out := recordFrictionEvent nanoid now memoryId eventType delta ctx s in
  let refused :=
    Exists (fun e => fe_id e = nanoid) (friction_events s)
    \/ (foreign_keys s = true /\ has_item s memoryId = false) in
  (refused -> out = (s, Err SqliteConstraint))
  /\ (~ refused ->
      out.2 = Ok nanoid
      /\ friction_events out.1
         = friction_events s
           ++ [{| fe_id := nanoid; fe_memory_id := memoryId; fe_event_type := eventType;
                  fe_delta := delta; fe_context := toWellFormed <$> ctx;
                  fe_created_at := now |}]
      /\ memory_items out.1
         = (fun r => if bool_decide (row_id r = memoryId)
                     then set_score r (Rmax (-10) (Rmin 10 (friction_score r + delta))) now
                     else r) <$> memory_items s
      /\ memory_embeddings out.1 = memory_embeddings s).
Proof.
  simpl. unfold_db. simpl.
  destruct (bool_decide (Exists (fun e' => fe_id e' = nanoid) (friction_events s))) eqn:Edup.
  - apply bool_decide_eq_true in Edup. split; [reflexivity|]. intros Hn. destruct Hn. by left.
  - apply bool_decide_eq_false in Edup.
    destruct (foreign_keys s) eqn:Efk, (has_item s memoryId) eqn:Ehas; simpl.
    + split; [intros [H|[_ H]]; [contradiction|discriminate]|]. by intros _.
    + split; [reflexivity|]. intros Hn. destruct Hn. by right.
    + split; [intros [H|[H _]]; [contradiction|discriminate]|]. by intros _.
    + split; [intros [H|[H _]]; [contradiction|discriminate]|]. by intros _.
Qed.

Lemma recordFrictionEvent_atomic_witness :
  recordFrictionEvent (lit "e1") 1 (lit "nobody") ECorrection (-1) None one_memory
  = (one_memory, Err SqliteConstraint).
Proof.
  apply (recordFrictionEvent_atomic (lit "e1") 1 (lit "nobody") ECorrection (-1) None
           one_memory).
  right. split; reflexivity.
Defined.

(* ----------------------------------------------------------------- *)
(** ** Integrity of the tables *)

Lemma has_item_ids (s : Store) (i : jsstring) : has_item s i = true <-> i ∈ ids s.
Proof.
  unfold has_item, ids. rewrite bool_decide_eq_true, Exists_exists, list_elem_of_fmap.
  split; intros (r & H1 & H2); exists r; auto.
Qed.

Lemma has_item_not_ids (s : Store) (i : jsstring) : has_item s i = false <-> i ∉ ids s.
Proof.
  rewrite <- has_item_ids. destruct (has_item s i); split; try done.
Qed.

Lemma preserves_ret {A : Type} (a : A) : preserves (db_ret a).
Proof. by intros s Hs. Qed.

Lemma preserves_bind {A B : Type} (c : DB A) (k : A -> DB B) :
  preserves c -> (forall a, preserves (k a)) -> preserves (db_bind c k).
Proof.
  intros Hc Hk s Hs. unfold db_bind. specialize (Hc s Hs).
  destruct (c s) as [s1 [a|e]]; [by apply Hk|exact Hc].
Qed.

Lemma preserves_transaction {A : Type} (c : DB A) : preserves c -> preserves (transaction c).
Proof.
  intros Hc s Hs. unfold transaction. specialize (Hc s Hs).
  by destruct (c s) as [s1 [a|e]].
Qed.

Lemma preserves_update_items (w : MemoryRow -> bool) (f : MemoryRow -> MemoryRow) :
  (forall r, row_id (f r) = row_id r) -> preserves (update_items w f).
Proof.
  intros Hf s Hs. unfold update_items. simpl.
  assert (ids (with_items s ((fun r => if w r then f r else r) <$> memory_items s)) = ids s)
    as Hids.
  { unfold ids. simpl. rewrite <- list_fmap_compose. apply list_fmap_ext.
    intros _ r _. simpl. destruct (w r); by rewrite ?Hf. }
  unfold integrity, unique_ids, references_resolve in *. by rewrite Hids.
Qed.

Lemma preserves_insert_item (row : MemoryRow) : preserves (insert_item row).
Proof.
  intros s Hs. unfold insert_item.
  destruct (has_item s (row_id row)) eqn:E; [exact Hs|]. simpl.
  apply has_item_not_ids in E.
  destruct Hs as [[Hrows Hev] Hfk].
  assert (ids (with_items s (memory_items s ++ [row])) = ids s ++ [row_id row]) as Hids
    by (unfold ids; simpl; by rewrite fmap_app).
  unfold integrity, unique_ids, references_resolve. rewrite Hids. simpl.
  split; [split; [|exact Hev]|].
  - apply NoDup_app. split; [exact Hrows|]. split; [|apply NoDup_singleton].
    intros x Hx Hx'. apply list_elem_of_singleton in Hx'. by subst.
  - intros Hon. destruct (Hfk Hon) as [Hemb Hevs]. split.
    + intros i Hi. apply elem_of_app. left. by apply Hemb.
    + eapply Forall_impl; [exact Hevs|]. intros e He. apply elem_of_app. by left.
Qed.

Lemma preserves_setEmbedding (i : jsstring) (e : BufferView) : preserves (setEmbedding i e).
Proof.
  intros s Hs. unfold setEmbedding.
  destruct (negb _); [exact Hs|].
  destruct (foreign_keys s) eqn:Efk, (has_item s i) eqn:Ehas; simpl; try exact Hs.
  - destruct Hs as [Hu Hfk]. split; [exact Hu|]. simpl. intros _.
    destruct (Hfk Efk) as [Hemb Hevs]. split; [|exact Hevs].
    intros j Hj. simpl in Hj. destruct (decide (i = j)) as [<-|Hne].
    + by apply has_item_ids.
    + rewrite lookup_insert_ne in Hj by done. by apply Hemb.
  - destruct Hs as [Hu Hfk]. split; [exact Hu|]. simpl. congruence.
  - destruct Hs as [Hu Hfk]. split; [exact Hu|]. simpl. congruence.
Qed.

Lemma preserves_set_if_given (i : jsstring) (e : option BufferView) :
  preserves (set_if_given i e).
Proof. destruct e; [apply preserves_setEmbedding|apply preserves_ret]. Qed.

Lemma preserves_insert_event (e : FrictionEventRow) : preserves (insert_event e).
Proof.
  intros s Hs. unfold insert_event.
  destruct (bool_decide (Exists _ _)) eqn:Edup; [exact Hs|].
  apply bool_decide_eq_false in Edup.
  destruct (foreign_keys s) eqn:Efk, (has_item s (fe_memory_id e)) eqn:Ehas;
    simpl; try exact Hs; destruct Hs as [[Hrows Hev] Hfk];
    (split; [split; [exact Hrows|]|]); simpl; try congruence.
  - rewrite fmap_app. apply NoDup_app. split; [exact Hev|]. split; [|apply NoDup_singleton].
    intros x Hx Hx'. apply list_elem_of_singleton in Hx'. subst x.
    apply Edup, Exists_exists. apply list_elem_of_fmap in Hx as (e' & Hid & He').
    exists e'. by split.
  - intros _. destruct (Hfk Efk) as [Hemb Hevs]. split; [exact Hemb|].
    apply Forall_app. split; [exact Hevs|]. apply Forall_singleton. by apply has_item_ids.
  - rewrite fmap_app. apply NoDup_app. split; [exact Hev|]. split; [|apply NoDup_singleton].
    intros x Hx Hx'. apply list_elem_of_singleton in Hx'. subst x.
    apply Edup, Exists_exists. apply list_elem_of_fmap in Hx as (e' & Hid & He').
    exists e'. by split.
  - rewrite fmap_app. apply NoDup_app. split; [exact Hev|]. split; [|apply NoDup_singleton].
    intros x Hx Hx'. apply list_elem_of_singleton in Hx'. subst x.
    apply Edup, Exists_exists. apply list_elem_of_fmap in Hx as (e' & Hid & He').
    exists e'. by split.
Qed.

Lemma NoDup_fmap_filter {A B : Type} (f : A -> B) (p : A -> bool) (l : list A) :
  NoDup (f <$> l) -> NoDup (f <$> List.filter p l).
Proof.
  induction l as [|x l IH]; [done|]. rewrite fmap_cons. intros Hnd.
  apply NoDup_cons in Hnd as [Hx Hl]. simpl. destruct (p x); [|by apply IH].
  rewrite fmap_cons. apply NoDup_cons. split; [|by apply IH].
  intros Hin. apply Hx. apply list_elem_of_fmap in Hin as (y & -> & Hy).
  apply elem_of_List_filter in Hy as [Hy _]. apply list_elem_of_fmap. by exists y.
Qed.

Lemma ids_after_hardDelete (i j : jsstring) (rows : list MemoryRow) :
  j ∈ row_id <$> List.filter (fun r => negb (bool_decide (row_id r = i))) rows
  <-> j ∈ row_id <$> rows /\ j <> i.
Proof.
  rewrite !list_elem_of_fmap. split.
  - intros (r & -> & Hr). apply elem_of_List_filter in Hr as [Hr Hne].
    apply negb_true_iff, bool_decide_eq_false in Hne. split; [by exists r|exact Hne].
  - intros [(r & -> & Hr) Hne]. exists r. split; [reflexivity|].
    apply elem_of_List_filter. split; [exact Hr|].
    by apply negb_true_iff, bool_decide_eq_false.
Qed.

Lemma preserves_hardDelete (i : jsstring) : preserves (hardDelete i).
Proof.
  intros s [[Hrows Hev] Hfk]. unfold hardDelete. cbn zeta.
  rewrite changes_has_item.
  destruct (foreign_keys s) eqn:Efk; cbn [andb fst].
  - destruct (Hfk eq_refl) as [Hemb Hevs].
    destruct (has_item s i) eqn:Ehas.
    + split; [split|]; simpl.
      * by apply NoDup_fmap_filter.
      * by apply NoDup_fmap_filter.
      * intros _. split.
        -- intros j Hj. unfold ids. simpl.
           apply ids_after_hardDelete.
           cbn [memory_embeddings with_events with_embeddings with_items] in Hj.
           destruct (decide (j = i)) as [->|Hne];
             [rewrite lookup_delete_eq in Hj; by destruct Hj|].
           rewrite lookup_delete_ne in Hj by done. split; [by apply Hemb|exact Hne].
        -- apply Forall_forall. intros e He. apply elem_of_List_filter in He as [He Hne].
           apply negb_true_iff, bool_decide_eq_false in Hne.
           unfold ids. simpl. apply ids_after_hardDelete. split; [|exact Hne].
           rewrite Forall_forall in Hevs. by apply Hevs.
    + apply has_item_not_ids in Ehas.
      split; [split|]; simpl.
      * by apply NoDup_fmap_filter.
      * exact Hev.
      * intros _. split.
        -- intros j Hj. unfold ids. simpl. apply ids_after_hardDelete.
           split; [by apply Hemb|]. intros ->. apply Ehas. by apply Hemb.
        -- eapply Forall_impl; [exact Hevs|]. intros e He. unfold ids. simpl.
           apply ids_after_hardDelete. split; [exact He|]. intros Heq.
           apply Ehas. by rewrite <- Heq.
  - split; [split|]; simpl; [by apply NoDup_fmap_filter|exact Hev|congruence].
Qed.

Lemma preserves_add {A : Type} (row : MemoryRow) (i : jsstring) (e : option BufferView)
    (a : A) :
  preserves (insert_item row ;; set_if_given i e ;; db_ret a).
Proof.
  apply preserves_bind; [apply preserves_insert_item|]. intros _.
  apply preserves_bind; [apply preserves_set_if_given|]. intros _. apply preserves_ret.
Qed.

Lemma preserves_exec (c : Call) (s : Store) : integrity s -> integrity (exec c s).
Proof.
  revert s. destruct c; simpl.
  - apply preserves_add.
  - apply preserves_add.
  - apply preserves_add.
  - change (preserves (delete now i)). unfold delete.
    apply preserves_bind; [by apply preserves_update_items|]. intros ?. apply preserves_ret.
  - apply preserves_hardDelete.
  - change (preserves (updateContent now i c embedding)). unfold updateContent.
    apply preserves_bind; [by apply preserves_update_items|]. intros changes.
    apply preserves_bind; [|intros ?; apply preserves_ret].
    destruct (0 <? changes)%nat; [apply preserves_set_if_given|apply preserves_ret].
  - apply preserves_setEmbedding.
  - change (preserves (recordFrictionEvent nanoid now memoryId eventType delta ctx)).
    unfold recordFrictionEvent.
    apply preserves_bind; [|intros ?; apply preserves_ret].
    apply preserves_transaction, preserves_bind; [apply preserves_insert_event|].
    intros _. by apply preserves_update_items.
  - change (preserves (applyFrictionDecay now halfLifeDays)). unfold applyFrictionDecay.
    by apply preserves_update_items.
Qed.

(** X25. In every store reached by calls of the store's methods, the ids of
    the records are unique and so are the ids of the friction events; and
    when the database enforces foreign keys, every stored embedding and
    every friction event belongs to a record of [memory_items], also after
    a hard delete and after a call that threw half-way. *)
Theorem reachable_integrity (s : Store) :
  reachable s -> unique_ids s /\ (foreign_keys s = true -> references_resolve s).
Proof.
  induction 1 as [fk|s c _ IH _]; [|by apply preserves_exec].
  split; [split; apply NoDup_nil_2|]. intros _. split; [|constructor].
  intros i [v Hv]. simpl in Hv. by rewrite lookup_empty in Hv.
Qed.

Lemma reachable_integrity_witness : unique_ids one_memory.
Proof.
  apply reachable_integrity.
  apply (reachable_call _ (CallAddConstraint _ _ _ _)); [apply (reachable_new true)|exact I].
Defined.

(* ----------------------------------------------------------------- *)
(** ** The context builder *)

Lemma tokens_app (a b : list Message) :
  Spec.tokens (a ++ b) = (Spec.tokens a + Spec.tokens b)%Z.
Proof. induction a as [|m a IH]; simpl; [reflexivity|]. rewrite IH. lia. Qed.

Lemma tokens_nonneg (l : list Message) : (0 <= Spec.tokens l)%Z.
Proof.
  induction l as [|m l IH]; simpl; [lia|]. pose proof (estimateTokens_nonneg (msg_content m)). lia.
Qed.

Lemma tokens_last (l : list Message) (m : Message) :
  last l = Some m -> (estimateTokens (msg_content m) <= Spec.tokens l)%Z.
Proof.
  intros Hm. destruct (last_Some l m) as [[l' ->] _]; [exact Hm|].
  rewrite tokens_app. simpl. pose proof (tokens_nonneg l'). lia.
Qed.

Lemma foldl_tokens (l : list Message) (z : Z) :
  foldl (fun sum msg => (sum + estimateTokens (msg_content msg))%Z) z l
  = (z + Spec.tokens l)%Z.
Proof. revert z. induction l as [|m l IH]; intros z; simpl; [lia|]. rewrite IH. lia. Qed.

Lemma truncate_loop_extends (maxTokens : Z) (older result : list Message) (total : Z) :
  exists kept, truncate_loop maxTokens older result total = kept ++ result.
Proof.
  revert result total. induction older as [|msg older IH]; intros result total; simpl.
  - by exists [].
  - destruct (_ <=? _)%Z; [|by exists []].
    destruct (IH (msg :: result) (total + estimateTokens (msg_content msg))%Z) as [kept ->].
    exists (kept ++ [msg]). by rewrite <- app_assoc.
Qed.

Lemma truncate_loop_mono (m1 m2 : Z) (older result : list Message) (total : Z) :
  (m1 <= m2)%Z ->
  exists more,
    truncate_loop m2 older result total = more ++ truncate_loop m1 older result total.
Proof.
  intros Hle. revert result total.
  induction older as [|msg older IH]; intros result total; simpl; [by exists []|].
  destruct (Z.leb_spec (total + estimateTokens (msg_content msg)) m1) as [H1|H1].
  - destruct (Z.leb_spec (total + estimateTokens (msg_content msg)) m2) as [H2|H2]; [|lia].
    apply IH.
  - destruct (Z.leb_spec (total + estimateTokens (msg_content msg)) m2) as [H2|H2];
      [|by exists []].
    destruct (truncate_loop_extends m2 older (msg :: result)
                (total + estimateTokens (msg_content msg))%Z) as [kept ->].
    exists (kept ++ [msg]). by rewrite <- app_assoc.
Qed.

(** X26. [truncateHistory] returns the whole history when its token
    estimate is within the budget, and a larger budget never keeps less:
    what a budget keeps is a suffix of what any larger budget keeps. *)
Theorem truncateHistory_budget (history : list Message) :
  (forall maxTokens, (Spec.tokens history <= maxTokens)%Z ->
     truncateHistory history maxTokens = history)
  /\ (forall m1 m2, (m1 <= m2)%Z ->
        exists more, truncateHistory history m2 = more ++ truncateHistory history m1).
Proof.
  split.
  - intros maxTokens Hfit.
    destruct (truncateHistory_spec history maxTokens) as (dropped & Hsplit & _ & Hstop).
    destruct (last dropped) as [m|] eqn:Hlast.
    + specialize (Hstop m eq_refl). apply tokens_last in Hlast.
      assert (Spec.tokens history
              = Spec.tokens dropped + Spec.tokens (truncateHistory history maxTokens))%Z
        as Hsum by (rewrite <- tokens_app; congruence).
      lia.
    + apply last_None in Hlast. subst dropped. by rewrite Hsplit at 2.
  - intros m1 m2 Hle. unfold truncateHistory.
    destruct (length history =? 0)%nat; [by exists []|].
    by apply truncate_loop_mono.
Qed.

Lemma truncateHistory_budget_witness :
  truncateHistory three_messages 3000 = three_messages.
Proof.
  destruct (truncateHistory_budget three_messages) as [Hfits _].
  apply Hfits. vm_compute. discriminate.
Defined.

(** X27. Whenever [build] returns, its first message is the system prompt
    and its last one is the user's prompt, [tokenEstimate] is the sum of the
    estimates of the messages, and for a history budget that is not
    negative the estimate is at most the estimate of the system prompt plus
    [conversationTokens] plus the estimate of the prompt: the history never
    takes more than its budget. *)
Theorem build_token_estimate (toFixed : jsnum -> nat -> jsstring) (store : Store)
    (embedder : Embedder) (config : ContextConfig) (userPrompt : jsstring)
    (history : list Message) (options : BuildOptions) (ctx : BuiltContext) :
  build toFixed store embedder config userPrompt history options = Ok ctx ->
  (0 <= conversationTokens config)%Z ->
  exists systemContent,
    head (messages ctx) = Some {| role := RSystem; msg_content := systemContent |}
    /\ last (messages ctx) = Some {| role := RUser; msg_content := userPrompt |}
    /\ tokenEstimate ctx = Spec.tokens (messages ctx)
    /\ (tokenEstimate ctx
        <= estimateTokens systemContent + conversationTokens config
           + estimateTokens userPrompt)%Z.
Proof.
  intros Hbuild Hbudget. unfold build in Hbuild.
  destruct (if default true (includeMemory options) then _ else _) as [r|e];
    [|discriminate].
  injection Hbuild as <-. cbn [messages tokenEstimate].
  eexists. split; [reflexivity|]. split; [|split].
  - rewrite app_comm_cons. apply last_snoc.
  - by rewrite foldl_tokens.
  - rewrite foldl_tokens, !tokens_app. simpl.
    destruct (truncateHistory_spec history (conversationTokens config))
      as (_ & _ & [-> | Hfit] & _); simpl; lia.
Qed.

Lemma build_token_estimate_witness :
  exists ctx systemContent,
    build (fun _ _ => []) one_memory simple DEFAULT_CONTEXT_CONFIG (lit "Latest question")
      three_messages {| includeMemory := Some false; forceHeuristics := None |} = Ok ctx
    /\ head (messages ctx) = Some {| role := RSystem; msg_content := systemContent |}
    /\ (tokenEstimate ctx
        <= estimateTokens systemContent + 3000 + estimateTokens (lit "Latest question"))%Z.
Proof.
  eexists.
  destruct (build_token_estimate (fun _ _ => []) one_memory simple DEFAULT_CONTEXT_CONFIG
              (lit "Latest question") three_messages
              {| includeMemory := Some false; forceHeuristics := None |} _ eq_refl)
    as (sys & Hhead & _ & _ & Hle); [simpl; lia|].
  exists sys. split; [reflexivity|]. split; [exact Hhead|exact Hle].
Defined.

(** X28. Without memory ([includeMemory: false]) [build] never fails and
    reports no memory; when the history fits the budget, its messages are
    exactly those of [buildSimpleContext] with the base system prompt. *)
Theorem build_without_memory (toFixed : jsnum -> nat -> jsstring) (store : Store)
    (embedder : Embedder) (config : ContextConfig) (userPrompt : jsstring)
    (history : list Message) (force : option bool) :
  exists ctx,
    build toFixed store embedder config userPrompt history
      {| includeMemory := Some false; forceHeuristics := force |} = Ok ctx
    /\ memoryStats ctx
       = {| constraintsIncluded := 0; decisionsIncluded := 0; heuristicsIncluded := 0;
            wasAmbiguous := false |}
    /\ ((Spec.tokens history <= conversationTokens config)%Z ->
        messages ctx
        = buildSimpleContext userPrompt history
            (Some (buildSystemPrompt toFixed [] [] []))).
Proof.
  eexists. split; [reflexivity|]. split; [reflexivity|]. intros Hfit.
  cbn [messages]. unfold buildSimpleContext.
  destruct (truncateHistory_spec history (conversationTokens config))
    as (dropped & Hsplit & _ & Hstop).
  assert (truncateHistory history (conversationTokens config) = history) as ->.
  { destruct (last dropped) as [m|] eqn:Hlast.
    - specialize (Hstop m eq_refl). apply tokens_last in Hlast.
      assert (Spec.tokens history
              = Spec.tokens dropped
                + Spec.tokens (truncateHistory history (conversationTokens config)))%Z
        as Hsum by (rewrite <- tokens_app; congruence).
      lia.
    - apply last_None in Hlast. subst dropped. by rewrite Hsplit at 2. }
  reflexivity.
Qed.

Lemma build_without_memory_witness :
  exists ctx,
    build (fun _ _ => []) one_memory simple DEFAULT_CONTEXT_CONFIG (lit "Latest question")
      three_messages {| includeMemory := Some false; forceHeuristics := None |} = Ok ctx
    /\ messages ctx
       = buildSimpleContext (lit "Latest question") three_messages
           (Some (buildSystemPrompt (fun _ _ => []) [] [] [])).
Proof.
  destruct (build_without_memory (fun _ _ => []) one_memory simple DEFAULT_CONTEXT_CONFIG
              (lit "Latest question") three_messages None) as (ctx & Hrun & _ & Hsame).
  exists ctx. split; [exact Hrun|]. apply Hsame. vm_compute. discriminate.
Defined.

(* ----------------------------------------------------------------- *)
(** ** What retrieval for a context returns *)

Lemma elem_of_retrieve (store : Store) (embedder : Embedder) (query : jsstring)
    (options : RetrievalOptions) (results : list RetrievalResult) (r : RetrievalResult) :
  retrieve store embedder query options = Ok results -> r ∈ results ->
  exists row e sim,
    row ∈ memory_items store /\ row_active row = 1%Z
    /\ type_selected (match ro_type options with
                      | Some (inr ts) => Some ts
                      | Some (inl t) => Some [t]
                      | None => None
                      end) row = true
    /\ memory_embeddings store !! row_id row = Some e
    /\ memory r = rowToMemory row
    /\ similarity r = Num sim
    /\ (default (3 / 10) (ro_minSimilarity options) <= sim)%R.
Proof.
  unfold retrieve. destruct (embed embedder query) as [q|err]; [|discriminate].
  intros [= <-] Hr.
  apply slice0_elem_of, sort_elem_of, list_elem_of_fmap in Hr as (c & -> & Hc).
  apply elem_of_List_filter in Hc as [Hc Hge].
  apply elem_of_vectorSearch in Hc as (row & e & Hin & ->).
  apply elem_of_joined_rows in Hin as (Hin & Ha & Ht & He).
  apply jge_Num in Hge as (sim & Hsim & Hle).
  exists row, e, sim. simpl in *. auto 10.
Qed.

Lemma retrieve_length (store : Store) (embedder : Embedder) (query : jsstring)
    (options : RetrievalOptions) (results : list RetrievalResult) :
  retrieve store embedder query options = Ok results ->
  (0 <= default 10 (ro_limit options))%Z ->
  (Z.of_nat (length results) <= default 10 (ro_limit options))%Z.
Proof.
  unfold retrieve. destruct (embed embedder query) as [q|err]; [|discriminate].
  intros [= <-] Hl. by apply slice0_length.
Qed.

(** X29. What [retrieveForContext] returns is split by type and filtered:
    [constraints] holds only constraints, every entry of [decisions] is an
    active decision with a stored embedding and a similarity of at least
    0.4, every entry of [heuristics] is an active heuristic with a
    similarity of at least 0.35, and for maxima that are not negative
    there are at most [maxDecisions] (default 5) decisions and
    [maxHeuristics] (default 3) heuristics. *)
Theorem retrieveForContext_segments (store : Store) (embedder : Embedder)
    (prompt : jsstring) (options : ContextOptions) (r : ContextMemories) :
  retrieveForContext store embedder prompt options = Ok r ->
  Forall (fun m => type_of m = TConstraint /\ active (base_of m) = true) (constraints r)
  /\ Forall (fun d => type_of (memory d) = TDecision
                      /\ active (base_of (memory d)) = true
                      /\ is_Some (memory_embeddings store !! id (base_of (memory d)))
                      /\ exists sim, similarity d = Num sim /\ (4 / 10 <= sim)%R)
            (decisions r)
  /\ Forall (fun h => type_of (memory h) = THeuristic
                      /\ active (base_of (memory h)) = true
                      /\ is_Some (memory_embeddings store !! id (base_of (memory h)))
                      /\ exists sim, similarity h = Num sim /\ (35 / 100 <= sim)%R)
            (heuristics r)
  /\ ((0 <= default 5 (maxDecisions options))%Z ->
      (Z.of_nat (length (decisions r)) <= default 5 (maxDecisions options))%Z)
  /\ ((0 <= default 3 (maxHeuristics options))%Z ->
      (Z.of_nat (length (heuristics r)) <= default 3 (maxHeuristics options))%Z).
Proof.
  assert (forall row, row_active row = 1%Z -> active (base_of (rowToMemory row)) = true)
    as Hactive.
  { intros row Ha. unfold rowToMemory. destruct (row_type row); simpl; by rewrite Ha. }
  assert (forall t limit ms results,
            retrieve store embedder prompt
              {| ro_type := Some (inl t); ro_limit := Some limit;
                 ro_minSimilarity := Some ms; ro_includeFriction := None |} = Ok results ->
            Forall (fun d => type_of (memory d) = t
                      /\ active (base_of (memory d)) = true
                      /\ is_Some (memory_embeddings store !! id (base_of (memory d)))
                      /\ exists sim, similarity d = Num sim /\ (ms <= sim)%R) results)
    as Hretrieve.
  { intros t limit ms results Hrun. apply Forall_forall. intros d Hd.
    destruct (elem_of_retrieve _ _ _ _ _ d Hrun Hd)
      as (row & e & sim & Hin & Ha & Ht & He & Hm & Hsim & Hle).
    simpl in Ht, Hle. apply bool_decide_eq_true, list_elem_of_singleton in Ht.
    destruct (getById_fields row) as (Hty & Hid & _).
    rewrite Hm, Hty, Hid, He. repeat split; eauto. }
  unfold retrieveForContext, retrieveDecisions, retrieveHeuristics.
  destruct (retrieve store embedder prompt _) as [ds|err] eqn:Hds; [|discriminate].
  destruct (_ || _).
  - destruct (retrieve store embedder prompt
                {| ro_type := Some (inl THeuristic); ro_limit := _;
                   ro_minSimilarity := _; ro_includeFriction := _ |})
      as [hs|err] eqn:Hhs; [|discriminate].
    intros [= <-]. simpl. split; [|split; [|split; [|split]]].
    + apply Forall_forall. intros m Hm.
      apply elem_of_getByType in Hm as (row & _ & Ht & Ha & ->).
      destruct (getById_fields row) as (-> & _). auto.
    + by apply (Hretrieve _ _ _ _ Hds).
    + by apply (Hretrieve _ _ _ _ Hhs).
    + apply (retrieve_length _ _ _ _ _ Hds).
    + apply (retrieve_length _ _ _ _ _ Hhs).
  - intros [= <-]. simpl. split; [|split; [|split; [|split]]].
    + apply Forall_forall. intros m Hm.
      apply elem_of_getByType in Hm as (row & _ & Ht & Ha & ->).
      destruct (getById_fields row) as (-> & _). auto.
    + by apply (Hretrieve _ _ _ _ Hds).
    + constructor.
    + apply (retrieve_length _ _ _ _ _ Hds).
    + intros; lia.
Qed.

Lemma retrieveForContext_segments_witness :
  exists r,
    retrieveForContext one_memory
      {| dimensions := 384; embed := fun _ => Ok (repeat 1%R 384) |}
      (lit "Add a login endpoint")
      {| maxDecisions := None; maxHeuristics := None; includeHeuristics := None |} = Ok r
    /\ Forall (fun m => type_of m = TConstraint /\ active (base_of m) = true)
         (constraints r).
Proof.
  destruct (retrieveForContext_Ok one_memory
              {| dimensions := 384; embed := fun _ => Ok (repeat 1%R 384) |}
              (lit "Add a login endpoint")
              {| maxDecisions := None; maxHeuristics := None; includeHeuristics := None |}
              (repeat 1%R 384) eq_refl) as (ds & hs & _ & _ & Hrun).
  eexists. split; [exact Hrun|].
  by destruct (retrieveForContext_segments _ _ _ _ _ Hrun) as [Hc _].
Defined.

(* ----------------------------------------------------------------- *)
(** ** The friction tools *)

Lemma recordFrictionEvent_cases (nanoid : jsstring) (now : Z) (mid : jsstring)
    (ty : FrictionEventType) (delta : R) (ctx : option jsstring) (s : Store) :
  let out := recordFrictionEvent nanoid now mid ty delta ctx s in
  out = (s, Err SqliteConstraint)
  \/ (out.2 = Ok nanoid
      /\ friction_events out.1
         = friction_events s
           ++ [{| fe_id := nanoid; fe_memory_id := mid; fe_event_type := ty;
                  fe_delta := delta; fe_context := toWellFormed <$> ctx;
                  fe_created_at := now |}]
      /\ memory_items out.1
         = (fun r => if bool_decide (row_id r = mid)
                     then set_score r (Rmax (-10) (Rmin 10 (friction_score r + delta))) now
                     else r) <$> memory_items s).
Proof.
  simpl. unfold_db. simpl.
  destruct (bool_decide (Exists _ _)); [by left|].
  destruct (foreign_keys s && negb (has_item s mid)); [by left|]. right. by simpl.
Qed.

(** A correction never raises a score that is at least -10. *)
Lemma correction_lowers (x : R) :
  (-10 <= x)%R ->
  (-10 <= Rmax (-10) (Rmin 10 (x + - (1 / 2))) <= x)%R.
Proof.
  intros Hx. rewrite clamp_Rmax_Rmin. unfold Spec.clamp.
  repeat (destruct (decide _)); lra.
Qed.

Lemma correction_step (nanoid : jsstring) (now : Z) (mid : jsstring)
    (ctx : option jsstring) (s : Store) :
  Forall (fun r => (-10 <= friction_score r)%R) (memory_items s) ->
  let out := recordFrictionEvent nanoid now mid ECorrection (- (1 / 2)) ctx s in
  Forall (fun r => (-10 <= friction_score r)%R) (memory_items out.1)
  /\ Forall2 (fun r r' => row_id r' = row_id r /\ row_content r' = row_content r
                          /\ (friction_score r' <= friction_score r)%R)
       (memory_items s) (memory_items out.1)
  /\ exists new,
       friction_events out.1 = friction_events s ++ new
       /\ Forall (fun e => fe_event_type e = ECorrection /\ fe_delta e = (- (1 / 2))%R) new
       /\ (out.2 = Err SqliteConstraint /\ new = []
           \/ out.2 = Ok nanoid /\ length new = 1%nat).
Proof.
  intros Hlow.
  destruct (recordFrictionEvent_cases nanoid now mid ECorrection (- (1 / 2)) ctx s)
    as [-> | (Hok & Hev & Hitems)]; simpl.
  - split; [exact Hlow|]. split.
    + apply Forall2_same_length_lookup_2; [reflexivity|].
      intros i r r' Hr Hr'. assert (r = r') as -> by congruence. repeat split; lra.
    + exists []. rewrite app_nil_r. repeat split; auto.
  - rewrite Hitems, Hev. split; [|split].
    + apply Forall_fmap. eapply Forall_impl; [exact Hlow|]. intros r Hr. simpl.
      destruct (bool_decide _); [|exact Hr]. simpl. by apply correction_lowers.
    + apply Forall2_fmap_r, Forall_Forall2_diag.
      eapply Forall_impl; [exact Hlow|]. intros r Hr. simpl.
      destruct (bool_decide _); [|repeat split; lra]. simpl.
      repeat split. by apply correction_lowers.
    + eexists. split; [reflexivity|]. split; [by apply Forall_singleton|]. by right.
Qed.

Lemma friction_loop_effect (nanoid : nat -> jsstring) (clock : nat -> Z) (ctx : jsstring)
    (related : list RetrievalResult) (k : nat) (s : Store) :
  Forall (fun r => (-10 <= friction_score r)%R) (memory_items s) ->
  let out := friction_loop nanoid clock ctx related k s in
  Forall2 (fun r r' => row_id r' = row_id r /\ row_content r' = row_content r
                       /\ (friction_score r' <= friction_score r)%R)
    (memory_items s) (memory_items out.1)
  /\ exists new,
       friction_events out.1 = friction_events s ++ new
       /\ Forall (fun e => fe_event_type e = ECorrection /\ fe_delta e = (- (1 / 2))%R) new
       /\ (forall n, out.2 = Ok n ->
             n = (k + length new)%nat /\ (length new <= length related)%nat).
Proof.
  revert k s. induction related as [|result related IH]; intros k s Hlow.
  - simpl. split.
    + apply Forall_Forall2_diag, Forall_forall. intros r _. repeat split; lra.
    + exists []. rewrite app_nil_r. split; [reflexivity|]. split; [constructor|].
      intros n [= <-]. simpl. split; lia.
  - cbn [friction_loop].
    destruct (jge (adjustedScore result) (Num SIMILARITY_THRESHOLD)).
    + unfold db_bind.
      destruct (correction_step (nanoid k) (clock k) (id (base_of (memory result)))
                  (Some ctx) s Hlow) as (Hlow1 & Hrel1 & new1 & Hev1 & Hnew1 & Hres1).
      destruct (recordFrictionEvent _ _ _ _ _ _ s) as [s1 [a|e]]; simpl in *.
      * destruct Hres1 as [[Hres1 _]|[_ Hlen1]]; [discriminate|].
        destruct (IH (S k) s1 Hlow1) as (Hrel2 & new2 & Hev2 & Hnew2 & Hres2).
        split.
        -- eapply Forall2_trans; [|exact Hrel1|exact Hrel2].
           intros x y z (-> & -> & Hxy) (-> & -> & Hyz). repeat split; lra.
        -- exists (new1 ++ new2). rewrite Hev2, Hev1, app_assoc.
           split; [reflexivity|]. split; [by apply Forall_app|].
           intros n Hn. destruct (Hres2 n Hn) as [-> Hle].
           rewrite length_app. simpl. lia.
      * split; [exact Hrel1|]. exists new1. split; [exact Hev1|]. split; [exact Hnew1|].
        intros n Hn. discriminate.
    + destruct (IH k s Hlow) as (Hrel & new & Hev & Hnew & Hres).
      split; [exact Hrel|]. exists new. split; [exact Hev|]. split; [exact Hnew|].
      intros n Hn. destruct (Hres n Hn) as [-> Hle]. simpl. lia.
Qed.

(** X30. The [dc_log_friction] tool only lowers scores.  On a store whose
    friction scores are at least -10, whether the tool returns or throws:
    the records stay in place with their ids and contents and no score
    rises; the friction log only grows, by corrections of -0.5; and when the
    tool returns, the count it reports is the number of events it added,
    which is 1 when a memory id was given and at most 3 otherwise. *)
Theorem logFriction_effect (embedder : Embedder) (nanoid : nat -> jsstring)
    (clock : nat -> Z) (input : FrictionLog) (s : Store) :
  Forall (fun r => (-10 <= friction_score r)%R) (memory_items s) ->
  let out := logFriction embedder nanoid clock input s in
  Forall2 (fun r r' => row_id r' = row_id r /\ row_content r' = row_content r
                       /\ (friction_score r' <= friction_score r)%R)
    (memory_items s) (memory_items out.1)
  /\ exists new,
       friction_events out.1 = friction_events s ++ new
       /\ Forall (fun e => fe_event_type e = ECorrection /\ fe_delta e = (- (1 / 2))%R) new
       /\ (forall n, out.2 = Ok n ->
             n = length new
             /\ (truthy (memory_id input) = true -> n = 1%nat)
             /\ (truthy (memory_id input) = false -> (n <= 3)%nat)).
Proof.
  intros Hlow. unfold logFriction. cbn zeta.
  destruct (truthy (memory_id input)) eqn:Hid.
  - unfold db_bind, db_ret.
    destruct (correction_step (nanoid 0%nat) (clock 0%nat) (default [] (memory_id input))
                (Some (default (what_failed input) (why input))) s Hlow)
      as (_ & Hrel & new & Hev & Hnew & Hres).
    destruct (recordFrictionEvent _ _ _ _ _ _ s) as [s1 [a|e]]; simpl in *;
      (split; [exact Hrel|]); exists new; (split; [exact Hev|]); (split; [exact Hnew|]).
    + intros n [= <-]. destruct Hres as [[Hres _]|[_ Hlen]]; [discriminate|].
      split; [by rewrite Hlen|]. split; [reflexivity|]. discriminate.
    + intros n Hn. discriminate.
  - destruct (search s embedder (what_failed input) None (Some 3%Z)) as [related|e] eqn:Hs.
    + destruct (friction_loop_effect nanoid clock (default (what_failed input) (why input))
                  related 0 s Hlow) as (Hrel & new & Hev & Hnew & Hres).
      split; [exact Hrel|]. exists new. split; [exact Hev|]. split; [exact Hnew|].
      intros n Hn. destruct (Hres n Hn) as [-> Hle].
      split; [reflexivity|]. split; [discriminate|]. intros _.
      pose proof (retrieve_length _ _ _ _ _ Hs) as Hlen. simpl in Hlen. lia.
    + simpl. split.
      * apply Forall_Forall2_diag, Forall_forall. intros r _. repeat split; lra.
      * exists []. rewrite app_nil_r. split; [reflexivity|]. split; [constructor|].
        intros n Hn. discriminate.
Qed.

Lemma logFriction_effect_witness :
  exists new,
    friction_events
      (logFriction simple (fun _ => lit "e1") (fun _ => 1%Z)
         {| what_failed := lit "used spaces"; why := None; correction := None;
            memory_id := Some (lit "m1") |} one_memory).1
    = friction_events one_memory ++ new
    /\ Forall (fun e => fe_event_type e = ECorrection /\ fe_delta e = (- (1 / 2))%R) new.
Proof.
  destruct (logFriction_effect simple (fun _ => lit "e1") (fun _ => 1%Z)
              {| what_failed := lit "used spaces"; why := None; correction := None;
                 memory_id := Some (lit "m1") |} one_memory)
    as (_ & new & Hev & Hnew & _).
  - apply Forall_singleton. simpl. lra.
  - exists new. by split.
Defined.
